(** * proxysql_cfgcheck: tokenizer, parser, config view, built-in rules
    and the check command

    A shallow embedding of [proxysql_cfgcheck/config_parser.py],
    [config_model.py], [rules/base.py], [rules/builtin.py],
    [config_loader.py] and [cli.py], followed by the properties established
    about them.

    Conventions of the embedding.
    - Python [str] is Rocq [string]; the text is 7-bit ASCII, and a character
      code of 128 or more belongs to no character class below.  Where a
      statement depends on it, it says so with [isascii].
    - Python [int] is [Z]; [float] is the kernel's binary64 [float].
    - A Python exception is a value of [exn]; a generator is the list of what
      it yielded together with the exception that ended it, if any.
    - [int(str)] has CPython's default limit of 4300 digits; the program
      never changes it.  CPython's recursion limit is not part of the
      model; where a statement depends on it, it bounds the nesting of the
      text with [shallow]. *)

From Stdlib Require Import ZArith String Ascii List Bool Lia.
From Stdlib Require Import Floats.PrimFloat Floats.SpecFloat Floats.FloatOps.
From stdpp Require Import gmap.
Import ListNotations.

#[local] Set Warnings "-register-all".

Local Open Scope string_scope.
Local Open Scope Z_scope.

(** ** Characters and the [str] methods the program calls *)

Definition code (c : ascii) : N := N_of_ascii c.

Definition between (lo hi : N) (c : ascii) : bool :=
  ((lo <=? code c) && (code c <=? hi))%N.

(** [str.isdigit], [str.isalpha], [str.isalnum] on one character. *)
Definition isdigit (c : ascii) : bool := between 48 57 c.
Definition isalpha (c : ascii) : bool := between 65 90 c || between 97 122 c.
Definition isalnum (c : ascii) : bool := isalpha c || isdigit c.

(** The whitespace of [str.strip()] and [str.isspace()]: tab, line feed,
    vertical tab, form feed, carriage return, the four separators 0x1c-0x1f
    and space. *)
Definition isspace (c : ascii) : bool :=
  between 9 13 c || between 28 31 c || (code c =? 32)%N.

(** The whitespace [int(str)] and [float(str)] skip around an ASCII string:
    tab to carriage return, and space. *)
Definition c_isspace (c : ascii) : bool := between 9 13 c || (code c =? 32)%N.

Definition newline : ascii := "010"%char.
Definition tab : ascii := "009"%char.
Definition cr : ascii := "013"%char.
Definition dquote : ascii := "034"%char.
Definition backslash : ascii := "092"%char.
Definition nul : ascii := "000"%char.

Definition lower_char (c : ascii) : ascii :=
  if between 65 90 c then ascii_of_N (code c + 32) else c.

(** [s.lower()] *)
Fixpoint lower (s : string) : string :=
  match s with
  | EmptyString => EmptyString
  | String c r => String (lower_char c) (lower r)
  end.

(** [ch in s] for a one-character [ch]. *)
Fixpoint contains (ch : ascii) (s : string) : bool :=
  match s with
  | EmptyString => false
  | String c r => Ascii.eqb c ch || contains ch r
  end.

Fixpoint lstrip_by (sp : ascii -> bool) (s : string) : string :=
  match s with
  | EmptyString => EmptyString
  | String c r => if sp c then lstrip_by sp r else s
  end.

Fixpoint rstrip_by (sp : ascii -> bool) (s : string) : string :=
  match s with
  | EmptyString => EmptyString
  | String c r =>
      match rstrip_by sp r with
      | EmptyString => if sp c then EmptyString else String c EmptyString
      | r' => String c r'
      end
  end.

(** [s.strip()] *)
Definition strip (s : string) : string := rstrip_by isspace (lstrip_by isspace s).

Definition nonempty (s : string) : bool :=
  match s with EmptyString => false | String _ _ => true end.

(** ** [int(str)] and [float(str)] *)

Definition digit_value (c : ascii) : Z := Z.of_N (code c) - 48.

(** The rest of a digit part, read just after one of its digits: further
    digits, each optionally preceded by a single underscore.  Returns the
    accumulated value, the number of digits read, and the unread text. *)
Fixpoint digit_run (s : string) (acc : Z) (n : nat) : Z * nat * string :=
  match s with
  | EmptyString => (acc, n, s)
  | String c r =>
      if isdigit c then digit_run r (10 * acc + digit_value c) (S n)
      else if Ascii.eqb c "_" then
        match r with
        | String d r' =>
            if isdigit d then digit_run r' (10 * acc + digit_value d) (S n)
            else (acc, n, s)
        | EmptyString => (acc, n, s)
        end
      else (acc, n, s)
  end.

(** A digit part starts with a digit; [acc] and [n] carry what was read
    before it (the integer digits of a float, when reading its fraction). *)
Definition digitpart (s : string) (acc : Z) (n : nat) : option (Z * nat * string) :=
  match s with
  | String c r =>
      if isdigit c then Some (digit_run r (10 * acc + digit_value c) (S n)) else None
  | EmptyString => None
  end.

(** An optional sign: [true] for a minus. *)
Definition read_sign (s : string) : bool * string :=
  match s with
  | String c r =>
      if Ascii.eqb c "-" then (true, r)
      else if Ascii.eqb c "+" then (false, r)
      else (false, s)
  | EmptyString => (false, s)
  end.

Definition signed (neg : bool) (n : Z) : Z := if neg then - n else n.

(** [sys.get_int_max_str_digits()]: the most digits a string may hold for
    [int] to convert it, 4300 unless the interpreter is told otherwise. *)
Definition int_max_str_digits : nat := 4300.

(** [int(s)] in base 10; [None] stands for [ValueError], which is also what
    a string of more than [int_max_str_digits] digits raises. *)
Definition py_int (s : string) : option Z :=
  let t := rstrip_by c_isspace (lstrip_by c_isspace s) in
  let '(neg, body) := read_sign t in
  match digitpart body 0 0 with
  | Some (n, digits, EmptyString) =>
      if (digits <=? int_max_str_digits)%nat then Some (signed neg n) else None
  | _ => None
  end.

(** The binary64 value nearest to [m * 10 ^ e10] (ties to even). *)
Definition decimal_to_float (neg : bool) (m : Z) (e10 : Z) : float :=
  match m with
  | Zpos p =>
      let one := S754_finite false 1 0 in
      match e10 with
      | Zneg e => SF2Prim (SFdiv prec emax (S754_finite neg p 0) (S754_finite false (10 ^ e) 0))
      | Zpos e => SF2Prim (SFdiv prec emax (S754_finite neg (p * 10 ^ e) 0) one)
      | Z0 => SF2Prim (SFdiv prec emax (S754_finite neg p 0) one)
      end
  | _ => if neg then (-0)%float else 0%float
  end.

(** The optional exponent of a float literal. *)
Definition read_exponent (s : string) : option (Z * string) :=
  match s with
  | String c r =>
      if Ascii.eqb c "e" || Ascii.eqb c "E" then
        let '(neg, body) := read_sign r in
        match digitpart body 0 0 with
        | Some (e, _, rest) => Some (signed neg e, rest)
        | None => None
        end
      else Some (0, s)
  | EmptyString => Some (0, s)
  end.

(** Integer digits, then an optional point and optional fraction; or a point
    and a fraction.  Returns the digits as one integer, the number of
    fraction digits and the unread text. *)
Definition read_mantissa (s : string) : option (Z * nat * string) :=
  match digitpart s 0 0 with
  | Some (i, _, String c r) =>
      if Ascii.eqb c "." then
        match digitpart r i 0 with
        | Some frac => Some frac
        | None => Some (i, 0%nat, r)
        end
      else Some (i, 0%nat, String c r)
  | Some (i, _, EmptyString) => Some (i, 0%nat, EmptyString)
  | None =>
      match s with
      | String c r => if Ascii.eqb c "." then digitpart r 0 0 else None
      | EmptyString => None
      end
  end.

(** [float(s)] for a decimal spelling; [None] stands for [ValueError].  The
    spellings [inf], [infinity] and [nan] hold no point and so never reach
    [float] in the parser; they are left out. *)
Definition py_float (s : string) : option float :=
  let t := rstrip_by c_isspace (lstrip_by c_isspace s) in
  let '(neg, body) := read_sign t in
  match read_mantissa body with
  | Some (m, nfrac, rest) =>
      match read_exponent rest with
      | Some (e, EmptyString) => Some (decimal_to_float neg m (e - Z.of_nat nfrac))
      | _ => None
      end
  | None => None
  end.

(** ** The value tree

    The parser builds Python objects: [str] for a string literal and for a
    bareword alike, [int], [float], [bool], [None], [dict] and [list].
    A [dict] keeps its keys in insertion order, so it is an association list
    with unique keys. *)

Inductive Value : Type :=
  | VStr (s : string)
  | VInt (n : Z)
  | VFloat (f : float)
  | VBool (b : bool)
  | VNone
  | VDict (d : list (string * Value))
  | VList (l : list Value).

Definition dict : Type := list (string * Value).

(** [d.get(k)]: the value at [k], or [None]. *)
Fixpoint dict_get (d : dict) (k : string) : Value :=
  match d with
  | [] => VNone
  | (k', v) :: r => if String.eqb k' k then v else dict_get r k
  end.

(** [k in d] *)
Fixpoint dict_has (d : dict) (k : string) : bool :=
  match d with
  | [] => false
  | (k', _) :: r => String.eqb k' k || dict_has r k
  end.

(** [d[k] = v]: a key already present keeps its place and takes the new
    value, a new key goes last. *)
Fixpoint dict_set (d : dict) (k : string) (v : Value) : dict :=
  match d with
  | [] => [(k, v)]
  | (k', v') :: r => if String.eqb k' k then (k', v) :: r else (k', v') :: dict_set r k v
  end.

(** [bool(v)], as [not v], [v or w] and [if v] use it. *)
Definition truthy (v : Value) : bool :=
  match v with
  | VStr s => nonempty s
  | VInt n => negb (n =? 0)
  | VFloat f => negb (PrimFloat.eqb f 0)
  | VBool b => b
  | VNone => false
  | VDict d => match d with [] => false | _ => true end
  | VList l => match l with [] => false | _ => true end
  end.

(** [v or w] *)
Definition py_or (v w : Value) : Value := if truthy v then v else w.

(** [x is None] *)
Definition is_none (v : Value) : bool :=
  match v with VNone => true | _ => false end.

(** [hash(v)] raises [TypeError] on a [dict] and on a [list]. *)
Definition hashable (v : Value) : bool :=
  match v with VDict _ | VList _ => false | _ => true end.

(** The text of that [TypeError]. *)
Definition unhashable (v : Value) : string :=
  match v with
  | VList _ => "unhashable type: 'list'"
  | _ => "unhashable type: 'dict'"
  end.

(** A float equals an integer when it has exactly that value. *)
Definition float_eq_int (f : float) (z : Z) : bool :=
  match Prim2SF f with
  | S754_zero _ => z =? 0
  | S754_finite s m e =>
      let sm := if s then Zneg m else Zpos m in
      match e with
      | Zneg k => sm =? z * 2 ^ Zpos k
      | _ => z =? sm * 2 ^ e
      end
  | _ => false
  end.

(** [v == w] between hashable values: strings with strings, and the numbers
    ([bool], [int], [float]) by value across their types. *)
Definition scalar_eq (v w : Value) : bool :=
  let num (x : Value) : option (Z + float) :=
    match x with
    | VInt n => Some (inl n)
    | VBool b => Some (inl (if b then 1 else 0))
    | VFloat f => Some (inr f)
    | _ => None
    end in
  match v, w with
  | VStr a, VStr b => String.eqb a b
  | VNone, VNone => true
  | _, _ =>
      match num v, num w with
      | Some (inl a), Some (inl b) => a =? b
      | Some (inr f), Some (inr g) => PrimFloat.eqb f g
      | Some (inl a), Some (inr f) | Some (inr f), Some (inl a) => float_eq_int f a
      | _, _ => false
      end
  end.

(** ** Exceptions and generators *)

Module Position.
Record t : Type := mk { line : nat; column : nat }.
End Position.

(** [ConfigSyntaxError] keeps the reason and the position; its text adds
    the line and the column to the reason when a position is given.
    [ReadError name] is what [Path.read_text] raises when it fails for
    another reason than a missing file, by the name of its class:
    [IsADirectoryError], [PermissionError], [UnicodeDecodeError], ... *)
Inductive exn : Type :=
  | ConfigSyntaxError (message : string) (position : option Position.t)
  | ValueError
  | TypeError (message : string)
  | ReadError (name : string).

(** The outcome of a call that may raise, or that may exhaust the fuel of a
    loop. *)
Inductive outcome (A : Type) : Type :=
  | Return (a : A)
  | Raise (e : exn)
  | OutOfFuel.
Arguments Return {A} a.
Arguments Raise {A} e.
Arguments OutOfFuel {A}.

#[global] Instance outcome_ret : MRet outcome := @Return.

#[global] Instance outcome_bind : MBind outcome := fun A B k r =>
  match r with
  | Return a => k a
  | Raise e => Raise e
  | OutOfFuel => OutOfFuel
  end.

(** ** config_model.py *)

Module config_model.

Record Config : Type := { raw : dict }.

Definition _coerce_int (value : Value) : option Z :=
  match value with
  | VBool b => Some (if b then 1 else 0)
  | VInt n => Some n
  | VStr s => py_int s
  | _ => None
  end.

Definition get_block (self : Config) (name : string) : dict :=
  match dict_get (raw self) name with
  | VDict d => d
  | _ => []
  end.

Definition get_list (self : Config) (name : string) : list Value :=
  match dict_get (raw self) name with
  | VList l => l
  | _ => []
  end.

Definition missing_blocks (self : Config) (names : list string) : list string :=
  List.filter (fun name => negb (dict_has (raw self) name)) names.

Definition entry_hostgroup (entry : Value) : option Z :=
  match entry with
  | VDict d => _coerce_int (dict_get d "hostgroup")
  | _ => None
  end.

Fixpoint hostgroups_loop (groups : gset Z) (entries : list Value) : gset Z :=
  match entries with
  | [] => groups
  | entry :: r =>
      match entry_hostgroup entry with
      | Some hg => hostgroups_loop ({[ hg ]} ∪ groups) r
      | None => hostgroups_loop groups r
      end
  end.

Definition hostgroups (self : Config) : gset Z :=
  hostgroups_loop ∅ (get_list self "mysql_servers").

Definition is_dict (v : Value) : bool :=
  match v with VDict _ => true | _ => false end.

Definition users (self : Config) : list Value :=
  List.filter is_dict (get_list self "mysql_users").

Definition query_rules (self : Config) : list Value :=
  List.filter is_dict (get_list self "mysql_query_rules").

End config_model.

(** ** rules/base.py *)

Module base.

Inductive Severity : Type := ERROR | WARNING | INFO.

(** A message is an f-string; the model keeps its pieces, the literal text
    and the interpolated values, in order, without rendering the values. *)
Inductive fpart : Type :=
  | Lit (s : string)
  | Fmt (v : Value).

Record Finding : Type := {
  rule : string;
  message : list fpart;
  severity : Severity;
  location : option string
}.

(** [Finding(rule=r, message=m, severity=s)]; the location defaults to
    [None]. *)
Definition mkFinding (r : string) (m : list fpart) (s : Severity) : Finding :=
  {| rule := r; message := m; severity := s; location := None |}.

(** What a generator of findings does when it is run to its end: the
    findings it yields, in order, and the exception that stops it, if one
    does. *)
Record gen : Type := { yielded : list Finding; raised : option exn }.

Definition done (fs : list Finding) : gen := {| yielded := fs; raised := None |}.

Definition throw (e : exn) : gen := {| yielded := []; raised := Some e |}.

(** Yield [fs], then continue as [g]. *)
Definition yield_then (fs : list Finding) (g : gen) : gen :=
  {| yielded := fs ++ yielded g; raised := raised g |}.

(** [class Rule]: the class attributes and the [check] method.  The class
    attribute [severity] is the field [default_severity]. *)
Record Rule : Type := {
  slug : string;
  description : string;
  default_severity : Severity;
  check : config_model.Config -> gen
}.

Record RuleEngine : Type := { rules : list Rule }.

(** [yield from rule.check(config)] for each rule in turn; an exception
    raised by a rule leaves the loop. *)
Fixpoint run_loop (rs : list Rule) (config : config_model.Config) : gen :=
  match rs with
  | [] => done []
  | r :: rest =>
      let g := check r config in
      match raised g with
      | Some _ => g
      | None => yield_then (yielded g) (run_loop rest config)
      end
  end.

Definition run (self : RuleEngine) (config : config_model.Config) : gen :=
  run_loop (rules self) config.

End base.

(** ** rules/builtin.py *)

Module builtin.
Import config_model base.

Definition _coerce_int (value : Value) : option Z :=
  match value with
  | VBool b => Some (if b then 1 else 0)
  | VInt n => Some n
  | VStr s => py_int s
  | _ => None
  end.

Definition is_str (v : Value) : bool :=
  match v with VStr _ => true | _ => false end.

(** [isinstance(v, str) and p(v)] *)
Definition str_and (p : string -> bool) (v : Value) : bool :=
  match v with VStr s => p s | _ => false end.

Definition when (b : bool) (f : Finding) : list Finding := if b then [f] else [].

Definition index_of (index : nat) : fpart := Fmt (VInt (Z.of_nat index)).

(** *** RequiredBlocksRule *)

Definition default_required : list string :=
  ["admin_variables"; "mysql_variables"; "mysql_servers"].

(** [tuple(required or (...))]: [None] and the empty sequence give the
    default. *)
Definition required_or_default (required : option (list string)) : list string :=
  match required with
  | Some (n :: r) => n :: r
  | _ => default_required
  end.

Definition RequiredBlocks_check (required : list string) (config : Config) : gen :=
  done (List.map (fun name =>
               mkFinding "required_blocks"
                 [Lit "Missing required block '"; Fmt (VStr name); Lit "'"] ERROR)
            (missing_blocks config required)).

Definition RequiredBlocksRule (required : option (list string)) : Rule :=
  {| slug := "required_blocks";
     description := "Ensure essential ProxySQL blocks are present";
     default_severity := ERROR;
     check := RequiredBlocks_check (required_or_default required) |}.

(** *** AdminCredentialsRule *)

Definition AdminCredentials_check (config : Config) : gen :=
  let admin_block := get_block config "admin_variables" in
  let creds := dict_get admin_block "admin_credentials" in
  let mysql_ifaces := dict_get admin_block "mysql_ifaces" in
  done
    (when (negb (is_str creds) || negb (str_and (contains ":") creds))
       (mkFinding "admin_credentials"
          [Lit "admin_variables.admin_credentials must be set as 'user:password'"] ERROR)
     ++
     (if str_and (fun s => nonempty (strip s)) mysql_ifaces then []
      else [mkFinding "admin_credentials"
              [Lit "admin_variables.mysql_ifaces should define at least one listener"]
              WARNING])).

Definition AdminCredentialsRule : Rule :=
  {| slug := "admin_credentials";
     description := "Validate admin credentials and listener configuration";
     default_severity := ERROR;
     check := AdminCredentials_check |}.

(** *** MysqlServersRule *)

(** [n or d] for an integer-or-[None] [n]. *)
Definition int_or (n : option Z) (d : Z) : Z :=
  match n with
  | Some z => if z =? 0 then d else z
  | None => d
  end.

(** [key = (addr or "", port or -1, hostgroup or -1)] *)
Definition server_key (addr : Value) (port hostgroup : option Z) : Value * Z * Z :=
  (py_or addr (VStr ""), int_or port (-1), int_or hostgroup (-1)).

Definition key_eq (k1 k2 : Value * Z * Z) : bool :=
  let '(a1, p1, h1) := k1 in
  let '(a2, p2, h2) := k2 in
  scalar_eq a1 a2 && (p1 =? p2) && (h1 =? h2).

(** [key in seen] once [key] has been hashed. *)
Definition key_in (key : Value * Z * Z) (seen : list (Value * Z * Z)) : bool :=
  existsb (key_eq key) seen.

(** [seen.add(key)] *)
Definition seen_add (key : Value * Z * Z) (seen : list (Value * Z * Z)) :
  list (Value * Z * Z) :=
  if key_in key seen then seen else key :: seen.

Definition servers_prefix (index : nat) : list fpart :=
  [Lit "mysql_servers["; index_of index; Lit "]"].

Definition server_finding (index : nat) (tail : string) (s : Severity) : Finding :=
  mkFinding "mysql_servers" (servers_prefix index ++ [Lit tail]) s.

Definition duplicate_server (addr : Value) (port hostgroup : Z) : Finding :=
  mkFinding "mysql_servers"
    [Lit "Duplicate mysql_server entry for "; Fmt addr; Lit ":"; Fmt (VInt port);
     Lit " in hostgroup "; Fmt (VInt hostgroup)] ERROR.

(** The findings of one object entry up to the computation of [key]. *)
Definition server_field_findings (index : nat) (entry : dict) : list Finding :=
  let addr := dict_get entry "address" in
  let port := _coerce_int (dict_get entry "port") in
  let hostgroup := _coerce_int (dict_get entry "hostgroup") in
  when (negb (is_str addr) || negb (truthy addr))
    (server_finding index ".address must be a non-empty string" ERROR)
  ++ when (match port with
           | None => true
           | Some p => negb ((0 <? p) && (p <? 65536))
           end)
       (server_finding index ".port must be a valid TCP port" ERROR)
  ++ when (match hostgroup with None => true | Some h => h <? 0 end)
       (server_finding index ".hostgroup must be a non-negative integer" ERROR)
  ++ when (is_none (dict_get entry "max_connections"))
       (server_finding index ".max_connections is recommended" WARNING).

(** The body of [for index, entry in enumerate(servers)], from [index] on. *)
Fixpoint servers_loop (index : nat) (seen : list (Value * Z * Z))
    (servers : list Value) : gen :=
  match servers with
  | [] => done []
  | VDict entry :: rest =>
      let addr := dict_get entry "address" in
      let port := _coerce_int (dict_get entry "port") in
      let hostgroup := _coerce_int (dict_get entry "hostgroup") in
      let key := server_key addr port hostgroup in
      yield_then (server_field_findings index entry)
        match addr, port, hostgroup with
        | VNone, _, _ | _, None, _ | _, _, None => servers_loop (S index) seen rest
        | _, Some p, Some h =>
            if hashable (fst (fst key)) then
              yield_then (when (key_in key seen) (duplicate_server addr p h))
                (servers_loop (S index) (seen_add key seen) rest)
            else throw (TypeError (unhashable (fst (fst key))))
        end
  | _ :: rest =>
      yield_then [server_finding index " must be an object" ERROR]
        (servers_loop (S index) seen rest)
  end.

Definition MysqlServers_check (config : Config) : gen :=
  match get_list config "mysql_servers" with
  | [] => done [mkFinding "mysql_servers"
                  [Lit "mysql_servers must define at least one hostgroup"] ERROR]
  | servers => servers_loop 0 [] servers
  end.

Definition MysqlServersRule : Rule :=
  {| slug := "mysql_servers";
     description := "Check backend server definitions";
     default_severity := ERROR;
     check := MysqlServers_check |}.

(** *** MysqlUsersRule *)

Definition users_prefix (index : nat) : list fpart :=
  [Lit "mysql_users["; index_of index; Lit "]"].

Definition user_finding (index : nat) (tail : list fpart) : Finding :=
  mkFinding "mysql_users" (users_prefix index ++ tail) ERROR.

(** [bool(hostgroups)] for the set. *)
Definition set_nonempty (s : gset Z) : bool := negb (bool_decide (s = ∅)).

Definition user_entry_findings (hostgroups : gset Z) (index : nat) (entry : Value) :
  list Finding :=
  match entry with
  | VDict d =>
      let username := dict_get d "username" in
      let password := dict_get d "password" in
      let dflt_hg := _coerce_int (dict_get d "default_hostgroup") in
      when (negb (is_str username) || negb (truthy username))
        (user_finding index [Lit ".username must be set"])
      ++ when (negb (is_str password) || negb (truthy password))
           (user_finding index [Lit ".password must be set"])
      ++ match dflt_hg with
         | None => [user_finding index [Lit ".default_hostgroup must be an integer"]]
         | Some hg =>
             when (set_nonempty hostgroups && negb (bool_decide (hg ∈ hostgroups)))
               (user_finding index [Lit " references missing hostgroup "; Fmt (VInt hg)])
         end
  | _ => [user_finding index [Lit " must be an object"]]
  end.

Fixpoint users_loop (hostgroups : gset Z) (index : nat) (users : list Value) :
  list Finding :=
  match users with
  | [] => []
  | entry :: rest =>
      user_entry_findings hostgroups index entry ++ users_loop hostgroups (S index) rest
  end.

Definition MysqlUsers_check (config : Config) : gen :=
  done (users_loop (hostgroups config) 0 (get_list config "mysql_users")).

Definition MysqlUsersRule : Rule :=
  {| slug := "mysql_users";
     description := "Validate user definitions";
     default_severity := ERROR;
     check := MysqlUsers_check |}.

(** *** MysqlQueryRulesRule *)

Definition query_rules_prefix (index : nat) : list fpart :=
  [Lit "mysql_query_rules["; index_of index; Lit "]"].

Definition query_rule_finding (index : nat) (tail : list fpart) (s : Severity) : Finding :=
  mkFinding "mysql_query_rules" (query_rules_prefix index ++ tail) s.

Definition duplicate_rule_id (rule_id : Z) : Finding :=
  mkFinding "mysql_query_rules"
    [Lit "Duplicate rule_id "; Fmt (VInt rule_id); Lit " in mysql_query_rules"] ERROR.

(** The findings of an object entry after the [rule_id] branch. *)
Definition query_rule_tail (hostgroups : gset Z) (index : nat) (entry : dict) :
  list Finding :=
  let dest := _coerce_int (dict_get entry "destination_hostgroup") in
  match dest with
  | Some d =>
      when (set_nonempty hostgroups && negb (bool_decide (d ∈ hostgroups)))
        (query_rule_finding index [Lit " references missing hostgroup "; Fmt (VInt d)] ERROR)
  | None => []
  end
  ++ when (negb (truthy (dict_get entry "match_pattern")))
       (query_rule_finding index [Lit ".match_pattern should be defined"] WARNING).

Fixpoint query_rules_loop (hostgroups : gset Z) (index : nat) (seen_ids : gset Z)
    (rules : list Value) : list Finding :=
  match rules with
  | [] => []
  | VDict entry :: rest =>
      match _coerce_int (dict_get entry "rule_id") with
      | None =>
          query_rule_finding index [Lit ".rule_id must be an integer"] ERROR
          :: query_rule_tail hostgroups index entry
          ++ query_rules_loop hostgroups (S index) seen_ids rest
      | Some rule_id =>
          if bool_decide (rule_id ∈ seen_ids) then
            duplicate_rule_id rule_id
            :: query_rule_tail hostgroups index entry
            ++ query_rules_loop hostgroups (S index) seen_ids rest
          else
            query_rule_tail hostgroups index entry
            ++ query_rules_loop hostgroups (S index) ({[ rule_id ]} ∪ seen_ids) rest
      end
  | _ :: rest =>
      query_rule_finding index [Lit " must be an object"] ERROR
      :: query_rules_loop hostgroups (S index) seen_ids rest
  end.

Definition MysqlQueryRules_check (config : Config) : gen :=
  done (query_rules_loop (hostgroups config) 0 ∅ (get_list config "mysql_query_rules")).

Definition MysqlQueryRulesRule : Rule :=
  {| slug := "mysql_query_rules";
     description := "Validate routing/query rules consistency";
     default_severity := ERROR;
     check := MysqlQueryRules_check |}.

(** *** DatadirRule *)

(** [PurePosixPath(s).is_absolute()]: the path starts with a slash. *)
Definition is_absolute (s : string) : bool :=
  match s with
  | String c _ => Ascii.eqb c "/"
  | EmptyString => false
  end.

Definition Datadir_check (config : Config) : gen :=
  let datadir := dict_get (raw config) "datadir" in
  match datadir with
  | VStr s =>
      if nonempty (strip s) then
        done (when (negb (is_absolute s))
                (mkFinding "datadir" [Lit "datadir should be an absolute path"] WARNING))
      else done [mkFinding "datadir" [Lit "datadir should be set to a writable path"] WARNING]
  | _ => done [mkFinding "datadir" [Lit "datadir should be set to a writable path"] WARNING]
  end.

Definition DatadirRule : Rule :=
  {| slug := "datadir";
     description := "Validate datadir definition";
     default_severity := WARNING;
     check := Datadir_check |}.

Definition builtin_rules : list Rule :=
  [RequiredBlocksRule None; AdminCredentialsRule; MysqlServersRule; MysqlUsersRule;
   MysqlQueryRulesRule; DatadirRule].

End builtin.

(** ** config_parser.py *)

Module Token.
Record t : Type := mk { kind : string; value : string; position : Position.t }.
End Token.

(** *** class Tokenizer

    The pair [(self.text, self.index)] is kept as [index] together with the
    unread text [self.text[self.index:]].  Every loop consumes at least one
    character per turn and is given one unit of fuel more than there are
    unread characters. *)

Module Tokenizer.

Record t : Type := mk { text : string; index : nat; line : nat; column : nat }.

Definition init (text : string) : t := mk text 0 1 1.

Definition SYMBOLS : string := "=,{}()".

Definition _eof (self : t) : bool := negb (nonempty (text self)).

(** [self.text[self.index]]; called only when [_eof] is false. *)
Definition _peek (self : t) : ascii :=
  match text self with
  | String c _ => c
  | EmptyString => nul
  end.

Definition _peek_next (self : t) : ascii :=
  match text self with
  | String _ (String c _) => c
  | _ => nul
  end.

Definition _advance (self : t) (newline : bool) : t :=
  {| text := match text self with String _ r => r | EmptyString => EmptyString end;
     index := S (index self);
     line := if newline then S (line self) else line self;
     column := if newline then 1%nat else S (column self) |}.

Definition _position (self : t) : Position.t :=
  Position.mk (line self) (column self).

Definition fuel_of (self : t) : nat := S (String.length (text self)).

Fixpoint _consume_comment_loop (fuel : nat) (self : t) : outcome t :=
  match fuel with
  | O => OutOfFuel
  | S fuel =>
      if negb (_eof self) && negb (Ascii.eqb (_peek self) newline) then
        _consume_comment_loop fuel (_advance self false)
      else Return self
  end.

Definition _consume_comment (self : t) : outcome t :=
  _consume_comment_loop (fuel_of self) self.

Definition _translate_escape (ch : ascii) : ascii :=
  if Ascii.eqb ch "n" then newline
  else if Ascii.eqb ch "t" then tab
  else ch.

Definition _unescape_string (literal : string) : string := literal.

Fixpoint _consume_string_loop (fuel : nat) (start : Position.t) (chars : string)
    (self : t) : outcome (Token.t * t) :=
  match fuel with
  | O => OutOfFuel
  | S fuel =>
      if _eof self then Raise (ConfigSyntaxError "Unterminated string literal" (Some start))
      else
        let ch := _peek self in
        if Ascii.eqb ch dquote then
          Return (Token.mk "STRING" (_unescape_string chars) start, _advance self false)
        else if Ascii.eqb ch backslash then
          let self := _advance self false in
          if _eof self then
            Raise (ConfigSyntaxError "Unterminated escape sequence" (Some start))
          else
            _consume_string_loop fuel start
              (chars ++ String (_translate_escape (_peek self)) EmptyString)
              (_advance self false)
        else
          _consume_string_loop fuel start (chars ++ String ch EmptyString)
            (_advance self false)
  end.

Definition _consume_string (self : t) : outcome (Token.t * t) :=
  let start := _position self in
  _consume_string_loop (fuel_of self) start EmptyString (_advance self false).

Definition _consume_symbol (self : t) : Token.t * t :=
  let start := _position self in
  let char := String (_peek self) EmptyString in
  (Token.mk char char start, _advance self false).

(** [while not self._eof and p(self._peek()): literal.append(...); advance] *)
Fixpoint _consume_while (p : ascii -> bool) (fuel : nat) (literal : string) (self : t) :
    outcome (string * t) :=
  match fuel with
  | O => OutOfFuel
  | S fuel =>
      if negb (_eof self) && p (_peek self) then
        _consume_while p fuel (literal ++ String (_peek self) EmptyString)
          (_advance self false)
      else Return (literal, self)
  end.

Definition _consume_number (self : t) : outcome (Token.t * t) :=
  let start := _position self in
  let '(literal, self) :=
    if Ascii.eqb (_peek self) "-" then (String (_peek self) EmptyString, _advance self false)
    else (EmptyString, self) in
  '(literal, self) ← _consume_while isdigit (fuel_of self) literal self;
  if negb (_eof self) && Ascii.eqb (_peek self) "." then
    let literal := literal ++ "." in
    let self := _advance self false in
    if _eof self || negb (isdigit (_peek self)) then
      Raise (ConfigSyntaxError "Invalid number literal" (Some start))
    else
      '(literal, self) ← _consume_while isdigit (fuel_of self) literal self;
      Return (Token.mk "NUMBER" literal start, self)
  else Return (Token.mk "NUMBER" literal start, self).

Definition _consume_identifier (self : t) : outcome (Token.t * t) :=
  let start := _position self in
  '(literal, self) ←
    _consume_while (fun c => isalnum c || Ascii.eqb c "_") (fuel_of self) EmptyString self;
  Return (Token.mk "IDENT" literal start, self).

Fixpoint tokens_loop (fuel : nat) (self : t) (result : list Token.t) :
    outcome (list Token.t) :=
  match fuel with
  | O => OutOfFuel
  | S fuel =>
      if _eof self then Return result
      else
        let char := _peek self in
        if contains char (String " " (String tab (String cr EmptyString))) then
          tokens_loop fuel (_advance self false) result
        else if Ascii.eqb char newline then
          tokens_loop fuel (_advance self true) result
        else if Ascii.eqb char "#" then
          self ← _consume_comment self;
          tokens_loop fuel self result
        else if Ascii.eqb char dquote then
          '(tok, self) ← _consume_string self;
          tokens_loop fuel self (result ++ [tok])
        else if contains char SYMBOLS then
          let '(tok, self) := _consume_symbol self in
          tokens_loop fuel self (result ++ [tok])
        else if isdigit char || (Ascii.eqb char "-" && isdigit (_peek_next self)) then
          '(tok, self) ← _consume_number self;
          tokens_loop fuel self (result ++ [tok])
        else if isalpha char || Ascii.eqb char "_" then
          '(tok, self) ← _consume_identifier self;
          tokens_loop fuel self (result ++ [tok])
        else
          Raise (ConfigSyntaxError ("Unexpected character '" ++ String char "'")
                   (Some (_position self)))
  end.

Definition tokens (self : t) : outcome (list Token.t) :=
  tokens_loop (fuel_of self) self [].

End Tokenizer.

(** *** class _Parser

    The recursive descent is driven by fuel.  A call of [_parse_value]
    and the loop turn it starts consume at least one token between them, so
    two units of fuel for each token, and two more, are enough. *)

Module _Parser.

Record t : Type := mk { tokens : list Token.t; index : nat }.

Definition no_token : Token.t := Token.mk EmptyString EmptyString (Position.mk 0 0).

Definition _at_end (self : t) : bool := (length (tokens self) <=? index self)%nat.

(** [self.tokens[self.index]]; called only when [_at_end] is false. *)
Definition _peek (self : t) : Token.t := nth (index self) (tokens self) no_token.

(** [self.tokens[self.index - 1]]; called only after a token was consumed. *)
Definition _previous (self : t) : Token.t := nth (index self - 1) (tokens self) no_token.

Definition _check (self : t) (kind : string) : bool :=
  if _at_end self then false else String.eqb (Token.kind (_peek self)) kind.

Definition step (self : t) : t := mk (tokens self) (S (index self)).

Definition _match (self : t) (kind : string) : bool * t :=
  if _check self kind then (true, step self) else (false, self).

(** The position argument of the errors: that of the current token, or
    [None] at the end of the tokens. *)
Definition here (self : t) : option Position.t :=
  if _at_end self then None else Some (Token.position (_peek self)).

Definition _consume (self : t) (kind : string) : outcome (Token.t * t) :=
  if _check self kind then Return (_previous (step self), step self)
  else Raise (ConfigSyntaxError ("Expected token '" ++ kind ++ "'") (here self)).

Definition _consume_optional_separator (self : t) (stop_token : string) : t :=
  if _check self stop_token then self
  else snd (_match self ",").

(** [float(literal) if "." in literal else int(literal)] *)
Definition number_value (literal : string) : outcome Value :=
  if contains "." literal then
    match py_float literal with
    | Some f => Return (VFloat f)
    | None => Raise ValueError
    end
  else
    match py_int literal with
    | Some n => Return (VInt n)
    | None => Raise ValueError
    end.

(** The literal mapping of a bareword. *)
Definition ident_value (ident : string) : Value :=
  let lowered := lower ident in
  if String.eqb lowered "true" then VBool true
  else if String.eqb lowered "false" then VBool false
  else if String.eqb lowered "null" then VNone
  else VStr ident.

Fixpoint _parse_value (fuel : nat) (self : t) : outcome (Value * t) :=
  match fuel with
  | O => OutOfFuel
  | S fuel =>
      let '(m, self1) := _match self "STRING" in
      if m then Return (VStr (Token.value (_previous self1)), self1)
      else
        let '(m, self1) := _match self "NUMBER" in
        if m then
          v ← number_value (Token.value (_previous self1));
          Return (v, self1)
        else
          let '(m, self1) := _match self "IDENT" in
          if m then Return (ident_value (Token.value (_previous self1)), self1)
          else
            let '(m, self1) := _match self "{" in
            if m then
              '(data, self2) ← _parse_object fuel self1 [];
              Return (VDict data, self2)
            else
              let '(m, self1) := _match self "(" in
              if m then
                '(items, self2) ← _parse_list fuel self1 [];
                Return (VList items, self2)
              else Raise (ConfigSyntaxError "Unexpected token" (here self))
  end

with _parse_object (fuel : nat) (self : t) (data : dict) : outcome (dict * t) :=
  match fuel with
  | O => OutOfFuel
  | S fuel =>
      if negb (_check self "}") then
        '(key, self) ← _consume self "IDENT";
        '(_, self) ← _consume self "=";
        '(v, self) ← _parse_value fuel self;
        let data := dict_set data (Token.value key) v in
        let self := _consume_optional_separator self "}" in
        _parse_object fuel self data
      else
        '(_, self) ← _consume self "}";
        Return (data, self)
  end

with _parse_list (fuel : nat) (self : t) (items : list Value) : outcome (list Value * t) :=
  match fuel with
  | O => OutOfFuel
  | S fuel =>
      if negb (_check self ")") then
        '(v, self) ← _parse_value fuel self;
        let items := (items ++ [v])%list in
        let self := _consume_optional_separator self ")" in
        _parse_list fuel self items
      else
        '(_, self) ← _consume self ")";
        Return (items, self)
  end.

Fixpoint parse_loop (fuel : nat) (self : t) (config : dict) : outcome dict :=
  match fuel with
  | O => OutOfFuel
  | S fuel =>
      if negb (_at_end self) then
        '(key, self) ← _consume self "IDENT";
        '(_, self) ← _consume self "=";
        '(v, self) ← _parse_value fuel self;
        parse_loop fuel self (dict_set config (Token.value key) v)
      else Return config
  end.

Definition parse (self : t) : outcome dict :=
  parse_loop (2 * length (tokens self) + 2) self [].

End _Parser.

Definition parse_config (text : string) : outcome dict :=
  tokens ← Tokenizer.tokens (Tokenizer.init text);
  _Parser.parse (_Parser.mk tokens 0).

(** ** config_loader.py *)

Module config_loader.

(** What [Path(path).read_text(encoding="utf-8")] does: it returns the text
    of the file, raises [FileNotFoundError] when the path is not there, or
    raises another exception (the path is a directory, permission is
    denied, the bytes are not UTF-8, ...), given by the name of its
    class. *)
Inductive read : Type :=
  | Text (text : string)
  | NoSuchFile
  | Fails (name : string).

(** The file system, by path. *)
Definition files : Type := string -> read.

(** What [ConfigLoader(path).load()] does; [FileNotFoundError] is kept
    apart from the other exceptions because the command catches it. *)
Inductive loaded : Type :=
  | FileNotFoundError
  | Loaded (r : outcome dict).

Definition load (fs : files) (path : string) : loaded :=
  match fs path with
  | Text text => Loaded (parse_config text)
  | NoSuchFile => FileNotFoundError
  | Fails name => Loaded (Raise (ReadError name))
  end.

End config_loader.

(** ** cli.py

    [main] and [_build_parser] belong to [argparse]; the model starts from
    the parsed arguments.  What is printed is kept as the list of the lines
    written, each an f-string in pieces; the JSON document is kept as the
    payload handed to [json.dump]. *)

Module cli.
Import config_model base builtin.

(** The arguments of the [check] command. *)
Record Namespace : Type := {
  path : string;
  format : string;
  fail_fast : bool
}.

Inductive json : Type :=
  | JStr (s : list fpart)
  | JNull.

Inductive output : Type :=
  | Stdout (line : list fpart)
  | Stderr (line : list fpart)
  | JsonDump (payload : list (list (string * json))).

(** [Severity.value] *)
Definition value (s : Severity) : string :=
  match s with
  | ERROR => "error"
  | WARNING => "warning"
  | INFO => "info"
  end.

Definition upper_char (c : ascii) : ascii :=
  if between 97 122 c then ascii_of_N (code c - 32) else c.

(** [str.upper] *)
Fixpoint upper (s : string) : string :=
  match s with
  | EmptyString => EmptyString
  | String c r => String (upper_char c) (upper r)
  end.

(** [f.severity == Severity.ERROR] *)
Definition is_error (f : Finding) : bool :=
  match severity f with ERROR => true | _ => false end.

(** [str(exc)] for a [ConfigSyntaxError]. *)
Definition syntax_error_text (message : string) (position : option Position.t) :
  list fpart :=
  match position with
  | Some p =>
      [Lit message; Lit " at line "; Fmt (VInt (Z.of_nat (Position.line p)));
       Lit ", column "; Fmt (VInt (Z.of_nat (Position.column p)))]
  | None => [Lit message]
  end.

Definition _load_rules : list Rule := builtin_rules.

Definition _print_json (findings : list Finding) : list output :=
  [JsonDump (List.map (fun f =>
               [("rule", JStr [Lit (rule f)]);
                ("message", JStr (message f));
                ("severity", JStr [Lit (value (severity f))]);
                ("location", match location f with
                             | Some l => JStr [Lit l]
                             | None => JNull
                             end)])
             findings);
   Stdout []].

(** [f" ({finding.location})" if finding.location else ""] *)
Definition location_text (f : Finding) : list fpart :=
  match location f with
  | Some l => if nonempty l then [Lit " ("; Fmt (VStr l); Lit ")"] else []
  | None => []
  end.

Definition finding_line (f : Finding) : list fpart :=
  ([Lit "["; Fmt (VStr (upper (value (severity f)))); Lit "] "; Fmt (VStr (rule f));
    Lit ": "] ++ message f ++ location_text f)%list.

Definition _print_text (findings : list Finding) (path : string) (has_errors : bool) :
  list output :=
  match findings with
  | [] => [Stdout [Lit "OK: "; Fmt (VStr path); Lit " is valid"]]
  | _ =>
      let error_count := Z.of_nat (length (List.filter is_error findings)) in
      let warning_count := Z.of_nat (length findings) - error_count in
      (List.map (fun f => Stdout (finding_line f)) findings
       ++ [Stdout
             (if has_errors then
                [Lit "FAILED: "; Fmt (VInt error_count); Lit " error(s), ";
                 Fmt (VInt warning_count); Lit " warning(s)"]
              else
                [Lit "OK: "; Fmt (VStr path); Lit " is valid (warnings: ";
                 Fmt (VInt warning_count); Lit ")"])])%list
  end.

(** The [for] loop of [_handle_check] over what the generator yields: each
    finding is appended, and under --fail-fast an error breaks out of the
    loop.  The flag tells whether the loop went through all of it, that is,
    whether the generator was asked for what follows its last finding. *)
Fixpoint collect (fail_fast : bool) (yields : list Finding) : list Finding * bool :=
  match yields with
  | [] => ([], true)
  | finding :: rest =>
      if fail_fast && is_error finding then ([finding], false)
      else
        let '(findings, exhausted) := collect fail_fast rest in
        (finding :: findings, exhausted)
  end.

(** [_handle_check]: what is printed, and the exit code or the exception
    that is not caught. *)
Definition _handle_check (fs : config_loader.files) (args : Namespace) :
  list output * outcome Z :=
  match config_loader.load fs (path args) with
  | config_loader.FileNotFoundError =>
      ([Stderr [Lit "File not found: "; Fmt (VStr (path args))]], Return 2)
  | config_loader.Loaded (Raise (ConfigSyntaxError message position)) =>
      ([Stderr (Lit "Syntax error: " :: syntax_error_text message position)], Return 2)
  | config_loader.Loaded (Raise e) => ([], Raise e)
  | config_loader.Loaded OutOfFuel => ([], OutOfFuel)
  | config_loader.Loaded (Return raw) =>
      let config := {| raw := raw |} in
      let engine := {| rules := _load_rules |} in
      let g := run engine config in
      let '(findings, exhausted) := collect (fail_fast args) (yielded g) in
      match (if exhausted then raised g else None) with
      | Some e => ([], Raise e)
      | None =>
          let has_errors := existsb is_error findings in
          (if String.eqb (format args) "json" then _print_json findings
           else _print_text findings (path args) has_errors,
           Return (if negb has_errors then 0 else 2))
      end
  end.

Definition _handle_list_rules : list output * outcome Z :=
  (List.map (fun r => Stdout [Fmt (VStr (slug r)); Lit ": "; Fmt (VStr (description r))])
     _load_rules,
   Return 0).

End cli.

(** * Notions used in the statements *)

Import config_model base builtin.

(** Every character of [s] satisfies [p]. *)
Definition all_of (p : ascii -> bool) (s : string) : Prop :=
  forall c, contains c s = true -> p c = true.

(** [s.isascii()]: the strings the embedding stands for, see the
    conventions. *)
Fixpoint isascii (s : string) : bool :=
  match s with
  | EmptyString => true
  | String c r => (code c <? 128)%N && isascii r
  end.

(** [s * n] *)
Fixpoint times (s : string) (n : nat) : string :=
  match n with
  | O => EmptyString
  | S n' => s ++ times s n'
  end.

(** What may follow a digit inside a digit part: nothing, a digit, or one
    underscore and a digit. *)
Inductive digit_tail : string -> Prop :=
  | dt_nil : digit_tail EmptyString
  | dt_digit c r : isdigit c = true -> digit_tail r -> digit_tail (String c r)
  | dt_us c r : isdigit c = true -> digit_tail r -> digit_tail (String "_" (String c r)).

(** Decimal digits, with single underscores allowed between two digits. *)
Definition digit_group (body : string) : Prop :=
  exists c r, body = String c r /\ isdigit c = true /\ digit_tail r.

(** The integer a digit group spells, underscores ignored. *)
Fixpoint decimal (acc : Z) (s : string) : Z :=
  match s with
  | EmptyString => acc
  | String c r => if Ascii.eqb c "_" then decimal acc r else decimal (10 * acc + digit_value c) r
  end.

(** The number of decimal digits in [s]. *)
Fixpoint digits (s : string) : nat :=
  match s with
  | EmptyString => 0%nat
  | String c r => if isdigit c then S (digits r) else digits r
  end.

(** [s] spells [n] for [int]: whitespace, an optional sign, a digit group of
    at most [int_max_str_digits] digits, whitespace. *)
Definition int_spelling (s : string) (n : Z) : Prop :=
  exists l sgn body r,
    s = l ++ sgn ++ body ++ r /\ all_of c_isspace l /\ all_of c_isspace r /\
    digit_group body /\ (digits body <= int_max_str_digits)%nat /\
    ((sgn = EmptyString \/ sgn = "+") /\ n = decimal 0 body \/
     sgn = "-" /\ n = - decimal 0 body).

Fixpoint all_digits (s : string) : bool :=
  match s with
  | EmptyString => true
  | String c r => isdigit c && all_digits r
  end.

(** Fully numeric: an optional leading minus, then decimal digits only. *)
Definition fully_numeric (s : string) : bool :=
  match s with
  | String c r =>
      if Ascii.eqb c "-" then nonempty r && all_digits r else all_digits s
  | EmptyString => false
  end.

(** The integer a fully numeric string spells. *)
Definition spelled (s : string) : Z :=
  match s with
  | String c r => if Ascii.eqb c "-" then - decimal 0 r else decimal 0 s
  | EmptyString => 0
  end.

(** [literal] is [word], a word of lower-case letters, written in any mix
    of cases: character by character it is the word's letter or that
    letter's capital, whose code is 32 less. *)
Fixpoint spells (word literal : string) : bool :=
  match word, literal with
  | EmptyString, EmptyString => true
  | String w word', String c literal' =>
      (Ascii.eqb c w || Ascii.eqb c (ascii_of_N (code w - 32))) && spells word' literal'
  | _, _ => false
  end.

(** The value a bareword stands for: the three keywords in any mix of
    cases, and otherwise the bareword's own text. *)
Definition bareword (literal : string) : Value :=
  if spells "true" literal then VBool true
  else if spells "false" literal then VBool false
  else if spells "null" literal then VNone
  else VStr literal.

(** A bareword starts with a letter or an underscore. *)
Definition identifier_start (s : string) : bool :=
  match s with
  | String c _ => isalpha c || Ascii.eqb c "_"
  | EmptyString => false
  end.

(** [rest] is empty or starts with a character that fails [p]. *)
Definition stops (p : ascii -> bool) (rest : string) : Prop :=
  match rest with
  | String c _ => p c = false
  | EmptyString => True
  end.



(** The position the data model gives the character at index [i] of a
    text: lines and columns count from 1, a newline ends its line. *)
Fixpoint position_after (line column : nat) (s : string) (i : nat) : Position.t :=
  match i, s with
  | S i', String c r =>
      if Ascii.eqb c newline then position_after (S line) 1 r i'
      else position_after line (S column) r i'
  | _, _ => Position.mk line column
  end.

Definition position_at (text : string) (i : nat) : Position.t :=
  position_after 1 1 text i.

(** A text of four characters: a string literal that holds one newline,
    then the bareword [x]. *)
Definition newline_in_string : string :=
  String dquote (String newline (String dquote "x")).

Definition ident_token (literal : string) (pos : Position.t) : Token.t :=
  Token.mk "IDENT" literal pos.

(** A text of four characters: a string literal that holds one newline,
    then a space. *)
Definition newline_in_string_prefix : string :=
  String dquote (String newline (String dquote " ")).

Definition engine : RuleEngine := {| rules := builtin_rules |}.

(** The root object of the minimal valid fixture; the listener string and
    the value of [max_connections] are left open. *)
Definition minimal_root (ifaces : string) (max_connections : Value) : dict :=
  [("datadir", VStr "/var/lib/proxysql");
   ("admin_variables",
    VDict [("admin_credentials", VStr "admin:admin"); ("mysql_ifaces", VStr ifaces)]);
   ("mysql_variables", VDict []);
   ("mysql_servers",
    VList [VDict [("address", VStr "127.0.0.1"); ("port", VInt 3306);
                  ("hostgroup", VInt 0); ("max_connections", max_connections)]])].

(** A text of the fixture. *)
Definition minimal_text : string :=
  "datadir=" ++ String dquote "/var/lib/proxysql" ++ String dquote (String newline
  "admin_variables={admin_credentials=") ++ String dquote "admin:admin" ++ String dquote
  " mysql_ifaces=" ++ String dquote "0.0.0.0:6033" ++ String dquote ("}" ++ String newline
  "mysql_variables={}" ++ String newline
  "mysql_servers=({address=") ++ String dquote "127.0.0.1" ++ String dquote
  " port=3306 hostgroup=0 max_connections=100})".

(** The minimal fixture with the server's address written as a list. *)
Definition list_address_root : dict :=
  [("datadir", VStr "/var/lib/proxysql");
   ("admin_variables",
    VDict [("admin_credentials", VStr "admin:admin"); ("mysql_ifaces", VStr "0.0.0.0:6033")]);
   ("mysql_variables", VDict []);
   ("mysql_servers",
    VList [VDict [("address", VList [VStr "127.0.0.1"]); ("port", VInt 3306);
                  ("hostgroup", VInt 0); ("max_connections", VInt 100)]])].

Definition list_address_text : string :=
  "datadir=" ++ String dquote "/var/lib/proxysql" ++ String dquote (String newline
  "admin_variables={admin_credentials=") ++ String dquote "admin:admin" ++ String dquote
  " mysql_ifaces=" ++ String dquote "0.0.0.0:6033" ++ String dquote ("}" ++ String newline
  "mysql_variables={}" ++ String newline
  "mysql_servers=({address=(") ++ String dquote "127.0.0.1" ++ String dquote
  ") port=3306 hostgroup=0 max_connections=100})".

(** The address of an entry, as the duplicate key holds it, can be hashed. *)
Definition hashable_entry (v : Value) : bool :=
  match v with
  | VDict d => hashable (py_or (dict_get d "address") (VStr ""))
  | _ => true
  end.

Definition server (address : string) (port hostgroup : Z) : Value :=
  VDict [("address", VStr address); ("port", VInt port); ("hostgroup", VInt hostgroup);
         ("max_connections", VInt 10)].

Definition colliding_servers : Config :=
  {| raw := [("mysql_servers", VList [server "10.0.0.1" 3306 0; server "10.0.0.1" 3306 (-1)])] |}.

(** The duplicate-id error of the mysql_query_rules rule. *)
Definition is_duplicate_id (f : Finding) : bool :=
  match message f with
  | [Lit a; Fmt (VInt _); Lit b] =>
      String.eqb a "Duplicate rule_id " && String.eqb b " in mysql_query_rules"
  | _ => false
  end.

(** The rule ids of the object entries whose [rule_id] coerces, in order. *)
Fixpoint rule_ids (rules : list Value) : list Z :=
  match rules with
  | [] => []
  | VDict d :: r =>
      match builtin._coerce_int (dict_get d "rule_id") with
      | Some id => id :: rule_ids r
      | None => rule_ids r
      end
  | _ :: r => rule_ids r
  end.

(** The ids that equal an earlier one, in order: each id of [ids] found in
    [earlier] or among the ids before it. *)
Fixpoint repeats (earlier ids : list Z) : list Z :=
  match ids with
  | [] => []
  | x :: r => (if existsb (Z.eqb x) earlier then [x] else []) ++ repeats (x :: earlier) r
  end.

(** Two query rules that share [rule_id] 1 and define no [match_pattern]. *)
Definition shared_rule_id : Config :=
  {| raw := [("mysql_query_rules",
              VList [VDict [("rule_id", VInt 1)]; VDict [("rule_id", VInt 1)]])] |}.

(** A parser that has read [pre] and has [rest] before it. *)
Definition reading (pre rest : list Token.t) : _Parser.t :=
  _Parser.mk (pre ++ rest) (length pre).

(** The derivations of the grammar of values, each token with its
    position; [sep] is the position of the comma after a member or an
    element, when one is written. *)
Inductive tree : Type :=
  | TString (pos : Position.t) (literal : string)
  | TNumber (pos : Position.t) (literal : string)
  | TIdent (pos : Position.t) (literal : string)
  | TObject (opening : Position.t) (ms : members) (closing : Position.t)
  | TList (opening : Position.t) (es : elements) (closing : Position.t)
with members : Type :=
  | MNil
  | MCons (key_pos : Position.t) (key : string) (eq_pos : Position.t) (v : tree)
      (sep : option Position.t) (rest : members)
with elements : Type :=
  | ENil
  | ECons (v : tree) (sep : option Position.t) (rest : elements).

Scheme tree_mut := Induction for tree Sort Prop
  with members_mut := Induction for members Sort Prop
  with elements_mut := Induction for elements Sort Prop.
Combined Scheme tree_members_elements_ind from tree_mut, members_mut, elements_mut.

Definition symbol (s : string) (pos : Position.t) : Token.t := Token.mk s s pos.

Definition render_sep (sep : option Position.t) : list Token.t :=
  match sep with
  | Some pos => [symbol "," pos]
  | None => []
  end.

(** The tokens of a derivation. *)
Fixpoint render (t : tree) : list Token.t :=
  match t with
  | TString pos literal => [Token.mk "STRING" literal pos]
  | TNumber pos literal => [Token.mk "NUMBER" literal pos]
  | TIdent pos literal => [Token.mk "IDENT" literal pos]
  | TObject opening ms closing =>
      symbol "{" opening :: render_members ms ++ [symbol "}" closing]
  | TList opening es closing =>
      symbol "(" opening :: render_elements es ++ [symbol ")" closing]
  end
with render_members (ms : members) : list Token.t :=
  match ms with
  | MNil => []
  | MCons key_pos key eq_pos v sep rest =>
      Token.mk "IDENT" key key_pos :: symbol "=" eq_pos
      :: render v ++ render_sep sep ++ render_members rest
  end
with render_elements (es : elements) : list Token.t :=
  match es with
  | ENil => []
  | ECons v sep rest => render v ++ render_sep sep ++ render_elements rest
  end.

(** The value of a derivation; it looks at no separator and at no
    position. *)
Fixpoint denote (t : tree) : outcome Value :=
  match t with
  | TString _ literal => Return (VStr literal)
  | TNumber _ literal => _Parser.number_value literal
  | TIdent _ literal => Return (_Parser.ident_value literal)
  | TObject _ ms _ => d ← denote_members ms []; Return (VDict d)
  | TList _ es _ => l ← denote_elements es []; Return (VList l)
  end
with denote_members (ms : members) (data : dict) : outcome dict :=
  match ms with
  | MNil => Return data
  | MCons _ key _ v _ rest => x ← denote v; denote_members rest (dict_set data key x)
  end
with denote_elements (es : elements) (items : list Value) : outcome (list Value) :=
  match es with
  | ENil => Return items
  | ECons v _ rest => x ← denote v; denote_elements rest (items ++ [x])
  end.

(** The same derivation with every separator taken out. *)
Fixpoint no_separators (t : tree) : tree :=
  match t with
  | TObject opening ms closing => TObject opening (no_separators_members ms) closing
  | TList opening es closing => TList opening (no_separators_elements es) closing
  | _ => t
  end
with no_separators_members (ms : members) : members :=
  match ms with
  | MNil => MNil
  | MCons key_pos key eq_pos v _ rest =>
      MCons key_pos key eq_pos (no_separators v) None (no_separators_members rest)
  end
with no_separators_elements (es : elements) : elements :=
  match es with
  | ENil => ENil
  | ECons v _ rest => ECons (no_separators v) None (no_separators_elements rest)
  end.

(** A value starts with a token that is neither a comma nor a closing
    bracket. *)
Definition starts_value (tok : Token.t) : Prop :=
  String.eqb (Token.kind tok) "," = false /\
  String.eqb (Token.kind tok) "}" = false /\
  String.eqb (Token.kind tok) ")" = false.

(** A config of one assignment whose value is a derivation. *)
Definition assignment (key_pos : Position.t) (key : string) (eq_pos : Position.t) (t : tree) :
  list Token.t :=
  Token.mk "IDENT" key key_pos :: symbol "=" eq_pos :: render t.

(** The object of the claim, with and without its comma, as derivations:
    the tokenizer gives exactly their tokens. *)
Definition object_a1_b2 (sep : option Position.t) (b_col : nat) : tree :=
  TObject (Position.mk 1 1)
    (MCons (Position.mk 1 2) "a" (Position.mk 1 3) (TNumber (Position.mk 1 4) "1") sep
       (MCons (Position.mk 1 b_col) "b" (Position.mk 1 (b_col + 1))
          (TNumber (Position.mk 1 (b_col + 2)) "2") None MNil))
    (Position.mk 1 (b_col + 3)).

(** The number of characters the tokenizer has not consumed. *)
Definition unread (self : Tokenizer.t) : nat := String.length (Tokenizer.text self).

(** The number of tokens the parser has not consumed. *)
Definition remaining (self : _Parser.t) : nat :=
  (length (_Parser.tokens self) - _Parser.index self)%nat.

(** [self'] reads the same tokens as [self], further on. *)
Definition further (self self' : _Parser.t) : Prop :=
  _Parser.tokens self' = _Parser.tokens self /\ (remaining self' < remaining self)%nat.

(** [self'] reads the same tokens as [self], at the same place or further
    on. *)
Definition not_before (self self' : _Parser.t) : Prop :=
  _Parser.tokens self' = _Parser.tokens self /\ (remaining self' <= remaining self)%nat.

(** ** Notions of the further properties *)

(** An object entry of mysql_servers at which the rule raises: its address
    is a non-empty list or object, and its port and hostgroup both coerce. *)
Definition raising_entry (v : Value) : bool :=
  match v with
  | VDict d =>
      negb (hashable (dict_get d "address")) && truthy (dict_get d "address")
      && match builtin._coerce_int (dict_get d "port") with Some _ => true | None => false end
      && match builtin._coerce_int (dict_get d "hostgroup") with Some _ => true | None => false end
  | _ => false
  end.

(** The finding is attributed to the rule [name] and has no location. *)
Definition attributed (name : string) (f : Finding) : Prop :=
  rule f = name /\ location f = None.

(** A well-formed entry of mysql_servers, with what identifies it: an
    object with a non-empty string address, a port that coerces into
    1..65535, a hostgroup that coerces to a non-negative integer, and
    max_connections set. *)
Definition well_formed_server (v : Value) : option (string * Z * Z) :=
  match v with
  | VDict d =>
      match dict_get d "address", builtin._coerce_int (dict_get d "port"),
            builtin._coerce_int (dict_get d "hostgroup") with
      | VStr a, Some p, Some h =>
          if nonempty a && ((0 <? p) && (p <? 65536)) && (0 <=? h)
             && negb (is_none (dict_get d "max_connections"))
          then Some (a, p, h) else None
      | _, _, _ => None
      end
  | _ => None
  end.

(** The key of the duplicate check for a server given by address, port and
    hostgroup. *)
Definition triple_key (t : string * Z * Z) : Value * Z * Z :=
  let '(a, p, h) := t in server_key (VStr a) (Some p) (Some h).

(** A positive port and a non-negative hostgroup: on these the key tells
    two servers apart exactly when they differ. *)
Definition valid_triple (t : string * Z * Z) : Prop :=
  let '(a, p, h) := t in 0 < p /\ 0 <= h.

(** A user entry the mysql_users rule has nothing to say about: an object
    with a non-empty string username and password whose default_hostgroup
    coerces to a declared hostgroup, or to any integer when no hostgroup is
    declared. *)
Definition user_ok (hostgroups : gset Z) (v : Value) : bool :=
  match v with
  | VDict d =>
      str_and nonempty (dict_get d "username")
      && str_and nonempty (dict_get d "password")
      && match builtin._coerce_int (dict_get d "default_hostgroup") with
         | Some hg => negb (set_nonempty hostgroups) || bool_decide (hg ∈ hostgroups)
         | None => false
         end
  | _ => false
  end.

(** A query rule the mysql_query_rules rule has nothing to say about but,
    possibly, that its id is repeated, with that id: an object whose
    rule_id coerces, whose destination_hostgroup, if it coerces, is a
    declared hostgroup or any integer when none is declared, and whose
    match_pattern is truthy. *)
Definition query_rule_ok (hostgroups : gset Z) (v : Value) : option Z :=
  match v with
  | VDict d =>
      match builtin._coerce_int (dict_get d "rule_id") with
      | Some rule_id =>
          if match builtin._coerce_int (dict_get d "destination_hostgroup") with
             | Some dest => negb (set_nonempty hostgroups) || bool_decide (dest ∈ hostgroups)
             | None => true
             end
             && truthy (dict_get d "match_pattern")
          then Some rule_id else None
      | None => None
      end
  | _ => None
  end.

(** A sign as [_consume_number] reads it: a minus or nothing. *)
Definition minus (neg : bool) : string := if neg then "-" else EmptyString.

(** The exception is a [ConfigSyntaxError]. *)
Definition is_syntax_error (e : exn) : Prop :=
  exists message position, e = ConfigSyntaxError message position.

(** The literal of a number: an optional minus and digits, then optionally
    a point and digits. *)
Definition number_literal (literal : string) : Prop :=
  exists neg ds, ds <> EmptyString /\ all_digits ds = true /\
    (literal = (minus neg ++ ds)%string \/
     exists fs, fs <> EmptyString /\ all_digits fs = true /\
                literal = (minus neg ++ ds ++ "." ++ fs)%string).

(** A literal without a point that has more digits than [int] converts. *)
Definition too_long (literal : string) : Prop :=
  contains "." literal = false /\ (int_max_str_digits < digits literal)%nat.

(** A NUMBER token holds the literal of a number. *)
Definition number_shaped (tok : Token.t) : Prop :=
  Token.kind tok = "NUMBER" -> number_literal (Token.value tok).

(** What the parser may raise over the tokens [toks]: a syntax error, or
    the [ValueError] of [int] at a NUMBER token that is too long for it. *)
Definition parser_raises (toks : list Token.t) (e : exn) : Prop :=
  is_syntax_error e \/
  (e = ValueError /\
   exists tok, In tok toks /\ Token.kind tok = "NUMBER" /\ too_long (Token.value tok)).

(** The deepest nesting of the brackets in [toks], read from [depth] open
    brackets on. *)
Fixpoint nesting (toks : list Token.t) (depth : nat) : nat :=
  match toks with
  | [] => depth
  | tok :: rest =>
      if String.eqb (Token.kind tok) "{" || String.eqb (Token.kind tok) "(" then
        Nat.max depth (nesting rest (S depth))
      else if String.eqb (Token.kind tok) "}" || String.eqb (Token.kind tok) ")" then
        Nat.max depth (nesting rest (Nat.pred depth))
      else nesting rest depth
  end.

(** The brackets of [text] nest at most 100 deep.  The parser descends two
    calls for each open bracket, so such a text stays well inside CPython's
    limit of 1000 nested calls, which the embedding does not model. *)
Definition shallow (text : string) : Prop :=
  forall toks,
    Tokenizer.tokens (Tokenizer.init text) = Return toks -> (nesting toks 0 <= 100)%nat.

(** The tokens of a config: assignments one after the other, with nothing
    between them.  The separators inside the values stay; the [sep] of a
    top-level member is not written. *)
Fixpoint assignments (ms : members) : list Token.t :=
  match ms with
  | MNil => []
  | MCons key_pos key eq_pos v _ rest =>
      Token.mk "IDENT" key key_pos :: symbol "=" eq_pos :: render v ++ assignments rest
  end.

(** The number of members. *)
Fixpoint count (ms : members) : nat :=
  match ms with
  | MNil => 0
  | MCons _ _ _ _ _ rest => S (count rest)
  end.

(** The keys of the members, in order, with their repetitions. *)
Fixpoint keys (ms : members) : list string :=
  match ms with
  | MNil => []
  | MCons _ key _ _ _ rest => key :: keys rest
  end.

(** The members [ms] followed by the members [ms']. *)
Fixpoint followed_by (ms ms' : members) : members :=
  match ms with
  | MNil => ms'
  | MCons key_pos key eq_pos v sep rest =>
      MCons key_pos key eq_pos v sep (followed_by rest ms')
  end.

(** A string written as the body of a literal: a double quote and a
    backslash are escaped, a newline and a tab are written [\n] and [\t]. *)
Fixpoint escaped (s : string) : string :=
  match s with
  | EmptyString => EmptyString
  | String c r =>
      (if Ascii.eqb c dquote then String backslash (String dquote EmptyString)
       else if Ascii.eqb c backslash then String backslash (String backslash EmptyString)
       else if Ascii.eqb c newline then String backslash "n"
       else if Ascii.eqb c tab then String backslash "t"
       else String c EmptyString) ++ escaped r
  end.

(** The literal of [s]: its escaped body between double quotes. *)
Definition quoted (s : string) : string :=
  String dquote (escaped s ++ String dquote EmptyString).

(** The token stands in [text] where its position says: its literal is
    read at some index, and its position is the line and the column of that
    index. *)
Definition located (text : string) (tok : Token.t) : Prop :=
  exists pre post,
    text = (pre ++ Token.value tok ++ post)%string
    /\ Token.position tok = position_at text (String.length pre).

(** The tokenizer has read [pre], has the rest of [text] before it, and its
    line and column are those of the next character. *)
Definition at_position (text : string) (self : Tokenizer.t) : Prop :=
  exists pre,
    text = (pre ++ Tokenizer.text self)%string
    /\ Tokenizer._position self = position_at text (String.length pre).

(** [self'] is further on than [self] by the characters [consumed], with its
    position right. *)
Definition moved (text : string) (self self' : Tokenizer.t) (consumed : string) : Prop :=
  at_position text self'
  /\ Tokenizer.text self = (consumed ++ Tokenizer.text self')%string.

(** [self] with [suffix] appended to its text. *)
Definition extended (self : Tokenizer.t) (suffix : string) : Tokenizer.t :=
  Tokenizer.mk (Tokenizer.text self ++ suffix) (Tokenizer.index self)
    (Tokenizer.line self) (Tokenizer.column self).

(** The characters that end a number or a bareword and begin no token:
    blanks, the newline and the symbols. *)
Definition separator (c : ascii) : bool :=
  contains c (String " " (String tab (String cr EmptyString)))
  || Ascii.eqb c newline || contains c Tokenizer.SYMBOLS.

(** [s] ends with the character [b]. *)
Definition ends_with (b : ascii) (s : string) : Prop :=
  exists x, s = (x ++ String b EmptyString)%string.

(** After [pre] the tokenizer starts anew: [pre] is empty, or it ends with
    a newline, or it ends with a blank or a symbol and holds no [#]. *)
Definition ends_clean (pre : string) : Prop :=
  pre = EmptyString \/
  exists b, ends_with b pre /\ separator b = true /\
            (b = newline \/ contains "#" pre = false).

(** How the body of a string literal ends, read from behind the opening
    quote: a backslash takes the next character with it, and the first
    double quote not taken so closes the literal. *)
Inductive ending : Type := Closed | Unclosed | OpenEscape.

Fixpoint string_end (body : string) : ending :=
  match body with
  | EmptyString => Unclosed
  | String c r =>
      if Ascii.eqb c dquote then Closed
      else if Ascii.eqb c backslash then
        match r with
        | EmptyString => OpenEscape
        | String _ r' => string_end r'
        end
      else string_end r
  end.

(** * Properties *)

#[local] Arguments String.append !s1 s2 : simpl nomatch.

(** ** Character facts *)

(** A property of one character, decided on each of the 256 codes. *)
Ltac each_char c :=
  destruct c as [[] [] [] [] [] [] [] []]; vm_compute; try tauto; try congruence; auto.

Lemma digit_not_space c : isdigit c = true -> c_isspace c = false.
Proof. each_char c. Qed.

Lemma digit_not_sign c :
  isdigit c = true ->
  Ascii.eqb c "-" = false /\ Ascii.eqb c "+" = false /\ Ascii.eqb c "_" = false.
Proof. each_char c. Qed.

Lemma ident_start_not_int c :
  isalpha c || Ascii.eqb c "_" = true ->
  c_isspace c = false /\ isdigit c = false /\
  Ascii.eqb c "-" = false /\ Ascii.eqb c "+" = false.
Proof. each_char c. Qed.

Lemma digit_starts_number c :
  isdigit c = true ->
  contains c (String " " (String tab (String cr EmptyString))) = false /\
  Ascii.eqb c newline = false /\ Ascii.eqb c "#" = false /\
  Ascii.eqb c dquote = false /\ contains c Tokenizer.SYMBOLS = false /\
  Ascii.eqb c "-" = false /\ Ascii.eqb c "." = false.
Proof. each_char c. Qed.

(** ** Stripping *)

Lemma all_of_nil p : all_of p EmptyString.
Proof. intros c H. discriminate. Qed.

Lemma all_of_cons p c s : all_of p (String c s) <-> p c = true /\ all_of p s.
Proof.
  unfold all_of. split.
  - intros H. split.
    + apply H. simpl. now rewrite Ascii.eqb_refl.
    + intros d Hd. apply H. simpl. rewrite Hd. apply orb_true_r.
  - intros [Hc Hs] d Hd. simpl in Hd. apply orb_true_iff in Hd as [Hd | Hd].
    + apply Ascii.eqb_eq in Hd. now subst.
    + now apply Hs.
Qed.

Lemma lstrip_split sp s : exists l, s = l ++ lstrip_by sp s /\ all_of sp l.
Proof.
  induction s as [| c s IH]; simpl.
  - exists EmptyString. split; [reflexivity | apply all_of_nil].
  - destruct (sp c) eqn:Hc.
    + destruct IH as (l & Hl & Hsp). exists (String c l). split.
      * simpl. f_equal. exact Hl.
      * now apply all_of_cons.
    + exists EmptyString. split; [reflexivity | apply all_of_nil].
Qed.

Lemma rstrip_split sp s : exists r, s = rstrip_by sp s ++ r /\ all_of sp r.
Proof.
  induction s as [| c s IH]; simpl.
  - exists EmptyString. split; [reflexivity | apply all_of_nil].
  - destruct IH as (r & Hr & Hsp). destruct (rstrip_by sp s) as [| d t] eqn:Hs.
    + simpl in Hr. subst r. destruct (sp c) eqn:Hc.
      * exists (String c s). split; [reflexivity | now apply all_of_cons].
      * exists s. now split.
    + exists r. split; [| assumption]. simpl. f_equal. exact Hr.
Qed.

Lemma lstrip_app sp l x : all_of sp l -> lstrip_by sp (l ++ x) = lstrip_by sp x.
Proof.
  induction l as [| c l IH]; intros H; simpl; [reflexivity |].
  apply all_of_cons in H as [Hc Hl]. rewrite Hc. now apply IH.
Qed.

Lemma rstrip_all sp r : all_of sp r -> rstrip_by sp r = EmptyString.
Proof.
  induction r as [| c r IH]; intros H; simpl; [reflexivity |].
  apply all_of_cons in H as [Hc Hr]. now rewrite IH, Hc.
Qed.

Lemma rstrip_app sp x r : all_of sp r -> rstrip_by sp (x ++ r) = rstrip_by sp x.
Proof.
  intros H. induction x as [| c x IH]; simpl.
  - now apply rstrip_all.
  - now rewrite IH.
Qed.

(** ** The spellings [int(str)] accepts *)

Lemma digit_run_sound m :
  forall s acc n v k,
    (String.length s <= m)%nat ->
    digit_run s acc n = (v, k, EmptyString) ->
    digit_tail s /\ v = decimal acc s /\ k = (n + digits s)%nat.
Proof.
  induction m as [| m IH]; intros s acc n v k Hlen Hrun.
  - destruct s; simpl in Hlen; [| lia]. simpl in Hrun. inversion Hrun.
    repeat split; [constructor | simpl; lia].
  - destruct s as [| c r]; simpl in *.
    + inversion Hrun. repeat split; [constructor | lia].
    + destruct (isdigit c) eqn:Hc.
      * destruct (digit_not_sign c Hc) as (_ & _ & Hus). rewrite Hus.
        apply IH in Hrun as (Ht & Hv & Hk); [| lia].
        repeat split; [now constructor | assumption | lia].
      * destruct (Ascii.eqb c "_") eqn:Hus; [| discriminate].
        apply Ascii.eqb_eq in Hus. subst c.
        destruct r as [| d r']; [discriminate |].
        destruct (isdigit d) eqn:Hd; [| discriminate].
        destruct (digit_not_sign d Hd) as (_ & _ & Hdus).
        simpl in Hlen. apply IH in Hrun as (Ht & Hv & Hk); [| lia].
        repeat split; [now constructor | simpl; now rewrite Hdus |].
        simpl. rewrite Hd. lia.
Qed.

Lemma digit_run_complete s :
  digit_tail s ->
  forall acc n, digit_run s acc n = (decimal acc s, (n + digits s)%nat, EmptyString).
Proof.
  induction 1 as [| c r Hc _ IH | c r Hc _ IH]; intros acc n; simpl.
  - now rewrite Nat.add_0_r.
  - rewrite Hc. destruct (digit_not_sign c Hc) as (_ & _ & Hus). rewrite Hus, IH.
    now rewrite Nat.add_succ_r.
  - rewrite Hc. destruct (digit_not_sign c Hc) as (_ & _ & Hus). rewrite Hus, IH.
    now rewrite Nat.add_succ_r.
Qed.

Lemma digitpart_iff body v k :
  digitpart body 0 0 = Some (v, k, EmptyString) <->
  digit_group body /\ v = decimal 0 body /\ k = digits body.
Proof.
  split.
  - intros H. destruct body as [| c r]; [discriminate |]. simpl in H.
    destruct (isdigit c) eqn:Hc; [| discriminate]. inversion H as [Hrun].
    apply (digit_run_sound (String.length r)) in Hrun as (Ht & Hv & Hk); [| lia].
    destruct (digit_not_sign c Hc) as (_ & _ & Hus).
    repeat split; [now exists c, r | simpl; now rewrite Hus |].
    simpl. now rewrite Hc.
  - intros ((c & r & -> & Hc & Ht) & -> & ->). simpl. rewrite Hc.
    destruct (digit_not_sign c Hc) as (_ & _ & Hus). rewrite Hus.
    now rewrite (digit_run_complete r Ht).
Qed.

Lemma rstrip_digit_tail sp c r :
  sp c = false -> (forall d, isdigit d = true -> sp d = false) ->
  digit_tail r -> rstrip_by sp (String c r) = String c r.
Proof.
  intros Hc Hsp Ht. revert c Hc.
  induction Ht as [| d r Hd _ IH | d r Hd _ IH]; intros c Hc.
  - simpl. now rewrite Hc.
  - change (rstrip_by sp (String c (String d r)))
      with (match rstrip_by sp (String d r) with
            | EmptyString => if sp c then EmptyString else String c EmptyString
            | r' => String c r'
            end).
    now rewrite (IH d (Hsp d Hd)).
  - change (rstrip_by sp (String c (String "_" (String d r))))
      with (match rstrip_by sp (String "_" (String d r)) with
            | EmptyString => if sp c then EmptyString else String c EmptyString
            | r' => String c r'
            end).
    change (rstrip_by sp (String "_" (String d r)))
      with (match rstrip_by sp (String d r) with
            | EmptyString => if sp "_"%char then EmptyString else String "_" EmptyString
            | r' => String "_" r'
            end).
    now rewrite (IH d (Hsp d Hd)).
Qed.

Lemma append_assoc3 (a b c : string) : (a ++ b) ++ c = a ++ b ++ c.
Proof. induction a as [| x a IH]; simpl; [reflexivity | now rewrite IH]. Qed.

Lemma read_sign_split t neg body :
  read_sign t = (neg, body) ->
  exists sgn, t = sgn ++ body /\
    (neg = false /\ (sgn = EmptyString \/ sgn = "+") \/ neg = true /\ sgn = "-").
Proof.
  destruct t as [| c t']; simpl.
  - intros [= <- <-]. exists EmptyString. auto.
  - destruct (Ascii.eqb c "-") eqn:Hm.
    + apply Ascii.eqb_eq in Hm. subst c. intros [= <- <-]. exists "-". auto.
    + destruct (Ascii.eqb c "+") eqn:Hp.
      * apply Ascii.eqb_eq in Hp. subst c. intros [= <- <-]. exists "+". auto.
      * intros [= <- <-]. exists EmptyString. auto.
Qed.

(** What [py_int] does with the text between the whitespace: a sign and a
    digit group, converted when the group has at most [int_max_str_digits]
    digits. *)
Lemma py_int_iff s n : py_int s = Some n <-> int_spelling s n.
Proof.
  unfold py_int, int_spelling. split.
  - destruct (lstrip_split c_isspace s) as (l & Hl & Hls).
    destruct (rstrip_split c_isspace (lstrip_by c_isspace s)) as (r & Hr & Hrs).
    set (t := rstrip_by c_isspace (lstrip_by c_isspace s)) in *.
    destruct (read_sign t) as [neg body] eqn:Hsign.
    destruct (digitpart body 0 0) as [[[v k] rest] |] eqn:Hd; [| discriminate].
    destruct rest; [| discriminate].
    destruct (k <=? int_max_str_digits)%nat eqn:Hlim; [| discriminate].
    intros [= <-].
    apply read_sign_split in Hsign as (sgn & Ht & Hneg).
    apply digitpart_iff in Hd as (Hg & -> & ->).
    apply Nat.leb_le in Hlim.
    exists l, sgn, body, r. repeat split; try assumption.
    + rewrite Hl at 1. rewrite Hr, Ht. now rewrite append_assoc3.
    + destruct Hneg as [[-> Hs] | [-> Hs]]; simpl; auto.
  - intros (l & sgn & body & r & -> & Hl & Hr & Hg & Hlim & Hn).
    assert (Hk : digitpart body 0 0 = Some (decimal 0 body, digits body, EmptyString))
      by (apply digitpart_iff; now repeat split).
    apply Nat.leb_le in Hlim.
    destruct Hg as (c & q & -> & Hc & Hq).
    pose proof (digit_not_space c Hc) as Hcs.
    destruct (digit_not_sign c Hc) as (Hcm & Hcp & _).
    rewrite lstrip_app by assumption.
    rewrite <- append_assoc3.
    assert (Hx : lstrip_by c_isspace ((sgn ++ String c q) ++ r) = (sgn ++ String c q) ++ r).
    { destruct Hn as [[[-> | ->] _] | [-> _]]; simpl; now rewrite ?Hcs. }
    rewrite Hx, rstrip_app by assumption.
    assert (Hy : rstrip_by c_isspace (sgn ++ String c q) = sgn ++ String c q).
    { destruct Hn as [[[-> | ->] _] | [-> _]]; simpl String.append;
        apply rstrip_digit_tail; try exact digit_not_space; try reflexivity;
        try assumption; now constructor. }
    rewrite Hy.
    destruct Hn as [[[-> | ->] ->] | [-> ->]]; simpl String.append; unfold read_sign.
    + rewrite Hcm, Hcp, Hk, Hlim. reflexivity.
    + change (Ascii.eqb "+" "-") with false. change (Ascii.eqb "+" "+") with true.
      cbv iota. rewrite Hk, Hlim. reflexivity.
    + change (Ascii.eqb "-" "-") with true. cbv iota. rewrite Hk, Hlim. reflexivity.
Qed.

Lemma all_digits_tail r : all_digits r = true -> digit_tail r.
Proof.
  induction r as [| c r IH]; simpl; intros H; [constructor |].
  apply andb_true_iff in H as [Hc Hr]. constructor; auto.
Qed.

Lemma append_empty_r (s : string) : s ++ EmptyString = s.
Proof. induction s as [| c s IH]; simpl; [reflexivity | now rewrite IH]. Qed.

Lemma fully_numeric_spelling s :
  fully_numeric s = true -> (digits s <= int_max_str_digits)%nat ->
  int_spelling s (spelled s).
Proof.
  destruct s as [| c r]; [discriminate |]. unfold fully_numeric, spelled.
  destruct (Ascii.eqb c "-") eqn:Hm.
  - apply Ascii.eqb_eq in Hm. subst c. intros H Hlim. apply andb_true_iff in H as [Hne Hd].
    destruct r as [| d r]; [discriminate |]. simpl in Hd.
    apply andb_true_iff in Hd as [Hd Hr].
    exists EmptyString, "-", (String d r), EmptyString. repeat split.
    + simpl. now rewrite append_empty_r.
    + apply all_of_nil.
    + apply all_of_nil.
    + exists d, r. repeat split; auto using all_digits_tail.
    + exact Hlim.
    + right. split; reflexivity.
  - intros H Hlim. simpl in H. apply andb_true_iff in H as [Hc Hr].
    exists EmptyString, EmptyString, (String c r), EmptyString. repeat split.
    + simpl. now rewrite append_empty_r.
    + apply all_of_nil.
    + apply all_of_nil.
    + exists c, r. repeat split; auto using all_digits_tail.
    + exact Hlim.
    + left. split; [now left | reflexivity].
Qed.

(** A string of more than [int_max_str_digits] digits is one [int]
    refuses. *)
Lemma py_int_too_long s : (int_max_str_digits < digits s)%nat -> py_int s = None.
Proof.
  intros Hlong. destruct (py_int s) as [n |] eqn:Hp; [| reflexivity].
  exfalso. apply py_int_iff in Hp.
  destruct Hp as (l & sgn & body & r & Heq & Hl & Hr & Hg & Hlim & Hn).
  assert (Hdig : forall a b, digits (a ++ b) = (digits a + digits b)%nat).
  { induction a as [| x a IH]; intros b; simpl; [reflexivity |].
    rewrite IH. now destruct (isdigit x). }
  assert (Hsp : forall a, all_of c_isspace a -> digits a = 0%nat).
  { induction a as [| x a IH]; intros Ha; simpl; [reflexivity |].
    pose proof (Ha x) as Hx. simpl in Hx. rewrite Ascii.eqb_refl in Hx.
    specialize (Hx eq_refl).
    destruct (isdigit x) eqn:Hd.
    - rewrite (digit_not_space x Hd) in Hx. discriminate.
    - apply IH. intros c Hc. apply Ha. simpl. rewrite Hc. now rewrite orb_true_r. }
  assert (Hsg : digits sgn = 0%nat)
    by (destruct Hn as [[[-> | ->] _] | [-> _]]; reflexivity).
  rewrite Heq, !Hdig, (Hsp l Hl), (Hsp r Hr), Hsg in Hlong. lia.
Qed.

Lemma rstrip_keeps_head sp c r :
  sp c = false -> exists r', rstrip_by sp (String c r) = String c r'.
Proof.
  intros Hc. simpl. destruct (rstrip_by sp r) as [| d r'].
  - rewrite Hc. now exists EmptyString.
  - now exists (String d r').
Qed.

Lemma py_int_identifier s : identifier_start s = true -> py_int s = None.
Proof.
  destruct s as [| c r]; [discriminate |]. simpl. intros H.
  destruct (ident_start_not_int c H) as (Hsp & Hd & Hm & Hp).
  unfold py_int. simpl lstrip_by. rewrite Hsp.
  destruct (rstrip_keeps_head c_isspace c r Hsp) as [r' ->].
  unfold read_sign. rewrite Hm, Hp. unfold digitpart. now rewrite Hd.
Qed.

(** ** Integer coercion *)

(** C7: the shared integer coercion is a total function of the value: a
    Bool gives 1 or 0 (its case comes before the Int case), an Int gives
    itself, and Float, Null, Object, List and every bareword kept as an
    Identifier give no value.  The two copies of the function, in
    [config_model] and in [builtin], agree on every value. *)
Theorem C7_coerce_int_total :
  (forall b, config_model._coerce_int (VBool b) = Some (if b then 1 else 0)) /\
  (forall n, config_model._coerce_int (VInt n) = Some n) /\
  (forall f, config_model._coerce_int (VFloat f) = None) /\
  config_model._coerce_int VNone = None /\
  (forall d, config_model._coerce_int (VDict d) = None) /\
  (forall l, config_model._coerce_int (VList l) = None) /\
  (forall s, identifier_start s = true -> config_model._coerce_int (VStr s) = None) /\
  (forall v, builtin._coerce_int v = config_model._coerce_int v).
Proof.
  repeat split; try reflexivity.
  intros s H. simpl. now apply py_int_identifier.
Qed.

Lemma C7_coerce_int_total_witness :
  identifier_start "foo_1" = true /\ config_model._coerce_int (VStr "foo_1") = None.
Proof.
  split; [reflexivity |].
  apply (proj1 (proj2 (proj2 (proj2 (proj2 (proj2 (proj2 C7_coerce_int_total)))))) "foo_1").
  reflexivity.
Defined.

(** C2, as the code has it, for ASCII strings: a String coerces to [n]
    exactly when, between optional whitespace (tab, line feed, vertical
    tab, form feed, carriage return, space), it is an optional [+] or [-]
    followed by decimal digits in which single underscores may separate two
    digits, the digits are at most 4300 ([int]'s limit), and [n] is the
    integer those digits spell with that sign; every other ASCII String
    gives no value.  In particular a fully numeric String (an optional
    leading [-] and decimal digits only) coerces to the integer it spells
    when it has at most 4300 digits, and to no value when it has more. *)
Theorem C2_coerce_int_of_string :
  (forall s n, isascii s = true ->
               (config_model._coerce_int (VStr s) = Some n <-> int_spelling s n)) /\
  (forall s n, isascii s = true ->
               (builtin._coerce_int (VStr s) = Some n <-> int_spelling s n)) /\
  (forall s, isascii s = true -> (forall n, ~ int_spelling s n) ->
             config_model._coerce_int (VStr s) = None) /\
  (forall s, fully_numeric s = true -> (digits s <= int_max_str_digits)%nat ->
             config_model._coerce_int (VStr s) = Some (spelled s)) /\
  (forall s, fully_numeric s = true -> (int_max_str_digits < digits s)%nat ->
             config_model._coerce_int (VStr s) = None).
Proof.
  repeat apply conj.
  - intros s n _. apply py_int_iff.
  - intros s n _. apply py_int_iff.
  - intros s _ H. simpl. destruct (py_int s) as [n |] eqn:Hp; [| reflexivity].
    apply py_int_iff in Hp. now destruct (H n).
  - intros s H Hlim. apply py_int_iff. now apply fully_numeric_spelling.
  - intros s _ Hlong. now apply py_int_too_long.
Qed.

Lemma C2_coerce_int_of_string_witness :
  (isascii " +1_0 " = true /\
   (config_model._coerce_int (VStr " +1_0 ") = Some 10 <-> int_spelling " +1_0 " 10)) /\
  (fully_numeric "-42" = true /\ (digits "-42" <= int_max_str_digits)%nat /\
   config_model._coerce_int (VStr "-42") = Some (-42)) /\
  (fully_numeric (times "7" 4301) = true /\
   (int_max_str_digits < digits (times "7" 4301))%nat /\
   config_model._coerce_int (VStr (times "7" 4301)) = None).
Proof.
  pose proof C2_coerce_int_of_string as (H1 & _ & _ & H4 & H5).
  split; [| split].
  - split; [reflexivity |]. apply (H1 " +1_0 " 10). reflexivity.
  - split; [reflexivity |]. split; [vm_compute; lia |].
    apply (H4 "-42"); [reflexivity | vm_compute; lia].
  - split; [vm_compute; reflexivity |].
    assert (Hd : digits (times "7" 4301) = 4301%nat) by (vm_compute; reflexivity).
    split; [rewrite Hd; unfold int_max_str_digits; lia |].
    apply (H5 (times "7" 4301)); [vm_compute; reflexivity |].
    rewrite Hd; unfold int_max_str_digits; lia.
Defined.

(** C2 as stated fails in both directions: a leading [+], surrounding
    whitespace and a digit-group underscore each leave the string
    coercible, though none of the three strings is fully numeric; and the
    fully numeric string of 4301 digits coerces to no value. *)
Lemma C2_not_only_fully_numeric :
  (fully_numeric "+5" = false /\ config_model._coerce_int (VStr "+5") = Some 5) /\
  (fully_numeric " 12 " = false /\ config_model._coerce_int (VStr " 12 ") = Some 12) /\
  (fully_numeric "1_000" = false /\ config_model._coerce_int (VStr "1_000") = Some 1000) /\
  (fully_numeric (times "7" 4301) = true /\
   config_model._coerce_int (VStr (times "7" 4301)) = None).
Proof. repeat split; vm_compute; reflexivity. Qed.

(** ** The tokenizer's scanning loops *)

Lemma length_append (a b : string) :
  String.length (a ++ b) = (String.length a + String.length b)%nat.
Proof. induction a as [| c a IH]; simpl; [reflexivity | now rewrite IH]. Qed.

Lemma all_digits_all_of s : all_digits s = true -> all_of isdigit s.
Proof.
  induction s as [| c s IH]; simpl; intros H; [apply all_of_nil |].
  apply andb_true_iff in H as [Hc Hs]. apply all_of_cons. auto.
Qed.

(** A scanning loop reads the longest run of characters that satisfy [p]:
    it appends the run to [literal] and leaves the cursor after it, on the
    same line, as many columns further as the run is long. *)
Lemma consume_while_run p run :
  forall rest fuel literal self,
    all_of p run -> stops p rest ->
    Tokenizer.text self = run ++ rest ->
    (String.length run < fuel)%nat ->
    Tokenizer._consume_while p fuel literal self =
      Return (literal ++ run,
              Tokenizer.mk rest (Tokenizer.index self + String.length run)
                (Tokenizer.line self) (Tokenizer.column self + String.length run)).
Proof.
  induction run as [| c run IH]; intros rest fuel literal self Hall Hstop Htext Hfuel;
    (destruct fuel as [| fuel]; [simpl in Hfuel; lia |]);
    destruct self as [text index line column]; simpl in *; subst text.
  - rewrite append_empty_r, !Nat.add_0_r. unfold Tokenizer._eof, Tokenizer._peek. simpl.
    destruct rest as [| c rest]; simpl; [reflexivity |]. simpl in Hstop. now rewrite Hstop.
  - apply all_of_cons in Hall as [Hc Hall].
    unfold Tokenizer._eof, Tokenizer._peek. simpl. rewrite Hc.
    unfold Tokenizer._advance. simpl.
    rewrite (IH rest fuel (literal ++ String c EmptyString)
               (Tokenizer.mk (run ++ rest) (S index) line (S column)) Hall Hstop eq_refl)
      by lia.
    simpl. rewrite append_assoc3. simpl. repeat f_equal; lia.
Qed.

(** ** Number literals *)



(** ** Positions *)

(** C3 at [newline_in_string]: the bareword is the character at index 3, on
    line 2, column 2; the tokenizer reports it on line 1, column 4, because
    the newline inside the string literal was consumed as an ordinary
    character. *)
Theorem C3_newline_in_string_keeps_line :
  Tokenizer.tokens (Tokenizer.init newline_in_string)
  = Return [Token.mk "STRING" (String newline EmptyString) (Position.mk 1 1);
            Token.mk "IDENT" "x" (Position.mk 1 4)] /\
  position_at newline_in_string 3 = Position.mk 2 2.
Proof. split; vm_compute; reflexivity. Qed.

(** Outside string literals the same newline does start a new line. *)
Lemma newline_between_tokens :
  Tokenizer.tokens (Tokenizer.init (String "y" (String newline "x")))
  = Return [Token.mk "IDENT" "y" (Position.mk 1 1);
            Token.mk "IDENT" "x" (Position.mk 2 1)].
Proof. vm_compute. reflexivity. Qed.

(** The scan of a string literal never changes the line, whatever it
    reads. *)
Lemma consume_string_loop_keeps_line fuel :
  forall start chars self tok self',
    Tokenizer._consume_string_loop fuel start chars self = Return (tok, self') ->
    Tokenizer.line self' = Tokenizer.line self.
Proof.
  induction fuel as [| fuel IH]; intros start chars self tok self'; [discriminate |].
  cbn [Tokenizer._consume_string_loop].
  destruct (Tokenizer._eof self); [discriminate |].
  destruct (Ascii.eqb (Tokenizer._peek self) dquote).
  - intros [= _ <-]. reflexivity.
  - destruct (Ascii.eqb (Tokenizer._peek self) backslash).
    + destruct (Tokenizer._eof (Tokenizer._advance self false)); [discriminate |].
      intros H. apply IH in H. exact H.
    + intros H. apply IH in H. exact H.
Qed.

(** ** The shape of a bareword *)

Lemma consume_while_extends p fuel :
  forall literal self lit self',
    Tokenizer._consume_while p fuel literal self = Return (lit, self') ->
    exists run, lit = (literal ++ run)%string.
Proof.
  induction fuel as [| fuel IH]; intros literal self lit self'; [discriminate |].
  cbn [Tokenizer._consume_while].
  destruct (negb (Tokenizer._eof self) && p (Tokenizer._peek self)).
  - intros H. apply IH in H as [run ->]. rewrite append_assoc3.
    now exists (String (Tokenizer._peek self) EmptyString ++ run)%string.
  - intros [= <- _]. exists EmptyString. now rewrite append_empty_r.
Qed.

(** Every IDENT token the tokenizer emits starts with the letter or the
    underscore at which its scan began. *)
Lemma identifier_token_start self tok self' :
  Tokenizer._eof self = false ->
  isalpha (Tokenizer._peek self) || Ascii.eqb (Tokenizer._peek self) "_" = true ->
  Tokenizer._consume_identifier self = Return (tok, self') ->
  Token.kind tok = "IDENT" /\ identifier_start (Token.value tok) = true.
Proof.
  intros Heof Hstart. unfold Tokenizer._consume_identifier, Tokenizer.fuel_of.
  cbn [Tokenizer._consume_while].
  assert (Hgo : negb (Tokenizer._eof self)
                && (isalnum (Tokenizer._peek self) || Ascii.eqb (Tokenizer._peek self) "_")
                = true).
  { rewrite Heof. cbn [negb andb]. unfold isalnum.
    apply orb_true_iff in Hstart as [H | H]; rewrite H; auto using orb_true_r. }
  rewrite Hgo.
  destruct (Tokenizer._consume_while _ _ _ _) as [[lit self1] | e |] eqn:Hrun;
    cbn [mbind outcome_bind]; try discriminate.
  intros [= <- _]. apply consume_while_extends in Hrun as [run ->].
  split; [reflexivity |]. exact Hstart.
Qed.

(** ** Barewords *)

Lemma parse_value_ident fuel tokens index literal pos :
  nth_error tokens index = Some (ident_token literal pos) ->
  _Parser._parse_value (S fuel) (_Parser.mk tokens index)
  = Return (_Parser.ident_value literal, _Parser.mk tokens (S index)).
Proof.
  intros Hnth.
  assert (Hlt : (index < length tokens)%nat) by (apply nth_error_Some; congruence).
  assert (Hpeek : nth index tokens _Parser.no_token = ident_token literal pos)
    by (now apply nth_error_nth).
  cbn [_Parser._parse_value].
  unfold _Parser._match, _Parser._check, _Parser._at_end, _Parser._peek, _Parser._previous,
    _Parser.step.
  cbn [_Parser.tokens _Parser.index].
  replace (length tokens <=? index)%nat with false by (symmetry; apply Nat.leb_gt; lia).
  rewrite Hpeek. cbn [Token.kind ident_token String.eqb Ascii.eqb Bool.eqb].
  cbn [_Parser.tokens _Parser.index fst snd].
  replace (S index - 1)%nat with index by lia. rewrite Hpeek. reflexivity.
Qed.

(** The letters of [true], [false] and [null]. *)
Lemma lower_char_letter w c :
  In w ["t"; "r"; "u"; "e"; "f"; "a"; "l"; "s"; "n"]%char ->
  Ascii.eqb (lower_char c) w = Ascii.eqb c w || Ascii.eqb c (ascii_of_N (code w - 32)).
Proof.
  intros [<- | [<- | [<- | [<- | [<- | [<- | [<- | [<- | [<- | []]]]]]]]]]; each_char c.
Qed.

(** Comparing the lowercasing with a keyword is reading the keyword in any
    mix of cases. *)
Lemma lower_spells word :
  (forall w, contains w word = true -> In w ["t"; "r"; "u"; "e"; "f"; "a"; "l"; "s"; "n"]%char) ->
  forall literal, String.eqb (lower literal) word = spells word literal.
Proof.
  induction word as [| w word IH]; intros Hw literal.
  - now destruct literal.
  - destruct literal as [| c literal]; [reflexivity |].
    cbn [lower String.eqb spells].
    rewrite lower_char_letter by (apply Hw; simpl; now rewrite Ascii.eqb_refl).
    rewrite IH; [reflexivity |].
    intros x Hx. apply Hw. simpl. rewrite Hx. apply orb_true_r.
Qed.

Lemma ident_value_bareword literal : _Parser.ident_value literal = bareword literal.
Proof.
  unfold _Parser.ident_value, bareword.
  rewrite !lower_spells; [reflexivity | ..];
    intros w Hw; cbn [contains] in Hw;
    repeat (apply orb_true_iff in Hw as [Hw | Hw];
            [apply Ascii.eqb_eq in Hw; subst w; simpl; tauto |]);
    discriminate.
Qed.

(** C9: a bareword in value position that is [true] in any mix of upper and
    lower case parses to Bool true, one that is [false] to Bool false, one
    that is [null] to Null; any other bareword parses to the value that
    carries its text unchanged (the parser keeps an Identifier as a Python
    [str]). *)
Theorem C9_bareword_literals fuel tokens index literal pos :
  nth_error tokens index = Some (ident_token literal pos) ->
  _Parser._parse_value (S fuel) (_Parser.mk tokens index)
  = Return (bareword literal, _Parser.mk tokens (S index)).
Proof.
  intros Hnth. rewrite <- ident_value_bareword.
  now apply parse_value_ident with (pos := pos).
Qed.

Lemma C9_bareword_literals_witness :
  _Parser._parse_value 1 (_Parser.mk [ident_token "TRUE" (Position.mk 1 1)] 0)
  = Return (VBool true, _Parser.mk [ident_token "TRUE" (Position.mk 1 1)] 1) /\
  _Parser._parse_value 1 (_Parser.mk [ident_token "False" (Position.mk 1 1)] 0)
  = Return (VBool false, _Parser.mk [ident_token "False" (Position.mk 1 1)] 1) /\
  _Parser._parse_value 1 (_Parser.mk [ident_token "NULL" (Position.mk 1 1)] 0)
  = Return (VNone, _Parser.mk [ident_token "NULL" (Position.mk 1 1)] 1) /\
  _Parser._parse_value 1 (_Parser.mk [ident_token "Nul" (Position.mk 1 1)] 0)
  = Return (VStr "Nul", _Parser.mk [ident_token "Nul" (Position.mk 1 1)] 1).
Proof.
  repeat apply conj.
  - apply (C9_bareword_literals 0 [ident_token "TRUE" (Position.mk 1 1)] 0 "TRUE"
             (Position.mk 1 1)). reflexivity.
  - apply (C9_bareword_literals 0 [ident_token "False" (Position.mk 1 1)] 0 "False"
             (Position.mk 1 1)). reflexivity.
  - apply (C9_bareword_literals 0 [ident_token "NULL" (Position.mk 1 1)] 0 "NULL"
             (Position.mk 1 1)). reflexivity.
  - apply (C9_bareword_literals 0 [ident_token "Nul" (Position.mk 1 1)] 0 "Nul"
             (Position.mk 1 1)). reflexivity.
Defined.

(** The literals of the claim, from text to value. *)
Lemma bareword_examples :
  parse_config "a=TRUE b=False c=NULL d=foo e=Nul"
  = Return [("a", VBool true); ("b", VBool false); ("c", VNone); ("d", VStr "foo");
            ("e", VStr "Nul")].
Proof. vm_compute. reflexivity. Qed.

(** ** The built-in rules on the minimal fixture *)

Lemma minimal_text_parses :
  parse_config minimal_text = Return (minimal_root "0.0.0.0:6033" (VInt 100)).
Proof. vm_compute. reflexivity. Qed.

(** C4: over the minimal valid fixture the six built-in rules, run in
    registration order, report nothing and raise nothing, whatever non-blank
    listener string and whatever [max_connections] value it holds. *)
Theorem C4_minimal_fixture_is_clean ifaces max_connections :
  nonempty (strip ifaces) = true -> is_none max_connections = false ->
  run engine {| raw := minimal_root ifaces max_connections |} = done [].
Proof.
  intros Hif Hmc. unfold run, engine, builtin_rules. cbn [rules run_loop].
  assert (H1 : check (RequiredBlocksRule None) {| raw := minimal_root ifaces max_connections |}
               = done []) by reflexivity.
  assert (H2 : check AdminCredentialsRule {| raw := minimal_root ifaces max_connections |}
               = done []).
  { cbn [check AdminCredentialsRule]. unfold AdminCredentials_check.
    change (get_block {| raw := minimal_root ifaces max_connections |} "admin_variables")
      with [("admin_credentials", VStr "admin:admin"); ("mysql_ifaces", VStr ifaces)].
    change (dict_get [("admin_credentials", VStr "admin:admin"); ("mysql_ifaces", VStr ifaces)]
              "mysql_ifaces") with (VStr ifaces).
    cbn [str_and]. rewrite Hif. reflexivity. }
  assert (H3 : check MysqlServersRule {| raw := minimal_root ifaces max_connections |}
               = done []).
  { cbn [check MysqlServersRule]. unfold MysqlServers_check.
    change (get_list {| raw := minimal_root ifaces max_connections |} "mysql_servers")
      with [VDict [("address", VStr "127.0.0.1"); ("port", VInt 3306);
                   ("hostgroup", VInt 0); ("max_connections", max_connections)]].
    cbn [servers_loop]. unfold server_field_findings.
    change (dict_get [("address", VStr "127.0.0.1"); ("port", VInt 3306);
                      ("hostgroup", VInt 0); ("max_connections", max_connections)]
              "max_connections") with max_connections.
    rewrite Hmc. reflexivity. }
  assert (H4 : check MysqlUsersRule {| raw := minimal_root ifaces max_connections |}
               = done []) by reflexivity.
  assert (H5 : check MysqlQueryRulesRule {| raw := minimal_root ifaces max_connections |}
               = done []) by reflexivity.
  assert (H6 : check DatadirRule {| raw := minimal_root ifaces max_connections |}
               = done []) by reflexivity.
  rewrite H1, H2, H3, H4, H5, H6. reflexivity.
Qed.

Lemma C4_minimal_fixture_is_clean_witness :
  parse_config minimal_text = Return (minimal_root "0.0.0.0:6033" (VInt 100)) /\
  run engine {| raw := minimal_root "0.0.0.0:6033" (VInt 100) |} = done [].
Proof.
  split; [exact minimal_text_parses |].
  apply (C4_minimal_fixture_is_clean "0.0.0.0:6033" (VInt 100)); reflexivity.
Defined.

(** ** An address that cannot be hashed *)

(** An object entry whose address is a non-empty list or object, and whose
    port and hostgroup both coerce, stops the rule with a [TypeError]: the
    address goes into the duplicate key as it is, and the key is hashed. *)
Lemma servers_loop_unhashable index seen entry rest p h :
  hashable (dict_get entry "address") = false ->
  truthy (dict_get entry "address") = true ->
  builtin._coerce_int (dict_get entry "port") = Some p ->
  builtin._coerce_int (dict_get entry "hostgroup") = Some h ->
  raised (servers_loop index seen (VDict entry :: rest))
  = Some (TypeError (unhashable (dict_get entry "address"))).
Proof.
  intros Hhash Htruthy Hport Hhg. cbn [servers_loop].
  rewrite Hport, Hhg. unfold server_key, py_or. rewrite Htruthy. cbn [fst].
  rewrite Hhash.
  destruct (dict_get entry "address"); try discriminate; reflexivity.
Qed.

(** C1 at [list_address_text]: the text parses, and the engine over the
    built-in rules yields the finding about the address and is then stopped
    by a [TypeError] raised inside the mysql_servers rule; the three rules
    after it never run. *)
Theorem C1_list_address_raises :
  parse_config list_address_text = Return list_address_root /\
  run engine {| raw := list_address_root |}
  = {| yielded := [server_finding 0 ".address must be a non-empty string" ERROR];
       raised := Some (TypeError "unhashable type: 'list'") |}.
Proof. split; vm_compute; reflexivity. Qed.

(** The other five built-in rules run to their end on every config. *)
Lemma other_rules_never_raise r config :
  In r builtin_rules -> slug r <> "mysql_servers" -> raised (check r config) = None.
Proof.
  unfold builtin_rules. simpl.
  intros [<- | [<- | [<- | [<- | [<- | [<- | []]]]]]] Hslug;
    try reflexivity.
  - exfalso. apply Hslug. reflexivity.
  - cbn [check DatadirRule]. unfold Datadir_check.
    destruct (dict_get (raw config) "datadir") as [s | | | | | |]; try reflexivity.
    destruct (nonempty (strip s)); reflexivity.
Qed.

(** ** Duplicate servers *)

#[local] Open Scope list_scope.

Lemma yield_then_assoc fs gs g : yield_then fs (yield_then gs g) = yield_then (fs ++ gs) g.
Proof. unfold yield_then. simpl. now rewrite app_assoc. Qed.

Lemma yielded_yield_then fs g : yielded (yield_then fs g) = fs ++ yielded g.
Proof. reflexivity. Qed.

Lemma key_in_seen_add k k' seen : key_in k seen = true -> key_in k (seen_add k' seen) = true.
Proof.
  intros H. unfold seen_add. destruct (key_in k' seen); [assumption |].
  simpl. rewrite H. apply orb_true_r.
Qed.

Lemma key_in_seen_add_same a p h seen :
  key_in (VStr a, p, h) (seen_add (VStr a, p, h) seen) = true.
Proof.
  unfold seen_add. destruct (key_in (VStr a, p, h) seen) eqn:E; [assumption |].
  simpl. now rewrite String.eqb_refl, !Z.eqb_refl.
Qed.

(** Over entries whose keys can be hashed the loop runs on: it yields some
    findings and reaches the entries behind them with every key it had seen
    still seen. *)
Lemma servers_loop_app pre :
  forall index seen l,
    forallb hashable_entry pre = true ->
    exists fs seen',
      servers_loop index seen (pre ++ l)
      = yield_then fs (servers_loop (index + length pre) seen' l) /\
      (forall k, key_in k seen = true -> key_in k seen' = true).
Proof.
  induction pre as [| e pre IH]; intros index seen l Hh.
  - exists [], seen. split; [| auto]. simpl. rewrite Nat.add_0_r.
    unfold yield_then. destruct (servers_loop index seen l). reflexivity.
  - simpl in Hh. apply andb_true_iff in Hh as [He Hpre].
    assert (Hnext : forall seen0,
      (forall k, key_in k seen = true -> key_in k seen0 = true) ->
      forall fs0, exists fs seen',
        yield_then fs0 (servers_loop (S index) seen0 (pre ++ l))
        = yield_then fs (servers_loop (index + length (e :: pre)) seen' l) /\
        (forall k, key_in k seen = true -> key_in k seen' = true)).
    { intros seen0 Hmono fs0.
      destruct (IH (S index) seen0 l Hpre) as (fs & seen' & -> & Hm).
      exists (fs0 ++ fs), seen'. split.
      - rewrite yield_then_assoc. simpl length. now rewrite Nat.add_succ_r.
      - auto. }
    destruct e as [s | n | f | b | | d | vs];
      try (change (servers_loop index seen ((?v :: pre) ++ l))
             with (yield_then [server_finding index " must be an object" ERROR]
                     (servers_loop (S index) seen (pre ++ l)));
           apply Hnext; auto).
    all: try (apply (Hnext seen); auto).
    simpl in He. change ((VDict d :: pre) ++ l) with (VDict d :: (pre ++ l)).
    cbn [servers_loop].
    destruct (builtin._coerce_int (dict_get d "port")) as [p |];
      destruct (builtin._coerce_int (dict_get d "hostgroup")) as [h |];
      destruct (dict_get d "address") eqn:Ha;
      try (apply (Hnext seen); auto).
    all: unfold server_key; cbn [fst]; rewrite He; rewrite yield_then_assoc;
      apply Hnext; intros k Hk; now apply key_in_seen_add.
Qed.

Lemma servers_check_nonempty config e l :
  get_list config "mysql_servers" = e :: l ->
  check MysqlServersRule config = servers_loop 0 [] (e :: l).
Proof. intros H. cbn [check MysqlServersRule]. unfold MysqlServers_check. now rewrite H. Qed.

(** What an object entry with a string address and coercible port and
    hostgroup adds: after its findings, a duplicate finding when its key was
    seen, and the key. *)
Lemma servers_loop_keyed index seen entry rest a p h :
  dict_get entry "address" = VStr a ->
  builtin._coerce_int (dict_get entry "port") = Some p ->
  builtin._coerce_int (dict_get entry "hostgroup") = Some h ->
  servers_loop index seen (VDict entry :: rest)
  = yield_then
      (server_field_findings index entry
       ++ when (key_in (server_key (VStr a) (Some p) (Some h)) seen)
            (duplicate_server (VStr a) p h))
      (servers_loop (S index)
         (seen_add (server_key (VStr a) (Some p) (Some h)) seen) rest).
Proof.
  intros Ha Hp Hh. cbn [servers_loop]. rewrite Ha, Hp, Hh.
  assert (Hhash : hashable (fst (fst (server_key (VStr a) (Some p) (Some h)))) = true).
  { unfold server_key, py_or. simpl. now destruct a. }
  rewrite Hhash. now rewrite yield_then_assoc.
Qed.

(** C10: the duplicate key turns a port of 0 and a hostgroup of 0 into -1
    and keeps an empty address as the empty string.  So two object entries
    with the same non-empty address and the same valid port, one in
    hostgroup 0 and the other in hostgroup -1, have the one key
    (address, port, -1), and the later of the two is reported as a
    duplicate, once the entries before it have been gone through. *)
Theorem C10_hostgroup_zero_collides config pre mid post e1 e2 a p h1 h2 :
  get_list config "mysql_servers" = pre ++ VDict e1 :: mid ++ VDict e2 :: post ->
  forallb hashable_entry (pre ++ mid) = true ->
  a <> EmptyString ->
  dict_get e1 "address" = VStr a -> dict_get e2 "address" = VStr a ->
  (0 < p < 65536)%Z ->
  builtin._coerce_int (dict_get e1 "port") = Some p ->
  builtin._coerce_int (dict_get e2 "port") = Some p ->
  builtin._coerce_int (dict_get e1 "hostgroup") = Some h1 ->
  builtin._coerce_int (dict_get e2 "hostgroup") = Some h2 ->
  (h1 = 0 /\ h2 = -1 \/ h1 = -1 /\ h2 = 0)%Z ->
  server_key (VStr EmptyString) (Some 0%Z) (Some 0%Z) = (VStr EmptyString, -1, -1)%Z /\
  server_key (VStr a) (Some p) (Some h1) = (VStr a, p, -1)%Z /\
  server_key (VStr a) (Some p) (Some h2) = (VStr a, p, -1)%Z /\
  In (duplicate_server (VStr a) p h2) (yielded (check MysqlServersRule config)).
Proof.
  intros Hlist Hhash Hne Ha1 Ha2 Hrange Hp1 Hp2 Hh1 Hh2 Hhg.
  assert (Hkey : forall h, (h = 0 \/ h = -1)%Z ->
            server_key (VStr a) (Some p) (Some h) = (VStr a, p, -1)%Z).
  { intros h Hh. unfold server_key, py_or, int_or. simpl truthy.
    destruct a; [congruence |]. simpl.
    replace (p =? 0)%Z with false by (symmetry; apply Z.eqb_neq; lia).
    destruct Hh as [-> | ->]; reflexivity. }
  assert (Hk1 : server_key (VStr a) (Some p) (Some h1) = (VStr a, p, -1)%Z)
    by (apply Hkey; lia).
  assert (Hk2 : server_key (VStr a) (Some p) (Some h2) = (VStr a, p, -1)%Z)
    by (apply Hkey; lia).
  split; [reflexivity |]. split; [exact Hk1 |]. split; [exact Hk2 |].
  rewrite forallb_app in Hhash. apply andb_true_iff in Hhash as [Hpre Hmid].
  assert (Hcheck : check MysqlServersRule config
                   = servers_loop 0 [] (pre ++ VDict e1 :: mid ++ VDict e2 :: post)).
  { destruct pre as [| e pre']; simpl in Hlist |- *;
      now apply (servers_check_nonempty config _ _ Hlist). }
  rewrite Hcheck.
  destruct (servers_loop_app pre 0 [] (VDict e1 :: mid ++ VDict e2 :: post) Hpre)
    as (fs1 & seen1 & -> & _).
  rewrite (servers_loop_keyed _ _ e1 _ a p h1 Ha1 Hp1 Hh1), Hk1.
  destruct (servers_loop_app mid (S (0 + length pre)) (seen_add (VStr a, p, -1)%Z seen1)
              (VDict e2 :: post) Hmid) as (fs2 & seen2 & -> & Hmono).
  rewrite (servers_loop_keyed _ _ e2 _ a p h2 Ha2 Hp2 Hh2), Hk2.
  rewrite (Hmono _ (key_in_seen_add_same a p (-1)%Z seen1)).
  rewrite !yielded_yield_then. cbn [when].
  apply in_or_app. right. apply in_or_app. right. apply in_or_app. right.
  apply in_or_app. left. apply in_or_app. right. now left.
Qed.

Lemma C10_hostgroup_zero_collides_witness :
  server_key (VStr EmptyString) (Some 0%Z) (Some 0%Z) = (VStr EmptyString, -1, -1)%Z /\
  server_key (VStr "10.0.0.1") (Some 3306%Z) (Some 0%Z) = (VStr "10.0.0.1", 3306, -1)%Z /\
  server_key (VStr "10.0.0.1") (Some 3306%Z) (Some (-1)%Z) = (VStr "10.0.0.1", 3306, -1)%Z /\
  In (duplicate_server (VStr "10.0.0.1") 3306 (-1))
     (yielded (check MysqlServersRule colliding_servers)).
Proof.
  apply (C10_hostgroup_zero_collides colliding_servers [] [] []
           [("address", VStr "10.0.0.1"); ("port", VInt 3306); ("hostgroup", VInt 0);
            ("max_connections", VInt 10)]
           [("address", VStr "10.0.0.1"); ("port", VInt 3306); ("hostgroup", VInt (-1));
            ("max_connections", VInt 10)]
           "10.0.0.1" 3306%Z 0%Z (-1)%Z).
  - reflexivity.
  - reflexivity.
  - discriminate.
  - reflexivity.
  - reflexivity.
  - lia.
  - reflexivity.
  - reflexivity.
  - reflexivity.
  - reflexivity.
  - left. split; reflexivity.
Defined.

(** All that the rule reports on the two colliding servers. *)
Lemma colliding_servers_findings :
  check MysqlServersRule colliding_servers
  = done [server_finding 1 ".hostgroup must be a non-negative integer" ERROR;
          duplicate_server (VStr "10.0.0.1") 3306 (-1)].
Proof. vm_compute. reflexivity. Qed.

(** ** Duplicate rule ids *)

Lemma no_duplicate_id_in_tail hostgroups index entry :
  List.filter is_duplicate_id (query_rule_tail hostgroups index entry) = [].
Proof.
  unfold query_rule_tail.
  destruct (builtin._coerce_int (dict_get entry "destination_hostgroup")) as [d |];
    [destruct (set_nonempty hostgroups && negb (bool_decide (d ∈ hostgroups))) |];
    destruct (negb (truthy (dict_get entry "match_pattern"))); reflexivity.
Qed.

Lemma existsb_eqb_In x l : existsb (Z.eqb x) l = true <-> In x l.
Proof.
  rewrite existsb_exists. split.
  - intros (y & Hy & E). apply Z.eqb_eq in E. now subst.
  - intros H. exists x. split; [assumption | apply Z.eqb_refl].
Qed.

(** The loop, with the ids seen so far given as the set [seen_ids] and as
    the list [earlier]. *)
Lemma query_rules_loop_duplicates hostgroups rules :
  forall index (seen_ids : gset Z) earlier,
    (forall x, x ∈ seen_ids <-> In x earlier) ->
    List.filter is_duplicate_id (query_rules_loop hostgroups index seen_ids rules)
    = List.map duplicate_rule_id (repeats earlier (rule_ids rules)).
Proof.
  induction rules as [| e rules IH]; intros index seen_ids earlier Hseen; [reflexivity |].
  destruct e as [s | n | f | b | | d | vs];
    try (cbn [query_rules_loop rule_ids]; cbn [List.filter];
         change (is_duplicate_id (query_rule_finding index [Lit " must be an object"] ERROR))
           with false; cbv iota; now apply IH).
  cbn [query_rules_loop rule_ids].
  destruct (builtin._coerce_int (dict_get d "rule_id")) as [id |].
  - cbn [repeats]. rewrite map_app.
    destruct (bool_decide (id ∈ seen_ids)) eqn:Hin.
    + apply bool_decide_eq_true in Hin.
      assert (Hex : existsb (Z.eqb id) earlier = true)
        by (apply existsb_eqb_In; now apply Hseen).
      rewrite Hex. cbn [List.filter].
      change (is_duplicate_id (duplicate_rule_id id)) with true. cbv iota.
      rewrite List.filter_app, no_duplicate_id_in_tail. cbn [app List.map]. f_equal.
      apply IH. intros x. rewrite Hseen. simpl. split; [auto |].
      intros [<- | H]; [now apply Hseen | assumption].
    + apply bool_decide_eq_false in Hin.
      assert (Hex : existsb (Z.eqb id) earlier = false).
      { apply not_true_is_false. intros H. apply existsb_eqb_In in H. now apply Hin, Hseen. }
      rewrite Hex. rewrite List.filter_app, no_duplicate_id_in_tail. cbn [app List.map].
      apply IH. intros x. rewrite elem_of_union, elem_of_singleton, Hseen. simpl.
      split; intros [H | H]; auto.
  - cbn [List.filter].
    change (is_duplicate_id (query_rule_finding index [Lit ".rule_id must be an integer"] ERROR))
      with false. cbv iota.
    rewrite List.filter_app, no_duplicate_id_in_tail. cbn [app]. now apply IH.
Qed.

(** C6: the duplicate-id errors of the mysql_query_rules rule are, in
    order, one for each object entry whose coerced [rule_id] equals that of
    an earlier object entry, and none for the first entry with an id; with
    two entries sharing [rule_id] 1 there is exactly one, yielded in the turn
    of the second entry. *)
Theorem C6_duplicate_rule_ids :
  (forall config,
     List.filter is_duplicate_id (yielded (check MysqlQueryRulesRule config))
     = List.map duplicate_rule_id
         (repeats [] (rule_ids (get_list config "mysql_query_rules"))) /\
     raised (check MysqlQueryRulesRule config) = None) /\
  repeats [] [1; 1]%Z = [1%Z] /\
  check MysqlQueryRulesRule shared_rule_id
  = done [query_rule_finding 0 [Lit ".match_pattern should be defined"] WARNING;
          duplicate_rule_id 1;
          query_rule_finding 1 [Lit ".match_pattern should be defined"] WARNING].
Proof.
  split; [| split; vm_compute; reflexivity].
  intros config. split; [| reflexivity].
  cbn [check MysqlQueryRulesRule]. unfold MysqlQueryRules_check. cbn [yielded done].
  apply query_rules_loop_duplicates. intros x. split; [| intros []].
  intros H. now apply not_elem_of_empty in H.
Qed.

(** ** Separators *)

(** After a member or an element the parser steps over one comma when the
    current token is a comma, and stays where it is otherwise; it never
    raises. *)
Lemma optional_separator_step self stop :
  stop = "}" \/ stop = ")" ->
  _Parser._consume_optional_separator self stop
  = if _Parser._check self "," then _Parser.step self else self.
Proof.
  intros Hstop. unfold _Parser._consume_optional_separator, _Parser._match, _Parser._check.
  destruct (_Parser._at_end self); [reflexivity |].
  destruct (String.eqb_spec (Token.kind (_Parser._peek self)) stop) as [E | E].
  - rewrite E. destruct Hstop as [-> | ->]; reflexivity.
  - destruct (String.eqb (Token.kind (_Parser._peek self)) ","); reflexivity.
Qed.

(** ** The grammar with optional separators *)

Lemma reading_step pre tok rest :
  _Parser.step (reading pre (tok :: rest)) = reading (pre ++ [tok]) rest.
Proof.
  unfold _Parser.step, reading. cbn [_Parser.tokens _Parser.index]. f_equal.
  - now rewrite <- app_assoc.
  - rewrite length_app. simpl. lia.
Qed.

Lemma reading_peek pre tok rest : _Parser._peek (reading pre (tok :: rest)) = tok.
Proof.
  unfold _Parser._peek, reading. cbn [_Parser.tokens _Parser.index]. now rewrite nth_middle.
Qed.

Lemma reading_not_at_end pre tok rest : _Parser._at_end (reading pre (tok :: rest)) = false.
Proof.
  unfold _Parser._at_end, reading. cbn [_Parser.tokens _Parser.index]. apply Nat.leb_gt.
  rewrite length_app. simpl. lia.
Qed.

Lemma reading_at_end pre : _Parser._at_end (reading pre []) = true.
Proof.
  unfold _Parser._at_end, reading. cbn [_Parser.tokens _Parser.index]. apply Nat.leb_le.
  rewrite length_app. simpl. lia.
Qed.

Lemma reading_previous pre tok rest : _Parser._previous (reading (pre ++ [tok]) rest) = tok.
Proof.
  unfold _Parser._previous, reading. cbn [_Parser.tokens _Parser.index].
  rewrite length_app. simpl. replace (length pre + 1 - 1)%nat with (length pre) by lia.
  rewrite <- app_assoc. simpl. now rewrite nth_middle.
Qed.

Lemma reading_check pre tok rest kind :
  _Parser._check (reading pre (tok :: rest)) kind = String.eqb (Token.kind tok) kind.
Proof. unfold _Parser._check. now rewrite reading_not_at_end, reading_peek. Qed.

Lemma reading_match pre tok rest kind :
  _Parser._match (reading pre (tok :: rest)) kind
  = if String.eqb (Token.kind tok) kind then (true, reading (pre ++ [tok]) rest)
    else (false, reading pre (tok :: rest)).
Proof. unfold _Parser._match. now rewrite reading_check, reading_step. Qed.

Lemma reading_consume pre tok rest kind :
  String.eqb (Token.kind tok) kind = true ->
  _Parser._consume (reading pre (tok :: rest)) kind = Return (tok, reading (pre ++ [tok]) rest).
Proof.
  intros H. unfold _Parser._consume. now rewrite reading_check, H, reading_step, reading_previous.
Qed.

Lemma denote_no_separators :
  (forall t, denote (no_separators t) = denote t) /\
  (forall ms data, denote_members (no_separators_members ms) data = denote_members ms data) /\
  (forall es items,
     denote_elements (no_separators_elements es) items = denote_elements es items).
Proof.
  apply tree_members_elements_ind; simpl; intros; try reflexivity.
  - now rewrite H.
  - now rewrite H.
  - rewrite H. destruct (denote v); simpl; auto.
  - rewrite H. destruct (denote v); simpl; auto.
Qed.

Lemma render_starts_value t : exists tok l, render t = tok :: l /\ starts_value tok.
Proof. destruct t; simpl; eexists _, _; (split; [reflexivity | repeat split]). Qed.

Lemma separator_at pre sep tok next stop :
  String.eqb (Token.kind tok) "," = false ->
  stop = "}" \/ stop = ")" ->
  _Parser._consume_optional_separator (reading pre (render_sep sep ++ tok :: next)) stop
  = reading (pre ++ render_sep sep) (tok :: next).
Proof.
  intros Htok Hstop. rewrite optional_separator_step by assumption.
  destruct sep as [pos |]; simpl render_sep; simpl app.
  - rewrite reading_check, reading_step. reflexivity.
  - rewrite reading_check, Htok, app_nil_r. reflexivity.
Qed.

Lemma bind_return_pair {A B : Type} (r : outcome A) (f : A -> B) (st : _Parser.t) :
  ('(a, self) ← (x ← r; Return (x, st)); Return (f a, self))
  = (v ← (x ← r; Return (f x)); Return (v, st)).
Proof. destruct r; reflexivity. Qed.

(** The parser on the tokens of a derivation, wherever they stand in the
    token list: it returns the value of the derivation, or raises what a
    number in it raises, and stops just behind these tokens. *)
Lemma parse_render :
  (forall t fuel pre post,
     (length (render t) < fuel)%nat ->
     _Parser._parse_value fuel (reading pre (render t ++ post))
     = v ← denote t; Return (v, reading (pre ++ render t) post)) /\
  (forall ms fuel pre post data closing,
     (length (render_members ms) < fuel)%nat ->
     _Parser._parse_object fuel (reading pre (render_members ms ++ symbol "}" closing :: post)) data
     = d ← denote_members ms data;
       Return (d, reading (pre ++ render_members ms ++ [symbol "}" closing]) post)) /\
  (forall es fuel pre post items closing,
     (length (render_elements es) + 1 < fuel)%nat ->
     _Parser._parse_list fuel (reading pre (render_elements es ++ symbol ")" closing :: post)) items
     = l ← denote_elements es items;
       Return (l, reading (pre ++ render_elements es ++ [symbol ")" closing]) post)).
Proof.
  apply tree_members_elements_ind.
  - (* TString *)
    intros pos literal [| fuel] pre post Hfuel; [simpl in Hfuel; lia |].
    cbn [_Parser._parse_value render app]. rewrite reading_match.
    cbn [Token.kind String.eqb Ascii.eqb Bool.eqb]. now rewrite reading_previous.
  - (* TNumber *)
    intros pos literal [| fuel] pre post Hfuel; [simpl in Hfuel; lia |].
    cbn [_Parser._parse_value render app]. rewrite !reading_match.
    cbn [Token.kind String.eqb Ascii.eqb Bool.eqb]. rewrite reading_previous.
    cbn [Token.value denote]. destruct (_Parser.number_value literal); reflexivity.
  - (* TIdent *)
    intros pos literal [| fuel] pre post Hfuel; [simpl in Hfuel; lia |].
    cbn [_Parser._parse_value render app]. rewrite !reading_match.
    cbn [Token.kind String.eqb Ascii.eqb Bool.eqb]. now rewrite reading_previous.
  - (* TObject *)
    intros opening ms IH closing [| fuel] pre post Hfuel; [simpl in Hfuel; lia |].
    cbn [_Parser._parse_value render]. rewrite <- app_comm_cons, !reading_match.
    cbn [symbol Token.kind String.eqb Ascii.eqb Bool.eqb].
    rewrite <- app_assoc. cbn [app].
    rewrite IH by (simpl in Hfuel; rewrite length_app in Hfuel; simpl in Hfuel; lia).
    cbn [denote].
    replace (pre ++ symbol "{" opening :: render_members ms ++ [symbol "}" closing])
      with ((pre ++ [symbol "{" opening]) ++ render_members ms ++ [symbol "}" closing])
      by (now rewrite <- app_assoc).
    destruct (denote_members ms []); reflexivity.
  - (* TList *)
    intros opening es IH closing [| fuel] pre post Hfuel; [simpl in Hfuel; lia |].
    cbn [_Parser._parse_value render]. rewrite <- app_comm_cons, !reading_match.
    cbn [symbol Token.kind String.eqb Ascii.eqb Bool.eqb].
    rewrite <- app_assoc. cbn [app].
    rewrite IH by (simpl in Hfuel; rewrite length_app in Hfuel; simpl in Hfuel; lia).
    cbn [denote].
    replace (pre ++ symbol "(" opening :: render_elements es ++ [symbol ")" closing])
      with ((pre ++ [symbol "(" opening]) ++ render_elements es ++ [symbol ")" closing])
      by (now rewrite <- app_assoc).
    destruct (denote_elements es []); reflexivity.
  - (* MNil *)
    intros [| fuel] pre post data closing Hfuel; [simpl in Hfuel; lia |].
    cbn [_Parser._parse_object render_members app denote_members].
    rewrite reading_check. cbn [symbol Token.kind String.eqb Ascii.eqb Bool.eqb negb].
    rewrite reading_consume by reflexivity. reflexivity.
  - (* MCons *)
    intros key_pos key eq_pos v IHv sep rest IHrest [| fuel] pre post data closing Hfuel;
      [simpl in Hfuel; lia |].
    cbn [render_members] in Hfuel. simpl length in Hfuel. rewrite !length_app in Hfuel.
    cbn [_Parser._parse_object render_members denote_members]. rewrite <- !app_comm_cons.
    rewrite reading_check. cbn [Token.kind String.eqb Ascii.eqb Bool.eqb negb].
    rewrite reading_consume by reflexivity. cbn [mbind outcome_bind].
    rewrite reading_consume by reflexivity. cbn [mbind outcome_bind].
    rewrite <- !app_assoc. rewrite IHv by lia.
    destruct (denote v) as [x | e |]; cbn [mbind outcome_bind]; try reflexivity.
    cbn [Token.value].
    assert (Hnext : exists tok next,
              render_members rest ++ symbol "}" closing :: post = tok :: next /\
              String.eqb (Token.kind tok) "," = false).
    { destruct rest; cbn [render_members app]; eexists _, _; split; reflexivity. }
    destruct Hnext as (tok & next & Hnext & Hkind).
    rewrite Hnext, separator_at by auto. rewrite <- Hnext.
    rewrite IHrest by lia.
    repeat rewrite <- app_assoc. cbn [app]. reflexivity.
  - (* ENil *)
    intros [| fuel] pre post items closing Hfuel; [simpl in Hfuel; lia |].
    cbn [_Parser._parse_list render_elements app denote_elements].
    rewrite reading_check. cbn [symbol Token.kind String.eqb Ascii.eqb Bool.eqb negb].
    rewrite reading_consume by reflexivity. reflexivity.
  - (* ECons *)
    intros v IHv sep rest IHrest [| fuel] pre post items closing Hfuel;
      [simpl in Hfuel; lia |].
    cbn [render_elements] in Hfuel. rewrite !length_app in Hfuel.
    cbn [_Parser._parse_list render_elements denote_elements].
    destruct (render_starts_value v) as (tok0 & l0 & Hv & _ & _ & Hclose).
    assert (Hlen : (1 <= length (render v))%nat) by (rewrite Hv; simpl; lia).
    rewrite <- !app_assoc.
    assert (Hcheck : _Parser._check (reading pre (render v ++ render_sep sep ++ render_elements rest
                                          ++ symbol ")" closing :: post)) ")" = false).
    { rewrite Hv. cbn [app]. now rewrite reading_check. }
    rewrite Hcheck. cbn [negb].
    rewrite IHv by lia.
    destruct (denote v) as [x | e |]; cbn [mbind outcome_bind]; try reflexivity.
    assert (Hnext : exists tok next,
              render_elements rest ++ symbol ")" closing :: post = tok :: next /\
              String.eqb (Token.kind tok) "," = false).
    { destruct rest as [| v' sep' rest']; cbn [render_elements app].
      - eexists _, _; split; reflexivity.
      - destruct (render_starts_value v') as (tok' & l' & -> & Hcomma & _ & _).
        cbn [app]. eexists _, _; split; [reflexivity | assumption]. }
    destruct Hnext as (tok & next & Hnext & Hkind).
    rewrite Hnext, separator_at by auto. rewrite <- Hnext.
    rewrite IHrest by lia.
    repeat rewrite <- app_assoc. cbn [app]. reflexivity.
Qed.

Lemma parse_assignment key_pos key eq_pos t :
  _Parser.parse (_Parser.mk (assignment key_pos key eq_pos t) 0)
  = v ← denote t; Return [(key, v)].
Proof.
  unfold _Parser.parse, assignment. cbn [_Parser.tokens].
  set (k := Token.mk "IDENT" key key_pos). set (e := symbol "=" eq_pos).
  change (_Parser.mk (k :: e :: render t) 0) with (reading [] (k :: e :: render t)).
  assert (Hfuel : exists fuel, (2 * length (k :: e :: render t) + 2 = S (S fuel))%nat /\
                               (length (render t) < S fuel)%nat).
  { exists (2 * length (k :: e :: render t))%nat. simpl. lia. }
  destruct Hfuel as (fuel & -> & Hfuel).
  cbn [_Parser.parse_loop]. rewrite reading_not_at_end. cbn [negb].
  rewrite reading_consume by reflexivity. cbn [mbind outcome_bind].
  rewrite reading_consume by reflexivity. cbn [mbind outcome_bind].
  rewrite <- (app_nil_r (render t)) at 1.
  destruct parse_render as (Hv & _ & _). rewrite Hv by assumption.
  destruct (denote t) as [v | x |]; cbn [mbind outcome_bind]; try reflexivity.
  rewrite reading_at_end. reflexivity.
Qed.

Lemma object_a1_b2_tokens :
  Tokenizer.tokens (Tokenizer.init "{a=1 b=2}") = Return (render (object_a1_b2 None 6)) /\
  Tokenizer.tokens (Tokenizer.init "{a=1, b=2}")
  = Return (render (object_a1_b2 (Some (Position.mk 1 5)) 7)) /\
  denote (object_a1_b2 None 6) = Return (VDict [("a", VInt 1); ("b", VInt 2)]).
Proof. repeat split; vm_compute; reflexivity. Qed.

(** C8: the tokens of any derivation of the value grammar, in which each
    member and each element may or may not be followed by one comma (also
    before the closing bracket), parse to the value of the derivation, which
    is the same with every comma taken out, as the value of an assignment
    and wherever they stand in a token list; after each member or element
    the parser takes a comma if one is there and asks for none.  The claim's
    inputs, with and without commas, parse to equal values. *)
Theorem C8_optional_separators :
  (forall key_pos key eq_pos t,
     _Parser.parse (_Parser.mk (assignment key_pos key eq_pos t) 0)
     = (v ← denote t; Return [(key, v)]) /\
     _Parser.parse (_Parser.mk (assignment key_pos key eq_pos (no_separators t)) 0)
     = (v ← denote t; Return [(key, v)])) /\
  (forall t pre post,
     _Parser._parse_value (S (length (render t))) (reading pre (render t ++ post))
     = (v ← denote t; Return (v, reading (pre ++ render t) post)) /\
     denote (no_separators t) = denote t) /\
  (forall self,
     _Parser._consume_optional_separator self "}"
     = (if _Parser._check self "," then _Parser.step self else self) /\
     _Parser._consume_optional_separator self ")"
     = (if _Parser._check self "," then _Parser.step self else self)) /\
  parse_config "x={a=1 b=2}" = Return [("x", VDict [("a", VInt 1); ("b", VInt 2)])] /\
  parse_config "x={a=1, b=2}" = parse_config "x={a=1 b=2}" /\
  parse_config "x={a=1, b=2,}" = parse_config "x={a=1 b=2}" /\
  parse_config "x=(1 2)" = Return [("x", VList [VInt 1; VInt 2])] /\
  parse_config "x=(1, 2)" = parse_config "x=(1 2)" /\
  parse_config "x=(1, 2,)" = parse_config "x=(1 2)" /\
  parse_config "x=({a=(1,2) b={c=d}}, {a=(1 2,), b={c=d,},},)"
  = parse_config "x=({a=(1 2) b={c=d}} {a=(1 2) b={c=d}})".
Proof.
  split; [| split; [| split]].
  - intros key_pos key eq_pos t. split.
    + apply parse_assignment.
    + rewrite parse_assignment. destruct denote_no_separators as (H & _ & _).
      now rewrite H.
  - intros t pre post. split.
    + apply parse_render. lia.
    + apply denote_no_separators.
  - intros self. split; apply optional_separator_step; auto.
  - repeat split; vm_compute; reflexivity.
Qed.

(** ** Termination of the tokenizer

    Every loop is given more fuel than there are unread characters and
    consumes at least one character per turn, so none runs out of fuel. *)

Lemma unread_advance self newline :
  Tokenizer._eof self = false -> S (unread (Tokenizer._advance self newline)) = unread self.
Proof.
  unfold Tokenizer._eof, unread, Tokenizer._advance.
  destruct (Tokenizer.text self); simpl; [discriminate | reflexivity].
Qed.

Lemma consume_while_returns p fuel :
  forall literal self,
    (unread self < fuel)%nat ->
    exists lit self',
      Tokenizer._consume_while p fuel literal self = Return (lit, self') /\
      (unread self' <= unread self)%nat /\
      (negb (Tokenizer._eof self) && p (Tokenizer._peek self) = true ->
       (unread self' < unread self)%nat).
Proof.
  induction fuel as [| fuel IH]; intros literal self Hfuel; [lia |].
  cbn [Tokenizer._consume_while].
  destruct (negb (Tokenizer._eof self) && p (Tokenizer._peek self)) eqn:Hgo.
  - apply andb_true_iff in Hgo as [Heof _]. apply negb_true_iff in Heof.
    pose proof (unread_advance self false Heof) as Hadv.
    destruct (IH (literal ++ String (Tokenizer._peek self) EmptyString)%string
                (Tokenizer._advance self false))
      as (lit & self' & -> & Hle & _); [lia |].
    exists lit, self'. repeat split; [lia | intros _; lia].
  - exists literal, self. repeat split; [lia | discriminate].
Qed.

Lemma consume_comment_returns fuel :
  forall self,
    (unread self < fuel)%nat ->
    exists self',
      Tokenizer._consume_comment_loop fuel self = Return self' /\
      (unread self' <= unread self)%nat /\
      (negb (Tokenizer._eof self) && negb (Ascii.eqb (Tokenizer._peek self) newline) = true ->
       (unread self' < unread self)%nat).
Proof.
  induction fuel as [| fuel IH]; intros self Hfuel; [lia |].
  cbn [Tokenizer._consume_comment_loop].
  destruct (negb (Tokenizer._eof self) && negb (Ascii.eqb (Tokenizer._peek self) newline)) eqn:Hgo.
  - apply andb_true_iff in Hgo as [Heof _]. apply negb_true_iff in Heof.
    pose proof (unread_advance self false Heof) as Hadv.
    destruct (IH (Tokenizer._advance self false)) as (self' & -> & Hle & _); [lia |].
    exists self'. repeat split; [lia | intros _; lia].
  - exists self. repeat split; [lia | discriminate].
Qed.

Lemma consume_string_loop_returns fuel :
  forall start chars self,
    (unread self < fuel)%nat ->
    Tokenizer._consume_string_loop fuel start chars self <> OutOfFuel /\
    forall tok self',
      Tokenizer._consume_string_loop fuel start chars self = Return (tok, self') ->
      (unread self' < unread self)%nat.
Proof.
  induction fuel as [| fuel IH]; intros start chars self Hfuel; [lia |].
  cbn [Tokenizer._consume_string_loop].
  destruct (Tokenizer._eof self) eqn:Heof; [split; [discriminate | discriminate] |].
  pose proof (unread_advance self false Heof) as Hadv.
  destruct (Ascii.eqb (Tokenizer._peek self) dquote).
  - split; [discriminate |]. intros tok self' [= _ <-]. lia.
  - destruct (Ascii.eqb (Tokenizer._peek self) backslash).
    + destruct (Tokenizer._eof (Tokenizer._advance self false)) eqn:Heof2; [split; discriminate |].
      pose proof (unread_advance (Tokenizer._advance self false) false Heof2) as Hadv2.
      destruct (IH start
                  (chars
                   ++ String (Tokenizer._translate_escape
                                (Tokenizer._peek (Tokenizer._advance self false)))
                              EmptyString)%string
                  (Tokenizer._advance (Tokenizer._advance self false) false)) as [Hne Hlt]; [lia |].
      split; [exact Hne |]. intros tok self' H. apply Hlt in H. lia.
    + destruct (IH start (chars ++ String (Tokenizer._peek self) EmptyString)%string
                  (Tokenizer._advance self false)) as [Hne Hlt]; [lia |].
      split; [exact Hne |]. intros tok self' H. apply Hlt in H. lia.
Qed.

Lemma consume_string_returns self :
  Tokenizer._eof self = false ->
  Tokenizer._consume_string self <> OutOfFuel /\
  forall tok self', Tokenizer._consume_string self = Return (tok, self') ->
                    (unread self' < unread self)%nat.
Proof.
  intros Heof. pose proof (unread_advance self false Heof) as Hadv.
  unfold Tokenizer._consume_string, Tokenizer.fuel_of.
  destruct (consume_string_loop_returns (S (String.length (Tokenizer.text self)))
              (Tokenizer._position self) EmptyString (Tokenizer._advance self false))
    as [Hne Hlt]; [unfold unread in *; lia |].
  split; [exact Hne |]. intros tok self' H. apply Hlt in H. lia.
Qed.

Lemma consume_number_returns self :
  Tokenizer._eof self = false ->
  isdigit (Tokenizer._peek self) || Ascii.eqb (Tokenizer._peek self) "-" = true ->
  Tokenizer._consume_number self <> OutOfFuel /\
  forall tok self', Tokenizer._consume_number self = Return (tok, self') ->
                    (unread self' < unread self)%nat.
Proof.
  intros Heof Hstart. pose proof (unread_advance self false Heof) as Hadv.
  unfold Tokenizer._consume_number.
  assert (Hfirst : exists lit0 self0,
    (if Ascii.eqb (Tokenizer._peek self) "-"
     then (String (Tokenizer._peek self) EmptyString, Tokenizer._advance self false)
     else (EmptyString, self)) = (lit0, self0) /\
    (unread self0 <= unread self)%nat /\
    (unread self0 < unread self \/
     negb (Tokenizer._eof self0) && isdigit (Tokenizer._peek self0) = true)%nat).
  { destruct (Ascii.eqb (Tokenizer._peek self) "-") eqn:Hm.
    - eexists _, _. split; [reflexivity |]. split; [lia | left; lia].
    - eexists _, _. split; [reflexivity |]. split; [lia | right].
      rewrite Heof. rewrite orb_false_r in Hstart. now rewrite Hstart. }
  destruct Hfirst as (lit0 & self0 & -> & Hle0 & Hprog).
  destruct (consume_while_returns isdigit (Tokenizer.fuel_of self0) lit0 self0)
    as (lit1 & self1 & -> & Hle1 & Hlt1); [unfold Tokenizer.fuel_of, unread; lia |].
  cbn [mbind outcome_bind].
  assert (Hlt : (unread self1 < unread self)%nat)
    by (destruct Hprog as [H | H]; [lia | apply Hlt1 in H; lia]).
  destruct (negb (Tokenizer._eof self1) && Ascii.eqb (Tokenizer._peek self1) ".") eqn:Hpoint.
  - destruct (Tokenizer._eof (Tokenizer._advance self1 false)
              || negb (isdigit (Tokenizer._peek (Tokenizer._advance self1 false))));
      [split; discriminate |].
    apply andb_true_iff in Hpoint as [Heof1 _]. apply negb_true_iff in Heof1.
    pose proof (unread_advance self1 false Heof1) as Hadv1.
    destruct (consume_while_returns isdigit (Tokenizer.fuel_of (Tokenizer._advance self1 false))
                (lit1 ++ ".")%string (Tokenizer._advance self1 false))
      as (lit2 & self2 & -> & Hle2 & _); [unfold Tokenizer.fuel_of, unread; lia |].
    cbn [mbind outcome_bind]. split; [discriminate |].
    intros tok self' [= _ <-]. lia.
  - split; [discriminate |]. intros tok self' [= _ <-]. lia.
Qed.

Lemma consume_identifier_returns self :
  Tokenizer._eof self = false ->
  isalpha (Tokenizer._peek self) || Ascii.eqb (Tokenizer._peek self) "_" = true ->
  Tokenizer._consume_identifier self <> OutOfFuel /\
  forall tok self', Tokenizer._consume_identifier self = Return (tok, self') ->
                    (unread self' < unread self)%nat.
Proof.
  intros Heof Hstart. unfold Tokenizer._consume_identifier.
  destruct (consume_while_returns (fun c => isalnum c || Ascii.eqb c "_") (Tokenizer.fuel_of self)
              EmptyString self) as (lit & self1 & -> & _ & Hlt);
    [unfold Tokenizer.fuel_of, unread; lia |].
  cbn [mbind outcome_bind]. split; [discriminate |].
  intros tok self' [= _ <-]. apply Hlt. rewrite Heof. cbn [negb andb].
  unfold isalnum. apply orb_true_iff in Hstart as [H | H]; rewrite H; auto using orb_true_r.
Qed.

(** The main loop of the tokenizer never runs out of fuel. *)
Lemma tokens_loop_returns fuel :
  forall self result,
    (unread self < fuel)%nat -> Tokenizer.tokens_loop fuel self result <> OutOfFuel.
Proof.
  induction fuel as [| fuel IH]; intros self result Hfuel; [lia |].
  cbn [Tokenizer.tokens_loop].
  destruct (Tokenizer._eof self) eqn:Heof; [discriminate |].
  pose proof (unread_advance self false Heof) as Hadv.
  pose proof (unread_advance self true Heof) as Hadvn.
  destruct (contains (Tokenizer._peek self) (String " " (String tab (String cr EmptyString))));
    [apply IH; lia |].
  destruct (Ascii.eqb (Tokenizer._peek self) newline) eqn:Hnl; [apply IH; lia |].
  destruct (Ascii.eqb (Tokenizer._peek self) "#").
  { unfold Tokenizer._consume_comment.
    destruct (consume_comment_returns (Tokenizer.fuel_of self) self) as (self' & -> & _ & Hlt);
      [unfold Tokenizer.fuel_of, unread; lia |].
    cbn [mbind outcome_bind]. apply IH.
    assert ((unread self' < unread self)%nat) by (apply Hlt; now rewrite Heof, Hnl). lia. }
  destruct (Ascii.eqb (Tokenizer._peek self) dquote).
  { destruct (consume_string_returns self Heof) as [Hne Hlt].
    destruct (Tokenizer._consume_string self) as [[tok self'] | e |]; cbn [mbind outcome_bind];
      [| discriminate | congruence].
    apply IH. specialize (Hlt tok self' eq_refl). lia. }
  destruct (contains (Tokenizer._peek self) Tokenizer.SYMBOLS).
  { unfold Tokenizer._consume_symbol. apply IH. lia. }
  destruct (isdigit (Tokenizer._peek self)
            || Ascii.eqb (Tokenizer._peek self) "-" && isdigit (Tokenizer._peek_next self))
    eqn:Hnum.
  { assert (Hstart : isdigit (Tokenizer._peek self) || Ascii.eqb (Tokenizer._peek self) "-" = true).
    { apply orb_true_iff in Hnum as [H | H]; [now rewrite H |].
      apply andb_true_iff in H as [H _]. rewrite H. apply orb_true_r. }
    destruct (consume_number_returns self Heof Hstart) as [Hne Hlt].
    destruct (Tokenizer._consume_number self) as [[tok self'] | e |]; cbn [mbind outcome_bind];
      [| discriminate | congruence].
    apply IH. specialize (Hlt tok self' eq_refl). lia. }
  destruct (isalpha (Tokenizer._peek self) || Ascii.eqb (Tokenizer._peek self) "_") eqn:Hid;
    [| discriminate].
  destruct (consume_identifier_returns self Heof Hid) as [Hne Hlt].
  destruct (Tokenizer._consume_identifier self) as [[tok self'] | e |]; cbn [mbind outcome_bind];
    [| discriminate | congruence].
  apply IH. specialize (Hlt tok self' eq_refl). lia.
Qed.

Lemma tokens_returns self : Tokenizer.tokens self <> OutOfFuel.
Proof.
  unfold Tokenizer.tokens. apply tokens_loop_returns. unfold Tokenizer.fuel_of, unread. lia.
Qed.

(** ** Termination of the parser *)

Lemma check_step self kind : _Parser._check self kind = true -> further self (_Parser.step self).
Proof.
  unfold _Parser._check, _Parser._at_end, further, remaining, _Parser.step.
  cbn [_Parser.tokens _Parser.index].
  destruct (length (_Parser.tokens self) <=? _Parser.index self)%nat eqn:E; [discriminate |].
  apply Nat.leb_gt in E. intros _. split; [reflexivity | lia].
Qed.

Lemma match_further self kind :
  fst (_Parser._match self kind) = true -> further self (snd (_Parser._match self kind)).
Proof.
  unfold _Parser._match. destruct (_Parser._check self kind) eqn:E; [| discriminate].
  intros _. now apply check_step with (kind := kind).
Qed.

Lemma consume_further self kind tok self' :
  _Parser._consume self kind = Return (tok, self') -> further self self'.
Proof.
  unfold _Parser._consume. destruct (_Parser._check self kind) eqn:E; [| discriminate].
  intros [= _ <-]. now apply check_step with (kind := kind).
Qed.

Lemma consume_returns self kind : _Parser._consume self kind <> OutOfFuel.
Proof. unfold _Parser._consume. destruct (_Parser._check self kind); discriminate. Qed.

Lemma separator_not_before self stop :
  not_before self (_Parser._consume_optional_separator self stop).
Proof.
  unfold _Parser._consume_optional_separator, _Parser._match.
  destruct (_Parser._check self stop); [split; [reflexivity | lia] |].
  destruct (_Parser._check self ",") eqn:E; cbn [snd]; [| split; [reflexivity | lia]].
  apply check_step in E as [Ht Hr]. split; [assumption | lia].
Qed.

Lemma number_value_returns literal : _Parser.number_value literal <> OutOfFuel.
Proof.
  unfold _Parser.number_value.
  destruct (contains "." literal); [destruct (py_float literal) | destruct (py_int literal)];
    discriminate.
Qed.

(** With two units of fuel for each token left, and one more for a value
    or two more for a loop, no part of the descent runs out of fuel, and
    what returns has moved on in the same tokens. *)
Lemma descent_returns fuel :
  (forall self,
     (2 * remaining self < fuel)%nat ->
     _Parser._parse_value fuel self <> OutOfFuel /\
     forall v self', _Parser._parse_value fuel self = Return (v, self') -> further self self') /\
  (forall self data,
     (2 * remaining self + 1 < fuel)%nat ->
     _Parser._parse_object fuel self data <> OutOfFuel /\
     forall d self',
       _Parser._parse_object fuel self data = Return (d, self') -> further self self') /\
  (forall self items,
     (2 * remaining self + 1 < fuel)%nat ->
     _Parser._parse_list fuel self items <> OutOfFuel /\
     forall l self', _Parser._parse_list fuel self items = Return (l, self') -> further self self').
Proof.
  induction fuel as [| fuel (IHv & IHo & IHl)];
    [repeat split; intros; lia |].
  split; [| split].
  - (* _parse_value *)
    intros self Hfuel. cbn [_Parser._parse_value].
    pose proof (match_further self "STRING") as Hs.
    destruct (_Parser._match self "STRING") as [[] self1]; cbn [fst snd] in Hs.
    { split; [discriminate |]. intros v self' [= _ <-]. auto. }
    clear Hs self1. pose proof (match_further self "NUMBER") as Hn.
    destruct (_Parser._match self "NUMBER") as [[] self1]; cbn [fst snd] in Hn.
    { pose proof (number_value_returns (Token.value (_Parser._previous self1))) as Hnum.
      destruct (_Parser.number_value (Token.value (_Parser._previous self1)));
        cbn [mbind outcome_bind];
        [| split; discriminate | congruence].
      split; [discriminate |]. intros v self' [= _ <-]. auto. }
    clear Hn self1. pose proof (match_further self "IDENT") as Hi.
    destruct (_Parser._match self "IDENT") as [[] self1]; cbn [fst snd] in Hi.
    { split; [discriminate |]. intros v self' [= _ <-]. auto. }
    clear Hi self1. pose proof (match_further self "{") as Ho.
    destruct (_Parser._match self "{") as [[] self1]; cbn [fst snd] in Ho.
    { destruct (Ho eq_refl) as [Ht Hr].
      destruct (IHo self1 []) as [Hne Hf]; [lia |].
      destruct (_Parser._parse_object fuel self1 []) as [[d self2] | e |]; cbn [mbind outcome_bind];
        [| split; discriminate | congruence].
      split; [discriminate |]. intros v self' [= _ <-].
      destruct (Hf d self2 eq_refl) as [Ht2 Hr2]. split; [congruence | lia]. }
    clear Ho self1. pose proof (match_further self "(") as Hl.
    destruct (_Parser._match self "(") as [[] self1]; cbn [fst snd] in Hl.
    { destruct (Hl eq_refl) as [Ht Hr].
      destruct (IHl self1 []) as [Hne Hf]; [lia |].
      destruct (_Parser._parse_list fuel self1 []) as [[l self2] | e |]; cbn [mbind outcome_bind];
        [| split; discriminate | congruence].
      split; [discriminate |]. intros v self' [= _ <-].
      destruct (Hf l self2 eq_refl) as [Ht2 Hr2]. split; [congruence | lia]. }
    split; discriminate.
  - (* _parse_object *)
    intros self data Hfuel. cbn [_Parser._parse_object].
    destruct (negb (_Parser._check self "}")).
    + pose proof (consume_returns self "IDENT") as Hk.
      pose proof (consume_further self "IDENT") as Hkf.
      destruct (_Parser._consume self "IDENT") as [[key self1] | e |]; cbn [mbind outcome_bind];
        [| split; discriminate | congruence].
      destruct (Hkf key self1 eq_refl) as [Ht1 Hr1].
      pose proof (consume_returns self1 "=") as He.
      pose proof (consume_further self1 "=") as Hef.
      destruct (_Parser._consume self1 "=") as [[eq self2] | e |]; cbn [mbind outcome_bind];
        [| split; discriminate | congruence].
      destruct (Hef eq self2 eq_refl) as [Ht2 Hr2].
      destruct (IHv self2) as [Hne Hf]; [lia |].
      destruct (_Parser._parse_value fuel self2) as [[v self3] | e |]; cbn [mbind outcome_bind];
        [| split; discriminate | congruence].
      destruct (Hf v self3 eq_refl) as [Ht3 Hr3].
      destruct (separator_not_before self3 "}") as [Ht4 Hr4].
      destruct (IHo (_Parser._consume_optional_separator self3 "}")
                  (dict_set data (Token.value key) v)) as [Hne5 Hf5]; [lia |].
      split; [exact Hne5 |]. intros d self' H.
      destruct (Hf5 d self' H) as [Ht5 Hr5]. split; [congruence | lia].
    + pose proof (consume_returns self "}") as Hk.
      pose proof (consume_further self "}") as Hkf.
      destruct (_Parser._consume self "}") as [[tok self1] | e |]; cbn [mbind outcome_bind];
        [| split; discriminate | congruence].
      split; [discriminate |]. intros d self' [= _ <-]. eauto.
  - (* _parse_list *)
    intros self items Hfuel. cbn [_Parser._parse_list].
    destruct (negb (_Parser._check self ")")).
    + destruct (IHv self) as [Hne Hf]; [lia |].
      destruct (_Parser._parse_value fuel self) as [[v self3] | e |]; cbn [mbind outcome_bind];
        [| split; discriminate | congruence].
      destruct (Hf v self3 eq_refl) as [Ht3 Hr3].
      destruct (separator_not_before self3 ")") as [Ht4 Hr4].
      destruct (IHl (_Parser._consume_optional_separator self3 ")") (items ++ [v])%list)
        as [Hne5 Hf5]; [lia |].
      split; [exact Hne5 |]. intros l self' H.
      destruct (Hf5 l self' H) as [Ht5 Hr5]. split; [congruence | lia].
    + pose proof (consume_returns self ")") as Hk.
      pose proof (consume_further self ")") as Hkf.
      destruct (_Parser._consume self ")") as [[tok self1] | e |]; cbn [mbind outcome_bind];
        [| split; discriminate | congruence].
      split; [discriminate |]. intros l self' [= _ <-]. eauto.
Qed.

Lemma parse_loop_returns fuel :
  forall self config,
    (2 * remaining self + 1 < fuel)%nat -> _Parser.parse_loop fuel self config <> OutOfFuel.
Proof.
  induction fuel as [| fuel IH]; intros self config Hfuel; [lia |].
  cbn [_Parser.parse_loop]. destruct (negb (_Parser._at_end self)); [| discriminate].
  pose proof (consume_returns self "IDENT") as Hk.
  pose proof (consume_further self "IDENT") as Hkf.
  destruct (_Parser._consume self "IDENT") as [[key self1] | e |]; cbn [mbind outcome_bind];
    [| discriminate | congruence].
  destruct (Hkf key self1 eq_refl) as [Ht1 Hr1].
  pose proof (consume_returns self1 "=") as He.
  pose proof (consume_further self1 "=") as Hef.
  destruct (_Parser._consume self1 "=") as [[eq self2] | e |]; cbn [mbind outcome_bind];
    [| discriminate | congruence].
  destruct (Hef eq self2 eq_refl) as [Ht2 Hr2].
  destruct (descent_returns fuel) as (Hv & _ & _).
  destruct (Hv self2) as [Hne Hf]; [lia |].
  destruct (_Parser._parse_value fuel self2) as [[v self3] | e |]; cbn [mbind outcome_bind];
    [| discriminate | congruence].
  destruct (Hf v self3 eq_refl) as [Ht3 Hr3]. apply IH. lia.
Qed.

(** Parsing a text always ends: with a root object or with an exception. *)
Lemma parse_config_returns text : parse_config text <> OutOfFuel.
Proof.
  unfold parse_config. pose proof (tokens_returns (Tokenizer.init text)) as Ht.
  destruct (Tokenizer.tokens (Tokenizer.init text)) as [toks | e |];
    cbn [mbind outcome_bind]; [| discriminate | congruence].
  unfold _Parser.parse. apply parse_loop_returns. unfold remaining.
  cbn [_Parser.tokens _Parser.index]. lia.
Qed.

(** * Further properties *)

(** ** The engine *)

(** The engine yields the findings of its rules in registration order: the
    findings of a list of rules followed by another list are those of the
    first list, then those of the second; a rule that raises ends the run
    with what was yielded up to there, and no later rule is run. *)
Theorem engine_runs_rules_in_order rs1 rs2 config :
  run {| rules := rs1 ++ rs2 |} config
  = match raised (run {| rules := rs1 |} config) with
    | None => yield_then (yielded (run {| rules := rs1 |} config))
                (run {| rules := rs2 |} config)
    | Some _ => run {| rules := rs1 |} config
    end.
Proof.
  unfold run. cbn [rules]. induction rs1 as [| r rs1 IH]; cbn [app run_loop].
  - cbn [done raised yielded]. unfold yield_then. now destruct (run_loop rs2 config).
  - destruct (raised (check r config)) eqn:Hr.
    + now rewrite Hr.
    + rewrite IH. cbn [yield_then raised].
      destruct (raised (run_loop rs1 config)); [reflexivity |].
      now rewrite yield_then_assoc.
Qed.

(** ** When the mysql_servers rule raises *)

Lemma raised_yield_then fs g : raised (yield_then fs g) = raised g.
Proof. reflexivity. Qed.

Lemma hashable_py_or addr :
  hashable (py_or addr (VStr "")) = hashable addr || negb (truthy addr).
Proof.
  destruct addr as [s | n | f | b | | d | vs]; unfold py_or; simpl;
    try (now destruct (nonempty s)); try (now destruct (negb (n =? 0)));
    try (now destruct (negb (PrimFloat.eqb f 0))); try (now destruct b);
    try (now destruct d); try (now destruct vs); reflexivity.
Qed.

Lemma servers_loop_raises_iff servers :
  forall index seen,
    raised (servers_loop index seen servers) = None
    <-> forallb (fun v => negb (raising_entry v)) servers = true.
Proof.
  induction servers as [| e servers IH]; intros index seen; [simpl; tauto |].
  destruct e as [s | n | f | b | | d | vs];
    try (cbn [servers_loop forallb raising_entry negb andb];
         rewrite raised_yield_then; apply IH).
  cbn [servers_loop forallb raising_entry]. rewrite raised_yield_then.
  cbn [server_key fst]. rewrite hashable_py_or.
  destruct (builtin._coerce_int (dict_get d "port")) as [p |];
    destruct (builtin._coerce_int (dict_get d "hostgroup")) as [h |];
    destruct (dict_get d "address") as [s | n | f | b | | d' | vs];
    cbn [hashable orb negb andb]; rewrite ?andb_false_r; cbn [negb andb];
    try apply IH; try (rewrite raised_yield_then; apply IH).
  - destruct (truthy (VDict d')); cbn [negb andb];
      [split; discriminate | rewrite raised_yield_then; apply IH].
  - destruct (truthy (VList vs)); cbn [negb andb];
      [split; discriminate | rewrite raised_yield_then; apply IH].
Qed.

(** The mysql_servers rule raises exactly when some entry of mysql_servers
    is an object whose address is a non-empty list or object and whose port
    and hostgroup both coerce to integers; on every other config it returns. *)
Theorem servers_rule_raises_iff config :
  raised (check MysqlServersRule config) = None
  <-> forallb (fun v => negb (raising_entry v)) (get_list config "mysql_servers") = true.
Proof.
  cbn [check MysqlServersRule]. unfold MysqlServers_check.
  destruct (get_list config "mysql_servers") as [| e l] eqn:E; [simpl; tauto |].
  apply servers_loop_raises_iff.
Qed.

Lemma run_loop_raises_iff rs config :
  raised (run_loop rs config) = None
  <-> Forall (fun r => raised (check r config) = None) rs.
Proof.
  induction rs as [| r rs IH]; simpl.
  - split; [constructor | reflexivity].
  - destruct (raised (check r config)) eqn:Hr.
    + rewrite Hr. split; [discriminate |]. intros H. inversion H; congruence.
    + rewrite raised_yield_then, IH. split.
      * intros H. now constructor.
      * intros H. now inversion H.
Qed.

Lemma engine_raised_none config :
  raised (run engine config) = None
  <-> forallb (fun v => negb (raising_entry v)) (get_list config "mysql_servers") = true.
Proof.
  rewrite <- servers_rule_raises_iff.
  unfold engine, run. cbn [rules]. rewrite run_loop_raises_iff. split.
  - intros H. rewrite List.Forall_forall in H. apply H.
    unfold builtin_rules. simpl. auto.
  - intros H. apply List.Forall_forall. intros r Hr.
    destruct (String.eqb (slug r) "mysql_servers") eqn:E.
    + unfold builtin_rules in Hr. simpl in Hr.
      destruct Hr as [<- | [<- | [<- | [<- | [<- | [<- | []]]]]]];
        try discriminate E. exact H.
    + apply other_rules_never_raise; [exact Hr |].
      intros Heq. rewrite Heq in E. discriminate E.
Qed.

Lemma servers_loop_raises_type_error servers :
  forall index seen e,
    raised (servers_loop index seen servers) = Some e -> exists m, e = TypeError m.
Proof.
  induction servers as [| x servers IH]; intros index seen e; [discriminate |].
  destruct x as [s | n | f | b | | d | vs];
    try (cbn [servers_loop]; rewrite raised_yield_then; apply IH).
  cbn [servers_loop]. rewrite raised_yield_then.
  destruct (dict_get d "address"); destruct (builtin._coerce_int (dict_get d "port"));
    destruct (builtin._coerce_int (dict_get d "hostgroup")); try apply IH;
    (destruct (hashable _); [rewrite raised_yield_then; apply IH |]);
    cbn [throw raised]; intros [= <-]; eauto.
Qed.

Lemma run_loop_raised rs config e :
  raised (run_loop rs config) = Some e ->
  exists r, In r rs /\ raised (check r config) = Some e.
Proof.
  induction rs as [| r rs IH]; [discriminate |]. cbn [run_loop].
  destruct (raised (check r config)) as [e' |] eqn:Hr.
  - rewrite Hr. intros [= <-]. exists r. split; [now left | exact Hr].
  - rewrite raised_yield_then. intros H. destruct (IH H) as (r' & Hin & Hr').
    exists r'. split; [now right | exact Hr'].
Qed.

Lemma engine_raises_type_error config e :
  raised (run engine config) = Some e -> exists m, e = TypeError m.
Proof.
  intros H. apply run_loop_raised in H as (r & Hin & Hr).
  destruct (String.eqb (slug r) "mysql_servers") eqn:E.
  - cbn [rules engine] in Hin. unfold builtin_rules in Hin. simpl in Hin.
    destruct Hin as [<- | [<- | [<- | [<- | [<- | [<- | []]]]]]]; try discriminate E.
    cbn [check MysqlServersRule] in Hr. unfold MysqlServers_check in Hr.
    destruct (get_list config "mysql_servers"); [discriminate Hr |].
    now apply servers_loop_raises_type_error in Hr.
  - rewrite other_rules_never_raise in Hr; [discriminate Hr | exact Hin |].
    intros Heq. rewrite Heq in E. discriminate E.
Qed.

(** The engine over the built-in rules runs to the end on exactly the
    configs on which the mysql_servers rule does, that is, unless some
    mysql_servers entry has a non-empty list or object as address next to a
    coercible port and hostgroup: no other rule raises, and what is raised
    is a [TypeError]. *)
Theorem engine_raises_iff config :
  (raised (run engine config) = None
   <-> forallb (fun v => negb (raising_entry v)) (get_list config "mysql_servers") = true)
  /\ forall e, raised (run engine config) = Some e -> exists m, e = TypeError m.
Proof.
  split; [apply engine_raised_none | apply engine_raises_type_error].
Qed.

(** ** Hostgroups *)

Lemma hostgroups_loop_spec entries :
  forall groups x,
    x ∈ hostgroups_loop groups entries
    <-> x ∈ groups \/ exists e, In e entries /\ entry_hostgroup e = Some x.
Proof.
  induction entries as [| e entries IH]; intros groups x; simpl.
  - split; [now left | intros [H | (e & [] & _)]; exact H].
  - destruct (entry_hostgroup e) as [hg |] eqn:E; rewrite IH.
    + rewrite elem_of_union, elem_of_singleton. split.
      * intros [[-> | H] | (e' & Hin & He')].
        -- right. exists e. now split; [left |].
        -- now left.
        -- right. exists e'. now split; [right |].
      * intros [H | (e' & [<- | Hin] & He')].
        -- left. now right.
        -- left. left. congruence.
        -- right. now exists e'.
    + split.
      * intros [H | (e' & Hin & He')]; [now left |].
        right. exists e'. now split; [right |].
      * intros [H | (e' & [<- | Hin] & He')]; [now left | congruence |].
        right. now exists e'.
Qed.

(** The declared hostgroups are exactly the integers to which the hostgroup
    of some object entry of mysql_servers coerces: an entry that is not an
    object, or whose hostgroup is missing or does not coerce, declares
    none, and nothing else about the entry (a bad address or port, a
    negative hostgroup) keeps it out. *)
Theorem hostgroups_declared config x :
  x ∈ hostgroups config
  <-> exists d, In (VDict d) (get_list config "mysql_servers")
                /\ config_model._coerce_int (dict_get d "hostgroup") = Some x.
Proof.
  unfold hostgroups. rewrite hostgroups_loop_spec. split.
  - intros [H | (e & Hin & He)]; [now apply not_elem_of_empty in H |].
    destruct e as [| | | | | d |]; try discriminate He. now exists d.
  - intros (d & Hin & Hd). right. now exists (VDict d).
Qed.

(** ** Findings name their rule *)

Lemma Forall_when (P : Finding -> Prop) b f : P f -> List.Forall P (when b f).
Proof. intros H. destruct b; simpl; auto. Qed.

Lemma servers_loop_rule servers :
  forall index seen,
    List.Forall (attributed "mysql_servers")
      (yielded (servers_loop index seen servers)).
Proof.
  induction servers as [| e servers IH]; intros index seen; [constructor |].
  destruct e as [s | n | f | b | | d | vs];
    try (cbn [servers_loop]; rewrite yielded_yield_then; apply List.Forall_app;
         split; [repeat constructor | apply IH]).
  cbn [servers_loop]. rewrite yielded_yield_then. apply List.Forall_app. split.
  - unfold server_field_findings.
    repeat (apply List.Forall_app; split); apply Forall_when; now split.
  - destruct (dict_get d "address"); destruct (builtin._coerce_int (dict_get d "port"));
      destruct (builtin._coerce_int (dict_get d "hostgroup")); try apply IH;
      (destruct (hashable _); [| constructor]);
      rewrite yielded_yield_then; (apply List.Forall_app; split;
        [apply Forall_when; now split | apply IH]).
Qed.

Lemma users_loop_rule hostgroups users :
  forall index, List.Forall (attributed "mysql_users") (users_loop hostgroups index users).
Proof.
  induction users as [| e users IH]; intros index; [constructor |].
  cbn [users_loop]. apply List.Forall_app. split; [| apply IH].
  destruct e; try (repeat constructor). cbn [user_entry_findings].
  repeat (apply List.Forall_app; split); try (apply Forall_when; now split).
  destruct (builtin._coerce_int _); [apply Forall_when; now split | repeat constructor].
Qed.

Lemma query_rule_tail_rule hostgroups index entry :
  List.Forall (attributed "mysql_query_rules") (query_rule_tail hostgroups index entry).
Proof.
  unfold query_rule_tail. apply List.Forall_app. split.
  - destruct (builtin._coerce_int _); [apply Forall_when; now split | constructor].
  - apply Forall_when; now split.
Qed.

Lemma query_rules_loop_rule hostgroups rules :
  forall index seen_ids,
    List.Forall (attributed "mysql_query_rules")
      (query_rules_loop hostgroups index seen_ids rules).
Proof.
  induction rules as [| e rules IH]; intros index seen_ids; [constructor |].
  destruct e as [s | n | f | b | | d | vs];
    try (cbn [query_rules_loop]; constructor; [now split | apply IH]).
  cbn [query_rules_loop].
  destruct (builtin._coerce_int (dict_get d "rule_id")) as [rid |].
  - destruct (bool_decide (rid ∈ seen_ids)).
    + constructor; [now split |]. apply List.Forall_app. split;
        [apply query_rule_tail_rule | apply IH].
    + apply List.Forall_app. split; [apply query_rule_tail_rule | apply IH].
  - constructor; [now split |]. apply List.Forall_app. split;
      [apply query_rule_tail_rule | apply IH].
Qed.

(** Every finding a built-in rule yields, on any config, carries the slug
    of that rule in its rule field, and no location. *)
Theorem findings_carry_rule_slug config :
  List.Forall (fun r => List.Forall (attributed (slug r))
                          (yielded (check r config)))
    builtin_rules.
Proof.
  unfold builtin_rules. repeat constructor.
  - cbn [check RequiredBlocksRule slug]. unfold RequiredBlocks_check. cbn [yielded done].
    apply List.Forall_forall. intros f Hf. apply in_map_iff in Hf.
    destruct Hf as (name & <- & _). now split.
  - cbn [check AdminCredentialsRule slug]. unfold AdminCredentials_check. cbn [yielded done].
    apply List.Forall_app. split; [apply Forall_when; now split |].
    destruct (str_and _ _); repeat constructor.
  - cbn [check MysqlServersRule slug]. unfold MysqlServers_check.
    destruct (get_list config "mysql_servers") eqn:E; [repeat constructor |].
    apply servers_loop_rule.
  - apply users_loop_rule.
  - apply query_rules_loop_rule.
  - cbn [check DatadirRule slug]. unfold Datadir_check.
    destruct (dict_get (raw config) "datadir") as [s | | | | | |];
      try (repeat constructor).
    destruct (nonempty (strip s)); [apply Forall_when; now split | repeat constructor].
Qed.

(** ** References to hostgroups *)

Lemma user_finding_inj i j t u : user_finding i t = user_finding j u -> i = j /\ t = u.
Proof.
  unfold user_finding, mkFinding, users_prefix, index_of. intros H.
  injection H as H1 H2. apply Nat2Z.inj in H1. now split.
Qed.

Lemma set_nonempty_iff (s : gset Z) : set_nonempty s = true <-> s <> ∅.
Proof.
  unfold set_nonempty. rewrite negb_true_iff, bool_decide_eq_false. tauto.
Qed.

Lemma missing_iff (s : gset Z) (x : Z) :
  set_nonempty s && negb (bool_decide (x ∈ s)) = true <-> s <> ∅ /\ x ∉ s.
Proof.
  rewrite andb_true_iff, set_nonempty_iff, negb_true_iff, bool_decide_eq_false. tauto.
Qed.

Lemma In_when b (f g : Finding) : In f (when b g) <-> b = true /\ g = f.
Proof. destruct b; simpl; intuition discriminate. Qed.

Lemma user_entry_dangling hgs i j hg e :
  In (user_finding i [Lit " references missing hostgroup "; Fmt (VInt hg)])
     (user_entry_findings hgs j e)
  <-> j = i /\ exists d, e = VDict d
        /\ builtin._coerce_int (dict_get d "default_hostgroup") = Some hg
        /\ hgs <> ∅ /\ hg ∉ hgs.
Proof.
  destruct e as [s | n | f | b | | d | vs]; cbn [user_entry_findings];
    try (split; [intros [H | []]; apply user_finding_inj in H; destruct H; discriminate
                | intros (_ & d & H & _); discriminate]).
  rewrite !in_app_iff, !In_when. split.
  - intros [(_ & H) | [(_ & H) | H]];
      try (apply user_finding_inj in H; destruct H; discriminate).
    destruct (builtin._coerce_int (dict_get d "default_hostgroup")) as [h |] eqn:Hc.
    + apply In_when in H. destruct H as (Hm & H). apply user_finding_inj in H.
      destruct H as (-> & H). injection H as ->. apply missing_iff in Hm.
      destruct Hm as (Hne & Hnot). split; [reflexivity |]. exists d. repeat split; assumption.
    + destruct H as [H | []]. apply user_finding_inj in H. destruct H; discriminate.
  - intros (-> & d' & Hd & Hc & Hne & Hnot). injection Hd as <-. right. right.
    rewrite Hc. apply In_when. split; [now apply missing_iff | reflexivity].
Qed.

Lemma users_loop_dangling hgs i hg users :
  forall base,
    In (user_finding i [Lit " references missing hostgroup "; Fmt (VInt hg)])
       (users_loop hgs base users)
    <-> (base <= i)%nat /\ exists d, nth_error users (i - base) = Some (VDict d)
          /\ builtin._coerce_int (dict_get d "default_hostgroup") = Some hg
          /\ hgs <> ∅ /\ hg ∉ hgs.
Proof.
  induction users as [| e users IH]; intros base; cbn [users_loop].
  - split; [intros [] | intros (_ & d & H & _)]. now destruct (i - base)%nat.
  - rewrite in_app_iff, user_entry_dangling, IH. split.
    + intros [(-> & d & -> & H) | (Hle & d & Hn & H)].
      * split; [lia |]. exists d. rewrite Nat.sub_diag. now split.
      * split; [lia |]. exists d. split; [| exact H].
        replace (i - base)%nat with (S (i - S base)) by lia. exact Hn.
    + intros (Hle & d & Hn & H). destruct (Nat.eq_dec base i) as [-> | Hne].
      * left. split; [reflexivity |]. exists d. rewrite Nat.sub_diag in Hn.
        injection Hn as ->. now split.
      * right. split; [lia |]. exists d. split; [| exact H].
        replace (i - base)%nat with (S (i - S base)) in Hn by lia. exact Hn.
Qed.

(** The mysql_users rule reports that entry i references the missing
    hostgroup hg exactly when entry i is an object whose default_hostgroup
    coerces to hg, at least one hostgroup is declared by mysql_servers, and
    hg is not among them.  With no hostgroup declared at all, no reference
    is reported as missing. *)
Theorem users_missing_hostgroup config i hg :
  In (user_finding i [Lit " references missing hostgroup "; Fmt (VInt hg)])
     (yielded (check MysqlUsersRule config))
  <-> exists d, nth_error (get_list config "mysql_users") i = Some (VDict d)
        /\ builtin._coerce_int (dict_get d "default_hostgroup") = Some hg
        /\ hostgroups config <> ∅ /\ hg ∉ hostgroups config.
Proof.
  cbn [check MysqlUsersRule]. unfold MysqlUsers_check. cbn [yielded done].
  rewrite users_loop_dangling, Nat.sub_0_r. split.
  - now intros (_ & H).
  - intros H. split; [lia | exact H].
Qed.

Lemma query_rule_finding_inj i j t u s s' :
  query_rule_finding i t s = query_rule_finding j u s' -> i = j /\ t = u.
Proof.
  unfold query_rule_finding, mkFinding, query_rules_prefix, index_of. intros H.
  injection H as H1 H2. apply Nat2Z.inj in H1. now split.
Qed.

Lemma query_rule_tail_dangling hgs i j hg d :
  In (query_rule_finding i [Lit " references missing hostgroup "; Fmt (VInt hg)] ERROR)
     (query_rule_tail hgs j d)
  <-> j = i /\ builtin._coerce_int (dict_get d "destination_hostgroup") = Some hg
      /\ hgs <> ∅ /\ hg ∉ hgs.
Proof.
  unfold query_rule_tail. rewrite in_app_iff, In_when. split.
  - intros [H | (_ & H)];
      [| apply query_rule_finding_inj in H; destruct H; discriminate].
    destruct (builtin._coerce_int (dict_get d "destination_hostgroup")) as [h |] eqn:Hc;
      [| destruct H].
    apply In_when in H. destruct H as (Hm & H). apply query_rule_finding_inj in H.
    destruct H as (-> & H). injection H as ->. apply missing_iff in Hm.
    destruct Hm. repeat split; assumption.
  - intros (-> & Hc & Hne & Hnot). left. rewrite Hc. apply In_when.
    split; [now apply missing_iff | reflexivity].
Qed.

Lemma query_rules_loop_dangling hgs i hg rules :
  forall base seen_ids,
    In (query_rule_finding i [Lit " references missing hostgroup "; Fmt (VInt hg)] ERROR)
       (query_rules_loop hgs base seen_ids rules)
    <-> (base <= i)%nat /\ exists d, nth_error rules (i - base) = Some (VDict d)
          /\ builtin._coerce_int (dict_get d "destination_hostgroup") = Some hg
          /\ hgs <> ∅ /\ hg ∉ hgs.
Proof.
  induction rules as [| e rules IH]; intros base seen_ids.
  - split; [intros [] | intros (_ & d & H & _)]. now destruct (i - base)%nat.
  - assert (Hstep : forall seen,
      (In (query_rule_finding i [Lit " references missing hostgroup "; Fmt (VInt hg)] ERROR)
          (match e with VDict d => query_rule_tail hgs base d | _ => [] end)
       \/ In (query_rule_finding i [Lit " references missing hostgroup "; Fmt (VInt hg)] ERROR)
            (query_rules_loop hgs (S base) seen rules))
      <-> (base <= i)%nat /\ exists d, nth_error (e :: rules) (i - base) = Some (VDict d)
            /\ builtin._coerce_int (dict_get d "destination_hostgroup") = Some hg
            /\ hgs <> ∅ /\ hg ∉ hgs).
    { intros seen. rewrite IH. split.
      - intros [H | (Hle & d & Hn & H)].
        + destruct e as [| | | | | d |]; try destruct H.
          apply query_rule_tail_dangling in H. destruct H as (-> & H).
          split; [lia |]. exists d. rewrite Nat.sub_diag. now split.
        + split; [lia |]. exists d. split; [| exact H].
          replace (i - base)%nat with (S (i - S base)) by lia. exact Hn.
      - intros (Hle & d & Hn & H). destruct (Nat.eq_dec base i) as [-> | Hne].
        + left. rewrite Nat.sub_diag in Hn.
          injection Hn as ->. now apply query_rule_tail_dangling.
        + right. split; [lia |]. exists d. split; [| exact H].
          replace (i - base)%nat with (S (i - S base)) in Hn by lia. exact Hn. }
    destruct e as [s | n | f | b | | d | vs];
      try (rewrite <- (Hstep seen_ids); cbn [query_rules_loop In]; split;
           [intros [H | H];
              [apply query_rule_finding_inj in H; destruct H; discriminate | now right]
           | intros [[] | H]; now right]).
    cbn [query_rules_loop].
    destruct (builtin._coerce_int (dict_get d "rule_id")) as [rid |].
    + destruct (bool_decide (rid ∈ seen_ids)).
      * rewrite <- (Hstep seen_ids). cbn [In]. rewrite in_app_iff. split.
        -- intros [H | [H | H]]; [discriminate H | now left | now right].
        -- intros [H | H]; [right; now left | right; now right].
      * rewrite <- (Hstep ({[ rid ]} ∪ seen_ids)). rewrite in_app_iff. split.
        -- intros [H | H]; [now left | now right].
        -- intros [H | H]; [now left | now right].
    + rewrite <- (Hstep seen_ids). cbn [In]. rewrite in_app_iff. split.
      * intros [H | [H | H]]; [| now left | now right].
        apply query_rule_finding_inj in H. destruct H; discriminate.
      * intros [H | H]; [right; now left | right; now right].
Qed.

(** The mysql_query_rules rule reports that entry i references the missing
    hostgroup hg exactly when entry i is an object whose
    destination_hostgroup coerces to hg, at least one hostgroup is declared
    by mysql_servers, and hg is not among them; whether the entry's rule_id
    is valid or repeated plays no part.  With no hostgroup declared at all,
    no reference is reported as missing. *)
Theorem query_rules_missing_hostgroup config i hg :
  In (query_rule_finding i [Lit " references missing hostgroup "; Fmt (VInt hg)] ERROR)
     (yielded (check MysqlQueryRulesRule config))
  <-> exists d, nth_error (get_list config "mysql_query_rules") i = Some (VDict d)
        /\ builtin._coerce_int (dict_get d "destination_hostgroup") = Some hg
        /\ hostgroups config <> ∅ /\ hg ∉ hostgroups config.
Proof.
  cbn [check MysqlQueryRulesRule]. unfold MysqlQueryRules_check. cbn [yielded done].
  rewrite query_rules_loop_dangling, Nat.sub_0_r. split.
  - now intros (_ & H).
  - intros H. split; [lia | exact H].
Qed.

(** ** The datadir and admin rules *)

Lemma lstrip_nonempty_of_head c r : isspace c = false -> lstrip_by isspace (String c r) = String c r.
Proof. intros H. simpl. now rewrite H. Qed.

Lemma strip_keeps_head c r : isspace c = false -> nonempty (strip (String c r)) = true.
Proof.
  intros H. unfold strip. rewrite lstrip_nonempty_of_head by exact H.
  destruct (rstrip_keeps_head isspace c r H) as (r' & ->). reflexivity.
Qed.

(** The datadir rule is silent exactly when datadir is a string that starts
    with a slash.  On every other config (datadir missing, not a string,
    blank, or a relative path) it yields exactly one finding, a warning. *)
Theorem datadir_rule_findings config :
  (yielded (check DatadirRule config) = []
   <-> exists rest, dict_get (raw config) "datadir" = VStr (String "/" rest))
  /\ (yielded (check DatadirRule config) = []
      \/ exists m, yielded (check DatadirRule config) = [mkFinding "datadir" m WARNING]).
Proof.
  cbn [check DatadirRule]. unfold Datadir_check.
  destruct (dict_get (raw config) "datadir") as [s | | | | | |];
    try (split; [split; [discriminate | intros (rest & H); discriminate]
                | right; eexists; reflexivity]).
  destruct s as [| c r].
  - split; [split; [discriminate | intros (rest & H); discriminate]
           | right; eexists; reflexivity].
  - destruct (Ascii.eqb c "/") eqn:Ec.
    + apply Ascii.eqb_eq in Ec. subst c.
      rewrite strip_keeps_head by reflexivity. cbn.
      split; [split; [now exists r | reflexivity] | now left].
    + assert (Hne : forall rest, VStr (String c r) <> VStr (String "/" rest)).
      { intros rest H. injection H as -> _. discriminate Ec. }
      destruct (nonempty (strip (String c r))); cbn [yielded done is_absolute when negb];
        rewrite ?Ec; cbn [negb];
        (split; [split; [discriminate | intros (rest & H); now apply Hne in H]
                | right; eexists; reflexivity]).
Qed.

Lemma contains_app c a b : contains c (a ++ b) = contains c a || contains c b.
Proof.
  induction a as [| x a IH]; simpl; [reflexivity |]. now rewrite IH, orb_assoc.
Qed.

Lemma contains_split c s : contains c s = true <-> exists a b, s = (a ++ String c b)%string.
Proof.
  split.
  - induction s as [| x s IH]; simpl; [discriminate |].
    destruct (Ascii.eqb x c) eqn:E.
    + apply Ascii.eqb_eq in E. subst x. intros _. now exists EmptyString, s.
    + simpl. intros H. destruct (IH H) as (a & b & ->). now exists (String x a), b.
  - intros (a & b & ->). rewrite contains_app. simpl. rewrite Ascii.eqb_refl.
    simpl. apply orb_true_r.
Qed.

Lemma all_of_app p a b : all_of p a -> all_of p b -> all_of p (a ++ b).
Proof.
  intros Ha Hb c Hc. rewrite contains_app in Hc.
  apply orb_true_iff in Hc as [Hc | Hc]; auto.
Qed.

(** [s.strip()] is empty exactly when [s] holds only whitespace. *)
Lemma strip_blank s : nonempty (strip s) = false <-> all_of isspace s.
Proof.
  unfold strip. split.
  - intros H. destruct (lstrip_split isspace s) as (l & Hl & Hsp).
    destruct (rstrip_split isspace (lstrip_by isspace s)) as (r & Hr & Hspr).
    destruct (rstrip_by isspace (lstrip_by isspace s)); [| discriminate H].
    simpl in Hr. rewrite Hl, Hr. now apply all_of_app.
  - intros H. rewrite <- (append_empty_r s) at 1.
    rewrite lstrip_app by exact H. reflexivity.
Qed.

(** The admin rule is silent exactly when, in the admin_variables block,
    admin_credentials is a string with a colon in it and mysql_ifaces is a
    string that is not made of whitespace only; a missing block, or one that
    is not an object, counts as empty. *)
Theorem admin_rule_clean_iff config :
  yielded (check AdminCredentialsRule config) = []
  <-> (exists user password,
         dict_get (get_block config "admin_variables") "admin_credentials"
         = VStr (user ++ String ":" password))
      /\ (exists ifaces,
            dict_get (get_block config "admin_variables") "mysql_ifaces" = VStr ifaces
            /\ ~ all_of isspace ifaces).
Proof.
  cbn [check AdminCredentialsRule]. unfold AdminCredentials_check. cbn [yielded done].
  set (admin := get_block config "admin_variables").
  split.
  - intros H. apply app_eq_nil in H as [Hc Hi]. split.
    + destruct (dict_get admin "admin_credentials") as [s | | | | | |];
        try discriminate Hc. cbn in Hc.
      destruct (contains ":" s) eqn:E; [| discriminate Hc].
      apply contains_split in E as (a & b & ->). now exists a, b.
    + destruct (dict_get admin "mysql_ifaces") as [s | | | | | |];
        try discriminate Hi. cbn in Hi. exists s. split; [reflexivity |].
      intros Hall. apply strip_blank in Hall. rewrite Hall in Hi. discriminate Hi.
  - intros ((a & b & ->) & (s & -> & Hs)). cbn.
    assert (Hc : contains ":" (a ++ String ":" b) = true).
    { apply contains_split. now exists a, b. }
    rewrite Hc. cbn.
    destruct (nonempty (strip s)) eqn:E; [reflexivity |].
    apply strip_blank in E. contradiction.
Qed.

(** ** Well-formed servers *)

Lemma triple_key_eq t u :
  valid_triple t -> valid_triple u -> key_eq (triple_key t) (triple_key u) = true <-> t = u.
Proof.
  destruct t as [[a p] h], u as [[a' p'] h']. intros (Hp & Hh) (Hp' & Hh').
  unfold triple_key, server_key, key_eq, py_or, int_or.
  assert (Hs : forall x y, scalar_eq (if truthy (VStr x) then VStr x else VStr "")
                 (if truthy (VStr y) then VStr y else VStr "") = String.eqb x y).
  { intros x y. destruct x, y; reflexivity. }
  rewrite Hs.
  replace (p =? 0) with false by (symmetry; apply Z.eqb_neq; lia).
  replace (p' =? 0) with false by (symmetry; apply Z.eqb_neq; lia).
  rewrite !andb_true_iff, String.eqb_eq, Z.eqb_eq.
  destruct (h =? 0) eqn:E; destruct (h' =? 0) eqn:E';
    rewrite ?Z.eqb_eq in *; rewrite ?Z.eqb_neq in *; split.
  all: try (intros ((-> & ->) & H); f_equal; lia).
  all: try (intros H; injection H as -> -> ->; repeat split; lia).
Qed.

Lemma well_formed_server_valid e t : well_formed_server e = Some t -> valid_triple t.
Proof.
  destruct e as [| | | | | d |]; try discriminate. cbn [well_formed_server].
  destruct (dict_get d "address"); try discriminate.
  destruct (builtin._coerce_int (dict_get d "port")) as [p |]; try discriminate.
  destruct (builtin._coerce_int (dict_get d "hostgroup")) as [h |]; try discriminate.
  destruct (_ && _) eqn:E; [| discriminate]. intros H. injection H as <-.
  rewrite !andb_true_iff in E. destruct E as (((_ & Hp & _) & Hh) & _).
  apply Z.ltb_lt in Hp. apply Z.leb_le in Hh. now split.
Qed.

(** A well-formed entry yields nothing but, possibly, the duplicate
    finding, and its key is recorded. *)
Lemma servers_loop_well_formed index seen e rest t :
  well_formed_server e = Some t ->
  servers_loop index seen (e :: rest)
  = yield_then (when (key_in (triple_key t) seen)
                  (duplicate_server (VStr (fst (fst t))) (snd (fst t)) (snd t)))
      (servers_loop (S index) (seen_add (triple_key t) seen) rest).
Proof.
  destruct e as [| | | | | d |]; try discriminate. cbn [well_formed_server].
  destruct (dict_get d "address") as [a | | | | | |] eqn:Ha; try discriminate.
  destruct (builtin._coerce_int (dict_get d "port")) as [p |] eqn:Hp; try discriminate.
  destruct (builtin._coerce_int (dict_get d "hostgroup")) as [h |] eqn:Hh; try discriminate.
  destruct (_ && _) eqn:E; [| discriminate]. intros H. injection H as <-.
  rewrite (servers_loop_keyed index seen d rest a p h Ha Hp Hh).
  rewrite !andb_true_iff in E. destruct E as (((Hne & Hp1 & Hp2) & Hhg) & Hmax).
  unfold server_field_findings. rewrite Ha, Hp, Hh. cbn [is_str negb orb truthy].
  rewrite Hne, Hp1, Hp2. apply Z.leb_le in Hhg.
  replace (h <? 0) with false by (symmetry; apply Z.ltb_ge; exact Hhg).
  apply negb_true_iff in Hmax. rewrite Hmax. reflexivity.
Qed.

(** An entry that is not well-formed yields at least one finding. *)
Lemma servers_loop_ill_formed index seen e rest :
  well_formed_server e = None ->
  yielded (servers_loop index seen (e :: rest)) <> [].
Proof.
  destruct e as [| | | | | d |]; try (intros _; discriminate).
  cbn [well_formed_server servers_loop]. rewrite yielded_yield_then.
  intros Hwf Hnil. apply app_eq_nil in Hnil as [Hf _].
  unfold server_field_findings in Hf.
  apply app_eq_nil in Hf as [Ha Hf]. apply app_eq_nil in Hf as [Hp Hf].
  apply app_eq_nil in Hf as [Hh Hm].
  destruct (dict_get d "address") as [a | | | | | |]; try discriminate Ha.
  destruct (builtin._coerce_int (dict_get d "port")) as [p |]; [| discriminate Hp].
  destruct (builtin._coerce_int (dict_get d "hostgroup")) as [h |]; [| discriminate Hh].
  cbn [is_str negb orb truthy] in Ha.
  destruct (nonempty a); [| discriminate Ha].
  destruct ((0 <? p) && (p <? 65536)); [| discriminate Hp].
  destruct (h <? 0) eqn:Eh; [discriminate Hh |].
  destruct (is_none (dict_get d "max_connections")); [discriminate Hm |].
  apply Z.ltb_ge in Eh. apply Z.leb_le in Eh. rewrite Eh in Hwf. discriminate Hwf.
Qed.

Lemma key_in_cons k k' seen : key_in k (k' :: seen) = key_eq k k' || key_in k seen.
Proof. reflexivity. Qed.

Lemma servers_loop_clean servers :
  forall index seen prev,
    List.Forall valid_triple prev ->
    (forall t, valid_triple t -> key_in (triple_key t) seen = true <-> In t prev) ->
    (yielded (servers_loop index seen servers) = []
     -> exists ts, List.map well_formed_server servers = List.map Some ts
                   /\ List.NoDup ts /\ (forall t, In t ts -> ~ In t prev))
    /\ (forall ts, List.map well_formed_server servers = List.map Some ts ->
                   List.NoDup ts -> (forall t, In t ts -> ~ In t prev) ->
                   servers_loop index seen servers = done []).
Proof.
  induction servers as [| e servers IH]; intros index seen prev Hvalid Hseen.
  - split.
    + intros _. exists []. split; [reflexivity |]. split; [constructor | intros t []].
    + reflexivity.
  - destruct (well_formed_server e) as [t |] eqn:Hwf.
    + pose proof (well_formed_server_valid e t Hwf) as Ht.
      rewrite (servers_loop_well_formed index seen e servers t Hwf).
      assert (Hnext : key_in (triple_key t) seen = false ->
                forall u, valid_triple u ->
                  key_in (triple_key u) (seen_add (triple_key t) seen) = true
                  <-> In u (t :: prev)).
      { intros Hk u Hu. unfold seen_add. rewrite Hk, key_in_cons, orb_true_iff.
        rewrite (triple_key_eq u t Hu Ht), (Hseen u Hu). simpl. intuition congruence. }
      assert (Hvalid' : List.Forall valid_triple (t :: prev)) by now constructor.
      split.
      * rewrite yielded_yield_then. intros H. apply app_eq_nil in H as [Hd Hrest].
        destruct (key_in (triple_key t) seen) eqn:Hk; [discriminate Hd |].
        destruct (IH (S index) (seen_add (triple_key t) seen) (t :: prev)
                    Hvalid' (Hnext eq_refl)) as [IH1 _].
        destruct (IH1 Hrest) as (ts & Hmap & Hnd & Hdis).
        exists (t :: ts). split; [cbn [List.map]; now rewrite Hwf, Hmap |].
        split.
        -- constructor; [| exact Hnd]. intros Hin. apply (Hdis t Hin). now left.
        -- intros u [<- | Hu] Hin.
           ++ apply (Hseen t Ht) in Hin. congruence.
           ++ apply (Hdis u Hu). now right.
      * intros ts Hmap Hnd Hdis. destruct ts as [| t' ts]; [discriminate Hmap |].
        cbn [List.map] in Hmap. rewrite Hwf in Hmap. injection Hmap as <- Hmap.
        inversion Hnd as [| ? ? Hnotin Hnd']; subst.
        assert (Hk : key_in (triple_key t) seen = false).
        { destruct (key_in (triple_key t) seen) eqn:Hk; [| reflexivity].
          apply (Hseen t Ht) in Hk. exfalso. apply (Hdis t); [now left | exact Hk]. }
        destruct (IH (S index) (seen_add (triple_key t) seen) (t :: prev)
                    Hvalid' (Hnext Hk)) as [_ IH2].
        rewrite Hk. rewrite (IH2 ts Hmap Hnd'); [reflexivity |].
        intros u Hu [<- | Hin]; [contradiction |]. apply (Hdis u); [now right | exact Hin].
    + split.
      * intros H. now apply servers_loop_ill_formed in H.
      * intros ts Hmap. destruct ts; cbn [List.map] in Hmap; [discriminate Hmap |].
        rewrite Hwf in Hmap. discriminate Hmap.
Qed.

(** The mysql_servers rule runs to its end without a finding exactly when
    mysql_servers is a non-empty list of well-formed entries (an object
    with a non-empty string address, a port coercing into 1..65535, a
    hostgroup coercing to a non-negative integer, max_connections set) no
    two of which have the same address, port and hostgroup.  Among
    well-formed entries the -1 placeholders of the key cause no false
    duplicate. *)
Theorem servers_rule_clean_iff config :
  check MysqlServersRule config = done []
  <-> exists t ts,
        List.map well_formed_server (get_list config "mysql_servers")
        = List.map Some (t :: ts)
        /\ List.NoDup (t :: ts).
Proof.
  cbn [check MysqlServersRule]. unfold MysqlServers_check.
  destruct (get_list config "mysql_servers") as [| e l] eqn:E.
  - split; [discriminate | intros (t & ts & H & _); discriminate H].
  - destruct (servers_loop_clean (e :: l) 0%nat [] [] (List.Forall_nil _)) as [H1 H2].
    { intros t _. simpl. split; [discriminate | intros []]. }
    split.
    + intros H. destruct H1 as (ts & Hmap & Hnd & _); [now rewrite H |].
      destruct ts as [| t ts]; [discriminate Hmap |]. now exists t, ts.
    + intros (t & ts & Hmap & Hnd). apply (H2 (t :: ts) Hmap Hnd). intros u _ [].
Qed.

(** ** Users and query rules without findings *)

Lemma when_nil b (f : Finding) : when b f = [] <-> b = false.
Proof. destruct b; simpl; split; congruence. Qed.

Lemma user_entry_clean hgs index e :
  user_entry_findings hgs index e = [] <-> user_ok hgs e = true.
Proof.
  destruct e as [| | | | | d |]; cbn [user_entry_findings user_ok];
    try (split; discriminate).
  rewrite !andb_true_iff. split.
  - intros H. apply app_eq_nil in H as [Hu H]. apply app_eq_nil in H as [Hp Hh].
    apply when_nil in Hu, Hp.
    destruct (dict_get d "username") as [u | | | | | |]; try discriminate Hu.
    destruct (dict_get d "password") as [p | | | | | |]; try discriminate Hp.
    cbn in Hu, Hp |- *. apply negb_false_iff in Hu, Hp.
    destruct (builtin._coerce_int (dict_get d "default_hostgroup")) as [hg |];
      [| discriminate Hh].
    apply when_nil in Hh. repeat split; try assumption.
    destruct (set_nonempty hgs); [exact (proj1 (negb_false_iff _) Hh) | reflexivity].
  - intros ((Hu & Hp) & Hh).
    destruct (dict_get d "username") as [u | | | | | |]; try discriminate Hu.
    destruct (dict_get d "password") as [p | | | | | |]; try discriminate Hp.
    cbn in Hu, Hp |- *. rewrite Hu, Hp. cbn.
    destruct (builtin._coerce_int (dict_get d "default_hostgroup")) as [hg |];
      [| discriminate Hh].
    apply when_nil. destruct (set_nonempty hgs); [| reflexivity].
    cbn in Hh |- *. now rewrite Hh.
Qed.

(** The mysql_users rule yields nothing exactly when every entry of
    mysql_users (there may be none) is an object with a non-empty string
    username and password whose default_hostgroup coerces to a declared
    hostgroup, or to any integer when mysql_servers declares no
    hostgroup. *)
Theorem users_rule_clean_iff config :
  yielded (check MysqlUsersRule config) = []
  <-> forallb (user_ok (hostgroups config)) (get_list config "mysql_users") = true.
Proof.
  cbn [check MysqlUsersRule]. unfold MysqlUsers_check. cbn [yielded done].
  generalize 0%nat. induction (get_list config "mysql_users") as [| e users IH];
    intros index; [simpl; tauto |].
  cbn [users_loop forallb]. rewrite andb_true_iff, <- (IH (S index)), <- user_entry_clean.
  split.
  - intros H. now apply app_eq_nil in H.
  - intros [-> ->]. reflexivity.
Qed.

Lemma query_rule_tail_clean hgs index d :
  query_rule_tail hgs index d = []
  <-> match builtin._coerce_int (dict_get d "destination_hostgroup") with
      | Some dest => negb (set_nonempty hgs) || bool_decide (dest ∈ hgs)
      | None => true
      end
      && truthy (dict_get d "match_pattern") = true.
Proof.
  unfold query_rule_tail. rewrite andb_true_iff. split.
  - intros H. apply app_eq_nil in H as [Hd Hm]. apply when_nil, negb_false_iff in Hm.
    split; [| exact Hm].
    destruct (builtin._coerce_int (dict_get d "destination_hostgroup")); [| reflexivity].
    apply when_nil in Hd. destruct (set_nonempty hgs); [| reflexivity].
    exact (proj1 (negb_false_iff _) Hd).
  - intros [Hd Hm]. rewrite Hm. cbn [negb when]. rewrite app_nil_r.
    destruct (builtin._coerce_int (dict_get d "destination_hostgroup")); [| reflexivity].
    apply when_nil. destruct (set_nonempty hgs); [| reflexivity]. cbn in Hd |- *.
    now rewrite Hd.
Qed.

Lemma query_rules_loop_clean hgs rules :
  forall index (seen_ids : gset Z),
    query_rules_loop hgs index seen_ids rules = []
    <-> exists ids,
          List.map (query_rule_ok hgs) rules = List.map Some ids
          /\ List.NoDup ids /\ (forall id, In id ids -> id ∉ seen_ids).
Proof.
  induction rules as [| e rules IH]; intros index seen_ids.
  - split; [| reflexivity]. intros _. exists []. repeat split; [constructor | intros id []].
  - assert (Hbad : query_rule_ok hgs e = None ->
              ~ exists ids, List.map (query_rule_ok hgs) (e :: rules) = List.map Some ids
                            /\ List.NoDup ids /\ (forall id, In id ids -> id ∉ seen_ids)).
    { intros Hnone (ids & Hmap & _). destruct ids; cbn [List.map] in Hmap;
        [discriminate Hmap |]. rewrite Hnone in Hmap. discriminate Hmap. }
    destruct e as [s | n | f | b | | d | vs];
      try (split; [discriminate | intros H; now elim (Hbad eq_refl)]).
    cbn [query_rules_loop]. cbn [query_rule_ok] in Hbad.
    pose proof (query_rule_tail_clean hgs index d) as Htail.
    destruct (builtin._coerce_int (dict_get d "rule_id")) as [rid |] eqn:Hrid;
      [| split; [discriminate | intros H; now elim (Hbad eq_refl)]].
    destruct (_ && _) eqn:Hok in Hbad.
    + clear Hbad. assert (Ht : query_rule_tail hgs index d = []) by now apply Htail.
      destruct (bool_decide (rid ∈ seen_ids)) eqn:Hseen.
      * split; [discriminate |]. intros (ids & Hmap & Hnd & Hdis).
        destruct ids as [| id ids]; [discriminate Hmap |].
        cbn [List.map query_rule_ok] in Hmap. rewrite Hrid, Hok in Hmap.
        assert (id = rid) by congruence. subst id. apply bool_decide_eq_true in Hseen.
        exfalso. apply (Hdis rid); [now left | exact Hseen].
      * apply bool_decide_eq_false in Hseen. rewrite Ht. cbn [app]. rewrite IH. split.
        -- intros (ids & Hmap & Hnd & Hdis). exists (rid :: ids).
           cbn [List.map query_rule_ok]. rewrite Hrid, Hok, Hmap. split; [reflexivity |]. split.
           ++ constructor; [| exact Hnd]. intros Hin. apply (Hdis rid Hin).
              apply elem_of_union. left. now apply elem_of_singleton.
           ++ intros id [<- | Hin]; [exact Hseen |]. intros Hs. apply (Hdis id Hin).
              apply elem_of_union. now right.
        -- intros (ids & Hmap & Hnd & Hdis). destruct ids as [| id ids];
             [discriminate Hmap |].
           cbn [List.map query_rule_ok] in Hmap. rewrite Hrid, Hok in Hmap.
           assert (id = rid) by congruence. subst id.
           assert (Hmap' : List.map (query_rule_ok hgs) rules = List.map Some ids)
             by congruence.
           clear Hmap. rename Hmap' into Hmap.
           inversion Hnd as [| ? ? Hnotin Hnd']; subst.
           exists ids. split; [exact Hmap |]. split; [exact Hnd' |].
           intros id Hin Hs. apply elem_of_union in Hs as [Hs | Hs].
           ++ apply elem_of_singleton in Hs. subst id. contradiction.
           ++ apply (Hdis id); [now right | exact Hs].
    + assert (Ht : query_rule_tail hgs index d <> []).
      { intros Ht. apply Htail in Ht. congruence. }
      split; [| intros H; now elim (Hbad eq_refl)].
      destruct (bool_decide (rid ∈ seen_ids)); [discriminate |].
      intros H. apply app_eq_nil in H as [H _]. contradiction.
Qed.

(** The mysql_query_rules rule yields nothing exactly when every entry of
    mysql_query_rules (there may be none) is an object whose rule_id
    coerces to an integer, whose destination_hostgroup, if it coerces, is a
    declared hostgroup (or any integer when none is declared) and whose
    match_pattern is truthy, and no two entries have the same rule_id. *)
Theorem query_rules_clean_iff config :
  yielded (check MysqlQueryRulesRule config) = []
  <-> exists ids,
        List.map (query_rule_ok (hostgroups config)) (get_list config "mysql_query_rules")
        = List.map Some ids
        /\ List.NoDup ids.
Proof.
  cbn [check MysqlQueryRulesRule]. unfold MysqlQueryRules_check. cbn [yielded done].
  rewrite query_rules_loop_clean. split.
  - intros (ids & Hmap & Hnd & _). now exists ids.
  - intros (ids & Hmap & Hnd). exists ids. repeat split; try assumption.
    intros id _. apply not_elem_of_empty.
Qed.

(** ** What [int] and [float] do with the literal of a number *)

Lemma rstrip_last sp x c :
  sp c = false ->
  rstrip_by sp (x ++ String c EmptyString) = (x ++ String c EmptyString)%string.
Proof.
  intros Hc. induction x as [| a x IH]; simpl.
  - now rewrite Hc.
  - rewrite IH. now destruct x.
Qed.

Lemma all_digits_app a b : all_digits (a ++ b) = all_digits a && all_digits b.
Proof. induction a as [| c a IH]; simpl; [reflexivity |]. now rewrite IH, andb_assoc. Qed.

Lemma all_digits_last s :
  s <> EmptyString -> all_digits s = true ->
  exists x c, s = (x ++ String c EmptyString)%string /\ isdigit c = true.
Proof.
  induction s as [| a s IH]; [congruence |]. intros _ H. simpl in H.
  apply andb_true_iff in H as [Ha Hs]. destruct s as [| b s].
  - now exists EmptyString, a.
  - destruct (IH ltac:(discriminate) Hs) as (x & c & -> & Hc).
    now exists (String a x), c.
Qed.

(** Over digits [digit_run] reads on, and it stops at the end or before a
    character that is neither a digit nor an underscore. *)
Lemma digit_run_digits ds rest :
  all_digits ds = true ->
  stops (fun c => isdigit c || Ascii.eqb c "_") rest ->
  forall acc n, exists v k, digit_run (ds ++ rest) acc n = (v, k, rest).
Proof.
  intros Hds Hrest. induction ds as [| c ds IH]; intros acc n.
  - simpl. destruct rest as [| c r]; [now exists acc, n |].
    simpl in Hrest. apply orb_false_iff in Hrest as [Hd Hu]. simpl.
    rewrite Hd, Hu. now exists acc, n.
  - simpl in Hds. apply andb_true_iff in Hds as [Hc Hds]. simpl. rewrite Hc.
    apply (IH Hds).
Qed.

Lemma digitpart_digits ds rest :
  ds <> EmptyString -> all_digits ds = true ->
  stops (fun c => isdigit c || Ascii.eqb c "_") rest ->
  forall acc n, exists v k, digitpart (ds ++ rest) acc n = Some (v, k, rest).
Proof.
  intros Hne Hds Hrest acc n. destruct ds as [| c ds]; [congruence |].
  simpl in Hds. apply andb_true_iff in Hds as [Hc Hds]. simpl. rewrite Hc.
  destruct (digit_run_digits ds rest Hds Hrest (10 * acc + digit_value c) (S n))
    as (v & k & ->).
  now exists v, k.
Qed.

Lemma contains_point_digits ds : all_digits ds = true -> contains "." ds = false.
Proof.
  induction ds as [| c ds IH]; [reflexivity |]. simpl. intros H.
  apply andb_true_iff in H as [Hc Hds]. rewrite (IH Hds), orb_false_r.
  destruct (Ascii.eqb c ".") eqn:E; [| reflexivity].
  apply Ascii.eqb_eq in E. subst c. discriminate Hc.
Qed.

Lemma digits_app a b : digits (a ++ b) = (digits a + digits b)%nat.
Proof.
  induction a as [| x a IH]; simpl; [reflexivity |].
  rewrite IH. now destruct (isdigit x).
Qed.

Lemma fully_numeric_literal neg ds :
  ds <> EmptyString -> all_digits ds = true -> fully_numeric (minus neg ++ ds) = true.
Proof.
  intros Hne Hds. destruct neg; simpl.
  - rewrite Hds. now destruct ds.
  - destruct ds as [| c ds]; [congruence |]. simpl.
    destruct (Ascii.eqb c "-") eqn:E; [| exact Hds].
    apply Ascii.eqb_eq in E. subst c. discriminate Hds.
Qed.

(** An integer literal is converted by [int] when it has at most
    [int_max_str_digits] digits, and makes [int] raise when it has more. *)
Lemma number_value_integer neg ds :
  ds <> EmptyString -> all_digits ds = true ->
  contains "." (minus neg ++ ds) = false /\
  ((digits (minus neg ++ ds) <= int_max_str_digits)%nat ->
   exists n, _Parser.number_value (minus neg ++ ds) = Return (VInt n)) /\
  ((int_max_str_digits < digits (minus neg ++ ds))%nat ->
   _Parser.number_value (minus neg ++ ds) = Raise ValueError).
Proof.
  intros Hne Hds. unfold _Parser.number_value.
  assert (Hp : contains "." (minus neg ++ ds) = false).
  { rewrite contains_app, (contains_point_digits ds Hds). now destruct neg. }
  rewrite Hp. split; [reflexivity |].
  pose proof (fully_numeric_literal neg ds Hne Hds) as Hf. split.
  - intros Hlim. apply (fully_numeric_spelling _ Hf), py_int_iff in Hlim.
    rewrite Hlim. eauto.
  - intros Hlong. now rewrite (py_int_too_long _ Hlong).
Qed.

Lemma number_value_fraction neg ds fs :
  ds <> EmptyString -> all_digits ds = true ->
  fs <> EmptyString -> all_digits fs = true ->
  exists f, _Parser.number_value (minus neg ++ ds ++ "." ++ fs) = Return (VFloat f).
Proof.
  intros Hne Hds Hnf Hfs. unfold _Parser.number_value.
  assert (Hp : contains "." (minus neg ++ ds ++ "." ++ fs) = true).
  { rewrite !contains_app. simpl. now rewrite !orb_true_r. }
  rewrite Hp. unfold py_float.
  destruct (all_digits_last fs Hnf Hfs) as (x & c & Hx & Hc).
  assert (Hsp : forall d, isdigit d = true -> c_isspace d = false).
  { intros d Hd. destruct (c_isspace d) eqn:E; [| reflexivity].
    exfalso. revert Hd E. each_char d. }
  assert (Hstrip : rstrip_by c_isspace (lstrip_by c_isspace (minus neg ++ ds ++ "." ++ fs))
                   = (minus neg ++ ds ++ "." ++ fs)%string).
  { assert (Hl : lstrip_by c_isspace (minus neg ++ ds ++ "." ++ fs)
                 = (minus neg ++ ds ++ "." ++ fs)%string).
    { destruct neg; [reflexivity |]. destruct ds as [| d ds]; [congruence |].
      simpl in Hds. apply andb_true_iff in Hds as [Hd _]. simpl.
      now rewrite (Hsp d Hd). }
    rewrite Hl, Hx.
    rewrite <- !append_assoc3.
    apply rstrip_last, Hsp, Hc. }
  rewrite Hstrip.
  assert (Hsign : read_sign (minus neg ++ ds ++ "." ++ fs) = (neg, (ds ++ "." ++ fs)%string)).
  { destruct neg; [reflexivity |]. destruct ds as [| d ds]; [congruence |].
    simpl in Hds. apply andb_true_iff in Hds as [Hd _]. simpl.
    destruct (Ascii.eqb d "-") eqn:E1;
      [apply Ascii.eqb_eq in E1; subst d; discriminate Hd |].
    destruct (Ascii.eqb d "+") eqn:E2;
      [apply Ascii.eqb_eq in E2; subst d; discriminate Hd |].
    reflexivity. }
  rewrite Hsign. unfold read_mantissa.
  destruct (digitpart_digits ds ("." ++ fs) Hne Hds eq_refl 0 0%nat) as (i & k & ->).
  simpl String.append at 1. cbn iota. rewrite Ascii.eqb_refl.
  destruct (digitpart_digits fs EmptyString Hnf Hfs I i 0%nat) as (m & n & Hm).
  rewrite append_empty_r in Hm. rewrite Hm. simpl. eauto.
Qed.

(** ** What the tokenizer raises, and the number tokens it returns *)

Lemma consume_while_no_raise p fuel :
  forall literal self e, Tokenizer._consume_while p fuel literal self <> Raise e.
Proof.
  induction fuel as [| fuel IH]; intros literal self e; [discriminate |].
  cbn [Tokenizer._consume_while].
  destruct (negb (Tokenizer._eof self) && p (Tokenizer._peek self)); [apply IH | discriminate].
Qed.

Lemma consume_digits fuel :
  forall literal self lit self',
    Tokenizer._consume_while isdigit fuel literal self = Return (lit, self') ->
    exists run, lit = (literal ++ run)%string /\ all_digits run = true /\
      (negb (Tokenizer._eof self) && isdigit (Tokenizer._peek self) = true ->
       run <> EmptyString).
Proof.
  induction fuel as [| fuel IH]; intros literal self lit self'; [discriminate |].
  cbn [Tokenizer._consume_while].
  destruct (negb (Tokenizer._eof self) && isdigit (Tokenizer._peek self)) eqn:Hgo.
  - intros H. apply IH in H as (run & -> & Hrun & _).
    exists (String (Tokenizer._peek self) run). split; [| split].
    + now rewrite append_assoc3.
    + apply andb_true_iff in Hgo as [_ Hd]. simpl. now rewrite Hd, Hrun.
    + discriminate.
  - intros [= <- <-]. exists EmptyString. split; [| split].
    + now rewrite append_empty_r.
    + reflexivity.
    + discriminate.
Qed.

(** From a digit on, [_consume_number] returns digits with an optional
    fraction, or raises the invalid-number error. *)
Lemma consume_number_digits start sgn self :
  negb (Tokenizer._eof self) && isdigit (Tokenizer._peek self) = true ->
  match
    '(literal, self) ← Tokenizer._consume_while isdigit (Tokenizer.fuel_of self) sgn self;
    if negb (Tokenizer._eof self) && Ascii.eqb (Tokenizer._peek self) "." then
      let literal := (literal ++ ".")%string in
      let self := Tokenizer._advance self false in
      if Tokenizer._eof self || negb (isdigit (Tokenizer._peek self)) then
        Raise (ConfigSyntaxError "Invalid number literal" (Some start))
      else
        '(literal, self) ←
          Tokenizer._consume_while isdigit (Tokenizer.fuel_of self) literal self;
        Return (Token.mk "NUMBER" literal start, self)
    else Return (Token.mk "NUMBER" literal start, self)
  with
  | Return (tok, _) =>
      exists ds, ds <> EmptyString /\ all_digits ds = true /\
        (Token.value tok = (sgn ++ ds)%string \/
         exists fs, fs <> EmptyString /\ all_digits fs = true /\
                    Token.value tok = (sgn ++ ds ++ "." ++ fs)%string)
  | Raise e => is_syntax_error e
  | OutOfFuel => True
  end.
Proof.
  intros Hstart.
  pose proof (consume_digits (Tokenizer.fuel_of self) sgn self) as Hd.
  pose proof (consume_while_no_raise isdigit (Tokenizer.fuel_of self) sgn self) as Hr.
  destruct (Tokenizer._consume_while isdigit (Tokenizer.fuel_of self) sgn self)
    as [[lit self1] | e |]; [| now elim (Hr e) | exact I].
  destruct (Hd lit self1 eq_refl) as (ds & -> & Hds & Hne). specialize (Hne Hstart).
  cbn [mbind outcome_bind].
  destruct (negb (Tokenizer._eof self1) && Ascii.eqb (Tokenizer._peek self1) ".").
  - cbv zeta.
    destruct (Tokenizer._eof (Tokenizer._advance self1 false)
              || negb (isdigit (Tokenizer._peek (Tokenizer._advance self1 false)))) eqn:Hn.
    + now exists "Invalid number literal", (Some start).
    + apply orb_false_iff in Hn as [He Hp]. apply negb_false_iff in Hp.
      set (self2 := Tokenizer._advance self1 false) in *.
      pose proof (consume_digits (Tokenizer.fuel_of self2) ((sgn ++ ds) ++ ".") self2) as Hd2.
      pose proof (consume_while_no_raise isdigit (Tokenizer.fuel_of self2)
                    ((sgn ++ ds) ++ ".") self2) as Hr2.
      destruct (Tokenizer._consume_while isdigit (Tokenizer.fuel_of self2)
                  ((sgn ++ ds) ++ ".") self2) as [[lit2 self3] | e |];
        [| now elim (Hr2 e) | exact I].
      destruct (Hd2 lit2 self3 eq_refl) as (fs & -> & Hfs & Hnf).
      cbn [mbind outcome_bind Token.value]. exists ds. split; [exact Hne |].
      split; [exact Hds |].
      right. exists fs. split; [| split; [exact Hfs |]].
      * apply Hnf. now rewrite He, Hp.
      * now rewrite !append_assoc3.
  - cbn [Token.value]. exists ds. split; [exact Hne |]. split; [exact Hds |]. now left.
Qed.

(** Where the main loop calls it, [_consume_number] returns a NUMBER token
    that holds the literal of a number, or raises a syntax error. *)
Lemma consume_number_shaped self :
  Tokenizer._eof self = false ->
  isdigit (Tokenizer._peek self)
  || (Ascii.eqb (Tokenizer._peek self) "-" && isdigit (Tokenizer._peek_next self)) = true ->
  match Tokenizer._consume_number self with
  | Return (tok, _) => Token.kind tok = "NUMBER" /\ number_literal (Token.value tok)
  | Raise e => is_syntax_error e
  | OutOfFuel => True
  end.
Proof.
  intros Heof Hstart.
  assert (Hkind : forall tok self',
            Tokenizer._consume_number self = Return (tok, self') -> Token.kind tok = "NUMBER").
  { unfold Tokenizer._consume_number. intros tok self'.
    destruct (if Ascii.eqb (Tokenizer._peek self) "-"
              then (String (Tokenizer._peek self) EmptyString, Tokenizer._advance self false)
              else (EmptyString, self)) as [lit0 self0].
    destruct (Tokenizer._consume_while isdigit (Tokenizer.fuel_of self0) lit0 self0)
      as [[lit1 self1] | |]; cbn [mbind outcome_bind]; try discriminate.
    destruct (negb (Tokenizer._eof self1) && Ascii.eqb (Tokenizer._peek self1) ".");
      [| now intros [= <- _]].
    cbv zeta.
    destruct (Tokenizer._eof (Tokenizer._advance self1 false)
              || negb (isdigit (Tokenizer._peek (Tokenizer._advance self1 false))));
      [discriminate |].
    destruct (Tokenizer._consume_while isdigit _ _ _) as [[lit2 self2] | |];
      cbn [mbind outcome_bind]; try discriminate. now intros [= <- _]. }
  assert (Hshape :
    match Tokenizer._consume_number self with
    | Return (tok, _) =>
        exists neg ds, ds <> EmptyString /\ all_digits ds = true /\
          (Token.value tok = (minus neg ++ ds)%string \/
           exists fs, fs <> EmptyString /\ all_digits fs = true /\
                      Token.value tok = (minus neg ++ ds ++ "." ++ fs)%string)
    | Raise e => is_syntax_error e
    | OutOfFuel => True
    end).
  { unfold Tokenizer._consume_number.
    destruct (Ascii.eqb (Tokenizer._peek self) "-") eqn:Hm.
    - apply Ascii.eqb_eq in Hm. rewrite Hm in Hstart |- *.
      change (isdigit "-") with false in Hstart.
      change (Ascii.eqb "-" "-") with true in Hstart. cbn [orb andb] in Hstart.
      assert (Hnext : negb (Tokenizer._eof (Tokenizer._advance self false))
                      && isdigit (Tokenizer._peek (Tokenizer._advance self false)) = true).
      { unfold Tokenizer._peek_next in Hstart.
        unfold Tokenizer._eof, Tokenizer._peek, Tokenizer._advance. cbn [Tokenizer.text].
        destruct (Tokenizer.text self) as [| c [| d r]]; try discriminate Hstart.
        exact Hstart. }
      pose proof (consume_number_digits (Tokenizer._position self) "-"
                    (Tokenizer._advance self false) Hnext) as H.
      destruct (_ ← _; _) as [[tok self'] | e |]; [| exact H | exact I].
      destruct H as (ds & H). now exists true, ds.
    - cbn [orb andb] in Hstart. rewrite orb_false_r in Hstart.
      assert (Hnext : negb (Tokenizer._eof self) && isdigit (Tokenizer._peek self) = true)
        by now rewrite Heof, Hstart.
      pose proof (consume_number_digits (Tokenizer._position self) EmptyString
                    self Hnext) as H.
      destruct (_ ← _; _) as [[tok self'] | e |]; [| exact H | exact I].
      destruct H as (ds & H). now exists false, ds. }
  destruct (Tokenizer._consume_number self) as [[tok self'] | e |];
    [| exact Hshape | exact I].
  split; [now apply (Hkind tok self') |].
  destruct Hshape as (neg & ds & Hne & Hds & H). exists neg, ds. auto.
Qed.

(** The literal of a number is converted, by [float] or by [int], unless it
    is an integer literal too long for [int], which raises. *)
Lemma number_value_literal literal :
  number_literal literal ->
  (exists v, _Parser.number_value literal = Return v /\ ~ too_long literal)
  \/ (_Parser.number_value literal = Raise ValueError /\ too_long literal).
Proof.
  intros (neg & ds & Hne & Hds & [-> | (fs & Hnf & Hfs & ->)]).
  - destruct (number_value_integer neg ds Hne Hds) as (Hp & Hok & Hlong).
    destruct (Nat.le_gt_cases (digits (minus neg ++ ds)) int_max_str_digits) as [Hle | Hgt].
    + left. destruct (Hok Hle) as (n & ->). exists (VInt n). split; [reflexivity |].
      intros [_ H]. lia.
    + right. split; [now apply Hlong | now split].
  - left. destruct (number_value_fraction neg ds fs Hne Hds Hnf Hfs) as (f & ->).
    exists (VFloat f). split; [reflexivity |]. intros [H _].
    rewrite !contains_app in H. simpl in H. rewrite !orb_true_r in H. discriminate.
Qed.


Lemma consume_comment_no_raise fuel :
  forall self e, Tokenizer._consume_comment_loop fuel self <> Raise e.
Proof.
  induction fuel as [| fuel IH]; intros self e; [discriminate |].
  cbn [Tokenizer._consume_comment_loop].
  destruct (negb (Tokenizer._eof self) && negb (Ascii.eqb (Tokenizer._peek self) newline));
    [apply IH | discriminate].
Qed.

Lemma consume_string_loop_kind fuel :
  forall start chars self,
    match Tokenizer._consume_string_loop fuel start chars self with
    | Return (tok, _) => Token.kind tok = "STRING"
    | Raise e => is_syntax_error e
    | OutOfFuel => True
    end.
Proof.
  induction fuel as [| fuel IH]; intros start chars self; [exact I |].
  cbn [Tokenizer._consume_string_loop].
  destruct (Tokenizer._eof self); [now exists "Unterminated string literal", (Some start) |].
  destruct (Ascii.eqb (Tokenizer._peek self) dquote); [reflexivity |].
  destruct (Ascii.eqb (Tokenizer._peek self) backslash); [| apply IH].
  destruct (Tokenizer._eof (Tokenizer._advance self false));
    [now exists "Unterminated escape sequence", (Some start) | apply IH].
Qed.

Lemma consume_identifier_kind self :
  match Tokenizer._consume_identifier self with
  | Return (tok, _) => Token.kind tok = "IDENT"
  | Raise e => False
  | OutOfFuel => True
  end.
Proof.
  unfold Tokenizer._consume_identifier.
  pose proof (consume_while_no_raise (fun c => isalnum c || Ascii.eqb c "_")
                (Tokenizer.fuel_of self) EmptyString self) as Hr.
  destruct (Tokenizer._consume_while _ _ _ _) as [[lit self'] | e |];
    cbn [mbind outcome_bind]; [reflexivity | now apply (Hr e) | exact I].
Qed.

Lemma symbol_not_number c : contains c Tokenizer.SYMBOLS = true -> String c EmptyString <> "NUMBER".
Proof. intros _. discriminate. Qed.

Lemma Forall_snoc {A} (P : A -> Prop) l x : List.Forall P l -> P x -> List.Forall P (l ++ [x]).
Proof. intros Hl Hx. apply List.Forall_app. split; [exact Hl | now constructor]. Qed.

(** The tokenizer raises nothing but syntax errors, and every NUMBER token
    it returns holds the literal of a number. *)
Lemma tokens_loop_shaped fuel :
  forall self result,
    List.Forall number_shaped result ->
    match Tokenizer.tokens_loop fuel self result with
    | Return toks => List.Forall number_shaped toks
    | Raise e => is_syntax_error e
    | OutOfFuel => True
    end.
Proof.
  induction fuel as [| fuel IH]; intros self result Hres; [exact I |].
  cbn [Tokenizer.tokens_loop].
  destruct (Tokenizer._eof self) eqn:Heof; [exact Hres |].
  destruct (contains (Tokenizer._peek self) (String " " (String tab (String cr EmptyString))));
    [now apply IH |].
  destruct (Ascii.eqb (Tokenizer._peek self) newline); [now apply IH |].
  destruct (Ascii.eqb (Tokenizer._peek self) "#").
  { pose proof (consume_comment_no_raise (Tokenizer.fuel_of self) self) as Hr.
    unfold Tokenizer._consume_comment.
    destruct (Tokenizer._consume_comment_loop (Tokenizer.fuel_of self) self) as [self' | e |];
      cbn [mbind outcome_bind]; [now apply IH | now elim (Hr e) | exact I]. }
  destruct (Ascii.eqb (Tokenizer._peek self) dquote).
  { pose proof (consume_string_loop_kind (Tokenizer.fuel_of self) (Tokenizer._position self)
                  EmptyString (Tokenizer._advance self false)) as Hk.
    unfold Tokenizer._consume_string.
    destruct (Tokenizer._consume_string_loop _ _ _ _) as [[tok self'] | e |];
      cbn [mbind outcome_bind]; [| exact Hk | exact I].
    apply IH, Forall_snoc; [exact Hres |]. intros Hn. rewrite Hk in Hn. discriminate Hn. }
  destruct (contains (Tokenizer._peek self) Tokenizer.SYMBOLS) eqn:Hsym.
  { cbn [Tokenizer._consume_symbol]. apply IH, Forall_snoc; [exact Hres |].
    intros Hn. cbn [Token.kind] in Hn. discriminate Hn. }
  destruct (isdigit (Tokenizer._peek self)
            || (Ascii.eqb (Tokenizer._peek self) "-" && isdigit (Tokenizer._peek_next self)))
    eqn:Hnum.
  { pose proof (consume_number_shaped self Heof Hnum) as Hk.
    destruct (Tokenizer._consume_number self) as [[tok self'] | e |];
      cbn [mbind outcome_bind]; [| exact Hk | exact I].
    apply IH, Forall_snoc; [exact Hres |]. intros _. apply Hk. }
  destruct (isalpha (Tokenizer._peek self) || Ascii.eqb (Tokenizer._peek self) "_").
  { pose proof (consume_identifier_kind self) as Hk.
    destruct (Tokenizer._consume_identifier self) as [[tok self'] | e |];
      cbn [mbind outcome_bind]; [| now elim Hk | exact I].
    apply IH, Forall_snoc; [exact Hres |]. intros Hn. rewrite Hk in Hn. discriminate Hn. }
  now eexists _, _.
Qed.

(** ** What the parser raises *)

Lemma match_number_shaped self self1 :
  List.Forall number_shaped (_Parser.tokens self) ->
  _Parser._match self "NUMBER" = (true, self1) ->
  number_literal (Token.value (_Parser._previous self1)) /\
  In (_Parser._previous self1) (_Parser.tokens self) /\
  Token.kind (_Parser._previous self1) = "NUMBER".
Proof.
  unfold _Parser._match, _Parser._check, _Parser._at_end. intros Hall.
  destruct (length (_Parser.tokens self) <=? _Parser.index self)%nat eqn:E; [discriminate |].
  apply Nat.leb_gt in E.
  destruct (String.eqb (Token.kind (_Parser._peek self)) "NUMBER") eqn:Hk; [| discriminate].
  intros [= <-]. apply String.eqb_eq in Hk.
  unfold _Parser._previous, _Parser.step. cbn [_Parser.index _Parser.tokens].
  replace (S (_Parser.index self) - 1)%nat with (_Parser.index self) by lia.
  fold (_Parser._peek self).
  assert (Hin : In (_Parser._peek self) (_Parser.tokens self))
    by (unfold _Parser._peek; now apply nth_In).
  rewrite List.Forall_forall in Hall. split; [now apply Hall |]. now split.
Qed.

Lemma match_tokens self kind : _Parser.tokens (snd (_Parser._match self kind)) = _Parser.tokens self.
Proof. unfold _Parser._match. now destruct (_Parser._check self kind). Qed.

Lemma consume_raises self kind :
  match _Parser._consume self kind with
  | Return (_, self') => _Parser.tokens self' = _Parser.tokens self
  | Raise e => is_syntax_error e
  | OutOfFuel => False
  end.
Proof.
  unfold _Parser._consume. destruct (_Parser._check self kind); [reflexivity |].
  now eexists _, _.
Qed.

Lemma separator_tokens self stop :
  _Parser.tokens (_Parser._consume_optional_separator self stop) = _Parser.tokens self.
Proof.
  unfold _Parser._consume_optional_separator.
  destruct (_Parser._check self stop); [reflexivity | apply match_tokens].
Qed.

(** The descent keeps the token list, and raises a syntax error or, at a
    NUMBER token too long for [int], [ValueError]. *)
Lemma descent_raises fuel :
  (forall self,
     List.Forall number_shaped (_Parser.tokens self) ->
     match _Parser._parse_value fuel self with
     | Return (_, self') => _Parser.tokens self' = _Parser.tokens self
     | Raise e => parser_raises (_Parser.tokens self) e
     | OutOfFuel => True
     end) /\
  (forall self data,
     List.Forall number_shaped (_Parser.tokens self) ->
     match _Parser._parse_object fuel self data with
     | Return (_, self') => _Parser.tokens self' = _Parser.tokens self
     | Raise e => parser_raises (_Parser.tokens self) e
     | OutOfFuel => True
     end) /\
  (forall self items,
     List.Forall number_shaped (_Parser.tokens self) ->
     match _Parser._parse_list fuel self items with
     | Return (_, self') => _Parser.tokens self' = _Parser.tokens self
     | Raise e => parser_raises (_Parser.tokens self) e
     | OutOfFuel => True
     end).
Proof.
  induction fuel as [| fuel (IHv & IHo & IHl)]; [repeat split; intros; exact I |].
  split; [| split].
  - (* _parse_value *)
    intros self Hall. cbn [_Parser._parse_value].
    pose proof (match_tokens self "STRING") as Hs.
    destruct (_Parser._match self "STRING") as [[] self1]; [exact Hs |]. clear Hs self1.
    pose proof (match_tokens self "NUMBER") as Hn.
    pose proof (match_number_shaped self) as Hc.
    destruct (_Parser._match self "NUMBER") as [[] self1].
    { destruct (Hc self1 Hall eq_refl) as (Hlit & Hin & Hkind).
      destruct (number_value_literal _ Hlit) as [(v & -> & _) | [-> Hlong]];
        cbn [mbind outcome_bind]; [exact Hn |].
      right. split; [reflexivity |]. now exists (_Parser._previous self1). }
    clear Hn Hc self1.
    pose proof (match_tokens self "IDENT") as Hi.
    destruct (_Parser._match self "IDENT") as [[] self1]; [exact Hi |]. clear Hi self1.
    pose proof (match_tokens self "{") as Ho.
    destruct (_Parser._match self "{") as [[] self1].
    { cbn [snd] in Ho. specialize (IHo self1 [] ltac:(now rewrite Ho)).
      rewrite Ho in IHo.
      destruct (_Parser._parse_object fuel self1 []) as [[d self2] | e |];
        cbn [mbind outcome_bind]; [exact IHo | exact IHo | exact I]. }
    clear Ho self1.
    pose proof (match_tokens self "(") as Hl.
    destruct (_Parser._match self "(") as [[] self1].
    { cbn [snd] in Hl. specialize (IHl self1 [] ltac:(now rewrite Hl)).
      rewrite Hl in IHl.
      destruct (_Parser._parse_list fuel self1 []) as [[l self2] | e |];
        cbn [mbind outcome_bind]; [exact IHl | exact IHl | exact I]. }
    left. now eexists _, _.
  - (* _parse_object *)
    intros self data Hall. cbn [_Parser._parse_object].
    destruct (negb (_Parser._check self "}")).
    + pose proof (consume_raises self "IDENT") as Hk.
      destruct (_Parser._consume self "IDENT") as [[key self1] | e |];
        cbn [mbind outcome_bind]; [| left; exact Hk | exact I].
      pose proof (consume_raises self1 "=") as He.
      destruct (_Parser._consume self1 "=") as [[eq self2] | e |];
        cbn [mbind outcome_bind]; [| left; exact He | exact I].
      assert (H2 : _Parser.tokens self2 = _Parser.tokens self) by congruence.
      specialize (IHv self2 ltac:(now rewrite H2)). rewrite H2 in IHv.
      destruct (_Parser._parse_value fuel self2) as [[v self3] | e |];
        cbn [mbind outcome_bind]; [| exact IHv | exact I].
      pose proof (separator_tokens self3 "}") as Hsep.
      assert (H4 : _Parser.tokens (_Parser._consume_optional_separator self3 "}")
                   = _Parser.tokens self) by congruence.
      specialize (IHo (_Parser._consume_optional_separator self3 "}")
                    (dict_set data (Token.value key) v)
                    ltac:(now rewrite H4)).
      rewrite H4 in IHo.
      destruct (_Parser._parse_object fuel _ _) as [[d self4] | e |];
        [exact IHo | exact IHo | exact I].
    + pose proof (consume_raises self "}") as Hk.
      destruct (_Parser._consume self "}") as [[tok self1] | e |];
        cbn [mbind outcome_bind]; [exact Hk | left; exact Hk | exact I].
  - (* _parse_list *)
    intros self items Hall. cbn [_Parser._parse_list].
    destruct (negb (_Parser._check self ")")).
    + specialize (IHv self Hall).
      destruct (_Parser._parse_value fuel self) as [[v self1] | e |];
        cbn [mbind outcome_bind]; [| exact IHv | exact I].
      pose proof (separator_tokens self1 ")") as Hsep.
      assert (H2 : _Parser.tokens (_Parser._consume_optional_separator self1 ")")
                   = _Parser.tokens self) by congruence.
      specialize (IHl (_Parser._consume_optional_separator self1 ")") (items ++ [v])
                    ltac:(now rewrite H2)).
      rewrite H2 in IHl.
      destruct (_Parser._parse_list fuel _ _) as [[l self2] | e |];
        [exact IHl | exact IHl | exact I].
    + pose proof (consume_raises self ")") as Hk.
      destruct (_Parser._consume self ")") as [[tok self1] | e |];
        cbn [mbind outcome_bind]; [exact Hk | left; exact Hk | exact I].
Qed.

Lemma parse_loop_raises fuel :
  forall self config,
    List.Forall number_shaped (_Parser.tokens self) ->
    match _Parser.parse_loop fuel self config with
    | Raise e => parser_raises (_Parser.tokens self) e
    | _ => True
    end.
Proof.
  induction fuel as [| fuel IH]; intros self config Hall; [exact I |].
  cbn [_Parser.parse_loop]. destruct (negb (_Parser._at_end self)); [| exact I].
  pose proof (consume_raises self "IDENT") as Hk.
  destruct (_Parser._consume self "IDENT") as [[key self1] | e |];
    cbn [mbind outcome_bind]; [| left; exact Hk | exact I].
  pose proof (consume_raises self1 "=") as He.
  destruct (_Parser._consume self1 "=") as [[eq self2] | e |];
    cbn [mbind outcome_bind]; [| left; exact He | exact I].
  assert (H2 : _Parser.tokens self2 = _Parser.tokens self) by congruence.
  destruct (descent_raises fuel) as (Hv & _ & _).
  specialize (Hv self2 ltac:(now rewrite H2)). rewrite H2 in Hv.
  destruct (_Parser._parse_value fuel self2) as [[v self3] | e |];
    cbn [mbind outcome_bind]; [| exact Hv | exact I].
  specialize (IH self3 (dict_set config (Token.value key) v) ltac:(now rewrite Hv)).
  rewrite Hv in IH. exact IH.
Qed.

(** What [parse_config] raises is a syntax error, or the [ValueError] of
    [int] at a NUMBER token of the text that is too long for it. *)
Lemma parse_config_raises text e :
  parse_config text = Raise e ->
  is_syntax_error e \/
  (e = ValueError /\
   exists toks, Tokenizer.tokens (Tokenizer.init text) = Return toks /\
     exists tok, In tok toks /\ Token.kind tok = "NUMBER" /\ too_long (Token.value tok)).
Proof.
  unfold parse_config, Tokenizer.tokens.
  pose proof (tokens_loop_shaped (Tokenizer.fuel_of (Tokenizer.init text))
                (Tokenizer.init text) [] (List.Forall_nil _)) as Ht.
  destruct (Tokenizer.tokens_loop _ _ _) as [toks | e' |]; cbn [mbind outcome_bind];
    [| intros [= <-]; now left | discriminate].
  pose proof (parse_loop_raises (2 * length toks + 2) (_Parser.mk toks 0) [] Ht) as Hp.
  unfold _Parser.parse. cbn [_Parser.tokens] in *.
  destruct (_Parser.parse_loop _ _ _); [discriminate | | discriminate].
  intros [= <-]. destruct Hp as [Hp | [-> Hp]]; [now left |].
  right. split; [reflexivity |]. now exists toks.
Qed.

(** An assignment of an integer literal with more digits than [int]
    converts makes [parse_config] raise [ValueError]. *)
Lemma long_integer_raises ds :
  all_digits ds = true -> (int_max_str_digits < digits ds)%nat ->
  parse_config ("a=" ++ ds) = Raise ValueError.
Proof.
  intros Hds Hlong.
  assert (Hne : ds <> EmptyString) by (intros ->; simpl in Hlong; lia).
  assert (Hx : forall fuel q,
            Tokenizer.tokens_loop (S (S fuel))
              (Tokenizer.init (String "a" (String "=" q))) []
            = Tokenizer.tokens_loop fuel (Tokenizer.mk q 2 1 3)
                [Token.mk "IDENT" "a" (Position.mk 1 1); symbol "=" (Position.mk 1 2)]).
  { intros fuel q. cbn. reflexivity. }
  unfold parse_config, Tokenizer.tokens, Tokenizer.fuel_of.
  cbn [Tokenizer.init Tokenizer.text String.append]. simpl String.length.
  change (Tokenizer.mk (String "a" (String "=" ds)) 0 1 1)
    with (Tokenizer.init (String "a" (String "=" ds))).
  rewrite Hx.
  destruct ds as [| d ds']; [congruence |].
  pose proof (all_digits_all_of _ Hds) as Hall.
  pose proof Hds as Hd. simpl in Hd. apply andb_true_iff in Hd as [Hd _].
  destruct (digit_starts_number d Hd) as (Hws & Hnl & Hhash & Hq & Hsym & Hdm & _).
  assert (Hnum : Tokenizer._consume_number (Tokenizer.mk (String d ds') 2 1 3)
                 = Return (Token.mk "NUMBER" (String d ds') (Position.mk 1 3),
                           Tokenizer.mk EmptyString (2 + String.length (String d ds')) 1
                             (3 + String.length (String d ds')))).
  { unfold Tokenizer._consume_number, Tokenizer._position, Tokenizer.fuel_of.
    cbn [Tokenizer._peek Tokenizer.text Tokenizer.line Tokenizer.column]. rewrite Hdm.
    cbv iota beta.
    erewrite (consume_while_run isdigit (String d ds') EmptyString);
      [| exact Hall | exact I | cbn [Tokenizer.text]; now rewrite append_empty_r
       | cbn [Tokenizer.text]; lia].
    cbn [mbind outcome_bind Tokenizer._eof Tokenizer.text nonempty negb andb
           Tokenizer.index Tokenizer.line Tokenizer.column String.append].
    reflexivity. }
  simpl String.length.
  cbn [Tokenizer.tokens_loop].
  unfold Tokenizer._eof, Tokenizer._peek, Tokenizer._peek_next.
  cbn [Tokenizer.text nonempty negb].
  rewrite Hws, Hnl, Hhash, Hq, Hsym, Hd. cbn [orb]. cbv iota.
  rewrite Hnum. cbn [mbind outcome_bind app].
  destruct (String.length ds') eqn:Hlen.
  - destruct ds'; [| discriminate Hlen]. simpl in Hlong. rewrite Hd in Hlong.
    unfold int_max_str_digits in Hlong. lia.
  - cbn [Tokenizer.tokens_loop Tokenizer._eof Tokenizer.text nonempty negb
           mbind outcome_bind].
    destruct (number_value_integer false (String d ds') Hne Hds) as (_ & _ & Hraise).
    specialize (Hraise Hlong). cbn [minus String.append] in Hraise.
    unfold _Parser.parse. cbn [length Nat.mul Nat.add _Parser.parse_loop].
    unfold _Parser._at_end, _Parser._consume, _Parser._check, _Parser._at_end, _Parser._peek,
      _Parser._previous, _Parser._match, _Parser._check, _Parser._at_end, _Parser._peek,
      _Parser.step.
    cbn. rewrite Hraise. reflexivity.
Qed.

(** Parsing an ASCII text whose brackets nest at most 100 deep always ends:
    with the root object, with a [ConfigSyntaxError], or with the
    [ValueError] that [int] raises at an integer literal of more than 4300
    digits, and that only when the text has such a NUMBER token; an
    assignment of such a literal does raise it.  The tokenizer and the
    parser raise nothing else. *)
Theorem parse_config_total :
  (forall text,
     isascii text = true -> shallow text ->
     (exists root, parse_config text = Return root)
     \/ (exists message position,
           parse_config text = Raise (ConfigSyntaxError message position))
     \/ (parse_config text = Raise ValueError /\
         exists toks tok,
           Tokenizer.tokens (Tokenizer.init text) = Return toks /\
           In tok toks /\ Token.kind tok = "NUMBER" /\ too_long (Token.value tok)))
  /\ (forall ds, all_digits ds = true -> (int_max_str_digits < digits ds)%nat ->
                 parse_config ("a=" ++ ds) = Raise ValueError).
Proof.
  split; [| exact long_integer_raises].
  intros text _ _.
  pose proof (parse_config_returns text) as Hr.
  pose proof (parse_config_raises text) as He.
  destruct (parse_config text) as [root | e |].
  - left. now exists root.
  - right. destruct (He e eq_refl) as [(m & p & ->) | (-> & toks & Ht & tok & H)].
    + left. now exists m, p.
    + right. split; [reflexivity |]. now exists toks, tok.
  - now elim Hr.
Qed.

Lemma parse_config_total_witness :
  (isascii "a = ( 1 { b = 2.5 } )" = true /\ shallow "a = ( 1 { b = 2.5 } )" /\
   ((exists root, parse_config "a = ( 1 { b = 2.5 } )" = Return root)
    \/ (exists message position,
          parse_config "a = ( 1 { b = 2.5 } )" = Raise (ConfigSyntaxError message position))
    \/ (parse_config "a = ( 1 { b = 2.5 } )" = Raise ValueError /\
        exists toks tok,
          Tokenizer.tokens (Tokenizer.init "a = ( 1 { b = 2.5 } )") = Return toks /\
          In tok toks /\ Token.kind tok = "NUMBER" /\ too_long (Token.value tok)))) /\
  (all_digits (times "7" 4301) = true /\
   (int_max_str_digits < digits (times "7" 4301))%nat /\
   parse_config ("a=" ++ times "7" 4301) = Raise ValueError).
Proof.
  assert (Hs : shallow "a = ( 1 { b = 2.5 } )").
  { intros toks Ht. vm_compute in Ht. injection Ht as <-. vm_compute. lia. }
  assert (Hd : digits (times "7" 4301) = 4301%nat) by (vm_compute; reflexivity).
  assert (Hl : (int_max_str_digits < digits (times "7" 4301))%nat)
    by (rewrite Hd; unfold int_max_str_digits; lia).
  split; [split; [reflexivity | split; [exact Hs |]] | split; [| split; [exact Hl |]]].
  - apply (proj1 parse_config_total "a = ( 1 { b = 2.5 } )" eq_refl Hs).
  - vm_compute. reflexivity.
  - apply (proj2 parse_config_total (times "7" 4301)); [vm_compute; reflexivity | exact Hl].
Defined.

(** ** The top level of a config *)

Lemma count_assignments ms : (3 * count ms <= length (assignments ms))%nat.
Proof.
  induction ms as [| kp key ep v sep rest IH]; simpl; [lia |].
  rewrite length_app. destruct (render_starts_value v) as (tok & l & -> & _). simpl. lia.
Qed.

(** The main loop over a run of assignments: it stores each value under
    its key and goes on behind them. *)
Lemma parse_loop_assignments ms :
  forall fuel pre post config,
    (length (assignments ms) < fuel)%nat ->
    _Parser.parse_loop (count ms + fuel) (reading pre (assignments ms ++ post)) config
    = d ← denote_members ms config;
      _Parser.parse_loop fuel (reading (pre ++ assignments ms) post) d.
Proof.
  induction ms as [| key_pos key eq_pos v sep rest IH]; intros fuel pre post config Hfuel.
  - cbn [count assignments app denote_members mbind outcome_bind Nat.add].
    now rewrite app_nil_r.
  - cbn [assignments] in Hfuel. simpl length in Hfuel. rewrite length_app in Hfuel.
    cbn [count assignments denote_members Nat.add _Parser.parse_loop].
    rewrite <- !app_comm_cons. rewrite reading_not_at_end. cbn [negb].
    rewrite reading_consume by reflexivity. cbn [mbind outcome_bind].
    rewrite reading_consume by reflexivity. cbn [mbind outcome_bind].
    rewrite <- (app_assoc (render v)).
    destruct parse_render as (Hv & _ & _). rewrite Hv by lia.
    destruct (denote v) as [x | e |]; cbn [mbind outcome_bind]; try reflexivity.
    cbn [Token.value]. rewrite IH by lia.
    repeat rewrite <- app_assoc. cbn [app]. reflexivity.
Qed.

Lemma parse_fuel_split ms post :
  exists fuel,
    (2 * length (assignments ms ++ post) + 2 = count ms + S fuel)%nat
    /\ (length (assignments ms) < S fuel)%nat.
Proof.
  pose proof (count_assignments ms) as H. rewrite length_app.
  exists (2 * (length (assignments ms) + length post) + 1 - count ms)%nat. lia.
Qed.

Lemma parse_assignments ms :
  _Parser.parse (_Parser.mk (assignments ms) 0) = denote_members ms [].
Proof.
  unfold _Parser.parse. cbn [_Parser.tokens].
  destruct (parse_fuel_split ms []) as (fuel & Hf & Hlt). rewrite app_nil_r in Hf.
  rewrite Hf.
  change (_Parser.mk (assignments ms) 0) with (reading [] (assignments ms)).
  rewrite <- (app_nil_r (assignments ms)) at 1.
  rewrite parse_loop_assignments by exact Hlt.
  destruct (denote_members ms []) as [d | e |]; cbn [mbind outcome_bind]; try reflexivity.
  cbn [_Parser.parse_loop]. now rewrite reading_at_end.
Qed.

(** A config is a run of assignments with nothing between them: its value
    is the object built from the values of the assignments in order, a
    repeated key keeping its first place and taking the last value.  A
    comma after an assignment of the top level is a syntax error, at the
    comma: the separators are optional inside objects and lists only. *)
Theorem top_level_assignments ms :
  _Parser.parse (_Parser.mk (assignments ms) 0) = denote_members ms []
  /\ forall pos post,
       _Parser.parse (_Parser.mk (assignments ms ++ symbol "," pos :: post) 0)
       = (d ← denote_members ms [];
          Raise (ConfigSyntaxError "Expected token 'IDENT'" (Some pos))).
Proof.
  split; [apply parse_assignments |].
  intros pos post. unfold _Parser.parse. cbn [_Parser.tokens].
  destruct (parse_fuel_split ms (symbol "," pos :: post)) as (fuel & Hf & Hlt).
  rewrite Hf.
  change (_Parser.mk (assignments ms ++ symbol "," pos :: post) 0)
    with (reading [] (assignments ms ++ symbol "," pos :: post)).
  rewrite parse_loop_assignments by exact Hlt.
  destruct (denote_members ms []) as [d | e |]; cbn [mbind outcome_bind]; try reflexivity.
  cbn [_Parser.parse_loop]. rewrite reading_not_at_end. cbn [negb].
  unfold _Parser._consume. rewrite reading_check.
  cbn [symbol Token.kind String.eqb Ascii.eqb Bool.eqb mbind outcome_bind].
  unfold _Parser.here. now rewrite reading_not_at_end, reading_peek.
Qed.

(** ** Repeated keys *)

Lemma dict_get_set_same d k v : dict_get (dict_set d k v) k = v.
Proof.
  induction d as [| [k' v'] d IH]; simpl.
  - now rewrite String.eqb_refl.
  - destruct (String.eqb k' k) eqn:E; simpl; rewrite E; [reflexivity | exact IH].
Qed.

Lemma dict_get_set_other d k v k' : k <> k' -> dict_get (dict_set d k v) k' = dict_get d k'.
Proof.
  intros Hne. induction d as [| [k0 v0] d IH]; simpl.
  - apply String.eqb_neq in Hne. now rewrite Hne.
  - destruct (String.eqb k0 k) eqn:E; simpl.
    + apply String.eqb_eq in E. subst k0. apply String.eqb_neq in Hne. now rewrite Hne.
    + destruct (String.eqb k0 k'); [reflexivity | exact IH].
Qed.

Lemma denote_members_followed_by ms ms' :
  forall data,
    denote_members (followed_by ms ms') data
    = d ← denote_members ms data; denote_members ms' d.
Proof.
  induction ms as [| kp key ep v sep rest IH]; intros data; [reflexivity |].
  cbn [followed_by denote_members].
  destruct (denote v) as [x | e |]; cbn [mbind outcome_bind]; [apply IH | |]; reflexivity.
Qed.

Lemma denote_members_keeps ms k :
  forall data d,
    denote_members ms data = Return d -> ~ In k (keys ms) -> dict_get d k = dict_get data k.
Proof.
  induction ms as [| kp key ep v sep rest IH]; intros data d.
  - cbn [denote_members]. now intros [= <-].
  - cbn [denote_members keys]. intros H Hnot.
    destruct (denote v) as [x | e |]; cbn [mbind outcome_bind] in H; try discriminate H.
    rewrite (IH _ _ H) by (intros Hin; apply Hnot; now right).
    apply dict_get_set_other. intros ->. apply Hnot. now left.
Qed.

(** Of several assignments to one key the last one wins: when a config
    parses, the root object holds under a key the value of the last
    assignment to that key, whatever was assigned to it before. *)
Theorem last_assignment_wins before key_pos key eq_pos v sep after root :
  _Parser.parse
    (_Parser.mk (assignments (followed_by before (MCons key_pos key eq_pos v sep after))) 0)
  = Return root ->
  ~ In key (keys after) ->
  denote v = Return (dict_get root key).
Proof.
  rewrite parse_assignments, denote_members_followed_by. intros H Hnot.
  destruct (denote_members before []) as [d | e |]; cbn [mbind outcome_bind] in H;
    try discriminate H.
  cbn [denote_members] in H.
  destruct (denote v) as [x | e |]; cbn [mbind outcome_bind] in H; try discriminate H.
  rewrite (denote_members_keeps after key _ _ H Hnot). now rewrite dict_get_set_same.
Qed.

Lemma last_assignment_wins_witness :
  denote (TNumber (Position.mk 1 11) "2")
  = Return (dict_get [("a", VInt 2); ("b", VInt 7)] "a").
Proof.
  apply (last_assignment_wins
           (MCons (Position.mk 1 1) "a" (Position.mk 1 2) (TNumber (Position.mk 1 3) "1") None
              (MCons (Position.mk 1 5) "b" (Position.mk 1 6) (TNumber (Position.mk 1 7) "7")
                 None MNil))
           (Position.mk 1 9) "a" (Position.mk 1 10) (TNumber (Position.mk 1 11) "2") None MNil
           [("a", VInt 2); ("b", VInt 7)]).
  - vm_compute. reflexivity.
  - simpl. tauto.
Defined.

(** A config that ends in the middle of an assignment is a syntax error
    without a position: after a key the parser expects the equals sign,
    after the equals sign it finds no token for a value, and at the end of
    the tokens there is no token whose place the error could take. *)
Theorem truncated_config_has_no_position ms key_pos key eq_pos :
  _Parser.parse (_Parser.mk (assignments ms ++ [Token.mk "IDENT" key key_pos]) 0)
  = (d ← denote_members ms []; Raise (ConfigSyntaxError "Expected token '='" None))
  /\ _Parser.parse
       (_Parser.mk (assignments ms ++ [Token.mk "IDENT" key key_pos; symbol "=" eq_pos]) 0)
     = (d ← denote_members ms []; Raise (ConfigSyntaxError "Unexpected token" None)).
Proof.
  split; unfold _Parser.parse; cbn [_Parser.tokens].
  - destruct (parse_fuel_split ms [Token.mk "IDENT" key key_pos]) as (fuel & Hf & Hlt).
    rewrite Hf.
    change (_Parser.mk (assignments ms ++ [Token.mk "IDENT" key key_pos]) 0)
      with (reading [] (assignments ms ++ [Token.mk "IDENT" key key_pos])).
    rewrite parse_loop_assignments by exact Hlt.
    destruct (denote_members ms []) as [d | e |]; cbn [mbind outcome_bind]; try reflexivity.
    cbn [_Parser.parse_loop]. rewrite reading_not_at_end. cbn [negb].
    rewrite reading_consume by reflexivity. cbn [mbind outcome_bind].
    unfold _Parser._consume, _Parser._check, _Parser.here. now rewrite reading_at_end.
  - destruct (parse_fuel_split ms [Token.mk "IDENT" key key_pos; symbol "=" eq_pos])
      as (fuel & Hf & Hlt).
    rewrite Hf.
    change (_Parser.mk (assignments ms ++ [Token.mk "IDENT" key key_pos; symbol "=" eq_pos]) 0)
      with (reading [] (assignments ms ++ [Token.mk "IDENT" key key_pos; symbol "=" eq_pos])).
    rewrite parse_loop_assignments by exact Hlt.
    destruct (denote_members ms []) as [d | e |]; cbn [mbind outcome_bind]; try reflexivity.
    cbn [_Parser.parse_loop]. rewrite reading_not_at_end. cbn [negb].
    rewrite reading_consume by reflexivity. cbn [mbind outcome_bind].
    rewrite reading_consume by reflexivity. cbn [mbind outcome_bind].
    destruct fuel as [| fuel]; [simpl in Hlt; pose proof (count_assignments ms); lia |].
    cbn [_Parser._parse_value]. unfold _Parser._match, _Parser._check, _Parser.here.
    now rewrite reading_at_end.
Qed.

(** ** String literals *)

(** The loop of [_consume_string] over the escaped body of [s]: it
    collects [s] and goes on behind the body, on the same line. *)
Lemma consume_string_loop_body s :
  forall fuel start chars self rest,
    Tokenizer.text self = (escaped s ++ rest)%string ->
    Tokenizer._consume_string_loop (String.length s + fuel) start chars self
    = Tokenizer._consume_string_loop fuel start (chars ++ s)
        (Tokenizer.mk rest (Tokenizer.index self + String.length (escaped s))
           (Tokenizer.line self)
           (Tokenizer.column self + String.length (escaped s))).
Proof.
  induction s as [| c s IH]; intros fuel start chars self rest Htext;
    destruct self as [text index line column]; cbn [Tokenizer.text] in Htext; subst text.
  - cbn [escaped String.append String.length Nat.add Tokenizer.index Tokenizer.line
           Tokenizer.column].
    rewrite append_empty_r, !Nat.add_0_r. reflexivity.
  - assert (Hstep : forall c' text,
      Ascii.eqb c' dquote = false -> Ascii.eqb c' backslash = false ->
      Tokenizer._consume_string_loop (S (String.length s + fuel)) start chars
        (Tokenizer.mk (String c' text) index line column)
      = Tokenizer._consume_string_loop (String.length s + fuel) start
          (chars ++ String c' EmptyString)
          (Tokenizer.mk text (S index) line (S column))).
    { intros c' text Hq Hb. cbn [Tokenizer._consume_string_loop].
      unfold Tokenizer._eof, Tokenizer._peek. cbn [Tokenizer.text nonempty negb].
      now rewrite Hq, Hb. }
    assert (Hesc : forall c' text,
      Tokenizer._consume_string_loop (S (String.length s + fuel)) start chars
        (Tokenizer.mk (String backslash (String c' text)) index line column)
      = Tokenizer._consume_string_loop (String.length s + fuel) start
          (chars ++ String (Tokenizer._translate_escape c') EmptyString)
          (Tokenizer.mk text (S (S index)) line (S (S column)))).
    { intros c' text. reflexivity. }
    cbn [escaped Tokenizer.text Tokenizer.index Tokenizer.line Tokenizer.column
           String.length Nat.add].
    destruct (Ascii.eqb c dquote) eqn:Eq;
      [| destruct (Ascii.eqb c backslash) eqn:Eb;
         [| destruct (Ascii.eqb c newline) eqn:En; [| destruct (Ascii.eqb c tab) eqn:Et]]];
      rewrite ?Ascii.eqb_eq in *; subst; cbn [String.append];
      [rewrite Hesc | rewrite Hesc | rewrite Hesc | rewrite Hesc | rewrite (Hstep c _ Eq Eb)];
      (erewrite IH; [| reflexivity]);
      cbn [Tokenizer.index Tokenizer.line Tokenizer.column String.length];
      rewrite append_assoc3; f_equal; f_equal; lia.
Qed.

Lemma consume_string_loop_escaped s :
  forall fuel start chars self rest,
    Tokenizer.text self = (escaped s ++ String dquote rest)%string ->
    (String.length s < fuel)%nat ->
    Tokenizer._consume_string_loop fuel start chars self
    = Return (Token.mk "STRING" (chars ++ s) start,
              Tokenizer.mk rest (Tokenizer.index self + String.length (escaped s) + 1)
                (Tokenizer.line self)
                (Tokenizer.column self + String.length (escaped s) + 1)).
Proof.
  intros fuel start chars self rest Htext Hfuel.
  replace fuel with (String.length s + S (fuel - String.length s - 1))%nat by lia.
  rewrite (consume_string_loop_body s _ start chars self _ Htext).
  cbn [Tokenizer._consume_string_loop].
  unfold Tokenizer._eof, Tokenizer._peek, Tokenizer._advance, Tokenizer._unescape_string.
  cbn [Tokenizer.text Tokenizer.index Tokenizer.line Tokenizer.column nonempty negb].
  rewrite Ascii.eqb_refl. f_equal; f_equal; f_equal; lia.
Qed.

Lemma length_escaped s : (String.length s <= String.length (escaped s))%nat.
Proof.
  induction s as [| c s IH]; [simpl; lia |]. cbn [escaped].
  rewrite length_append. simpl String.length at 1.
  destruct (Ascii.eqb c dquote); [simpl; lia |].
  destruct (Ascii.eqb c backslash); [simpl; lia |].
  destruct (Ascii.eqb c newline); [simpl; lia |].
  destruct (Ascii.eqb c tab); simpl; lia.
Qed.

Lemma consume_string_quoted s self rest :
  Tokenizer.text self = (quoted s ++ rest)%string ->
  Tokenizer._consume_string self
  = Return (Token.mk "STRING" s (Tokenizer._position self),
            Tokenizer.mk rest (Tokenizer.index self + String.length (quoted s))
              (Tokenizer.line self) (Tokenizer.column self + String.length (quoted s))).
Proof.
  intros Htext. unfold Tokenizer._consume_string, Tokenizer.fuel_of. rewrite Htext.
  unfold quoted. cbn [String.append]. rewrite append_assoc3. cbn [String.append].
  rewrite (consume_string_loop_escaped s _ _ EmptyString (Tokenizer._advance self false) rest).
  - cbn [String.append Tokenizer._advance Tokenizer.index Tokenizer.line Tokenizer.column].
    simpl String.length. rewrite length_append. simpl String.length.
    f_equal; f_equal; f_equal; lia.
  - unfold Tokenizer._advance. cbn [Tokenizer.text]. rewrite Htext. unfold quoted.
    cbn [String.append]. now rewrite append_assoc3.
  - pose proof (length_escaped s). simpl String.length. rewrite length_append. lia.
Qed.

Lemma tokens_loop_string fuel self result s rest :
  Tokenizer.text self = (quoted s ++ rest)%string ->
  Tokenizer.tokens_loop (S fuel) self result
  = Tokenizer.tokens_loop fuel
      (Tokenizer.mk rest (Tokenizer.index self + String.length (quoted s))
         (Tokenizer.line self) (Tokenizer.column self + String.length (quoted s)))
      (result ++ [Token.mk "STRING" s (Tokenizer._position self)]).
Proof.
  intros Htext. cbn [Tokenizer.tokens_loop].
  rewrite (consume_string_quoted s self rest Htext).
  unfold Tokenizer._eof, Tokenizer._peek. rewrite Htext. reflexivity.
Qed.

(** Every string can be written as a literal and read back: between double
    quotes, with the double quote and the backslash escaped and the newline
    and the tab written [\n] and [\t], it is one STRING token holding
    the string, at the place of the opening quote, and the tokenizer goes on
    behind the closing quote on the same line; assigned to a key, it parses
    to that string. *)
Theorem string_literal_round_trip s :
  (forall self rest,
     Tokenizer.text self = (quoted s ++ rest)%string ->
     Tokenizer._consume_string self
     = Return (Token.mk "STRING" s (Tokenizer._position self),
               Tokenizer.mk rest (Tokenizer.index self + String.length (quoted s))
                 (Tokenizer.line self)
                 (Tokenizer.column self + String.length (quoted s))))
  /\ Tokenizer.tokens (Tokenizer.init (quoted s))
     = Return [Token.mk "STRING" s (Position.mk 1 1)]
  /\ parse_config ("x=" ++ quoted s) = Return [("x", VStr s)].
Proof.
  split; [intros self rest; apply consume_string_quoted |]. split.
  - unfold Tokenizer.tokens, Tokenizer.fuel_of. cbn [Tokenizer.init Tokenizer.text].
    unfold quoted at 1. simpl String.length.
    rewrite (tokens_loop_string _ (Tokenizer.init (quoted s)) [] s EmptyString)
      by (cbn [Tokenizer.init Tokenizer.text]; now rewrite append_empty_r).
    rewrite length_append. simpl String.length.
    replace (String.length (escaped s) + 1)%nat with (S (String.length (escaped s))) by lia.
    reflexivity.
  - assert (Hx : forall fuel q,
              Tokenizer.tokens_loop (S (S fuel))
                (Tokenizer.init (String "x" (String "=" q))) []
              = Tokenizer.tokens_loop fuel (Tokenizer.mk q 2 1 3)
                  [Token.mk "IDENT" "x" (Position.mk 1 1); symbol "=" (Position.mk 1 2)]).
    { intros fuel q. cbn. reflexivity. }
    unfold parse_config, Tokenizer.tokens, Tokenizer.fuel_of.
    cbn [Tokenizer.init Tokenizer.text String.append]. simpl String.length.
    change (Tokenizer.mk (String "x" (String "=" (quoted s))) 0 1 1)
      with (Tokenizer.init (String "x" (String "=" (quoted s)))).
    rewrite Hx.
    rewrite (tokens_loop_string _ _ _ s EmptyString)
      by (cbn [Tokenizer.text]; now rewrite append_empty_r).
    cbn [Tokenizer.tokens_loop Tokenizer._eof Tokenizer.text nonempty negb
           mbind outcome_bind app Tokenizer._position Tokenizer.line Tokenizer.column].
    apply (parse_assignment (Position.mk 1 1) "x" (Position.mk 1 2)
             (TString (Position.mk 1 3) s)).
Qed.

(** ** Fuel and comments *)

(** The result of the main loop does not depend on the fuel, once there is
    more of it than unread characters. *)
Lemma tokens_loop_fuel f1 :
  forall f2 self result,
    (unread self < f1)%nat -> (unread self < f2)%nat ->
    Tokenizer.tokens_loop f1 self result = Tokenizer.tokens_loop f2 self result.
Proof.
  induction f1 as [| f1 IH]; intros f2 self result H1 H2; [lia |].
  destruct f2 as [| f2]; [lia |].
  cbn [Tokenizer.tokens_loop].
  destruct (Tokenizer._eof self) eqn:Heof; [reflexivity |].
  pose proof (unread_advance self false Heof) as Hadv.
  pose proof (unread_advance self true Heof) as Hadvn.
  destruct (contains (Tokenizer._peek self) (String " " (String tab (String cr EmptyString))));
    [apply IH; lia |].
  destruct (Ascii.eqb (Tokenizer._peek self) newline) eqn:Hnl; [apply IH; lia |].
  destruct (Ascii.eqb (Tokenizer._peek self) "#").
  { unfold Tokenizer._consume_comment.
    destruct (consume_comment_returns (Tokenizer.fuel_of self) self) as (self' & -> & _ & Hlt);
      [unfold Tokenizer.fuel_of, unread; lia |].
    cbn [mbind outcome_bind].
    assert ((unread self' < unread self)%nat) by (apply Hlt; now rewrite Heof, Hnl).
    apply IH; lia. }
  destruct (Ascii.eqb (Tokenizer._peek self) dquote).
  { destruct (consume_string_returns self Heof) as [Hne Hlt].
    destruct (Tokenizer._consume_string self) as [[tok self'] | e |]; cbn [mbind outcome_bind];
      [| reflexivity | reflexivity].
    specialize (Hlt tok self' eq_refl). apply IH; lia. }
  destruct (contains (Tokenizer._peek self) Tokenizer.SYMBOLS).
  { unfold Tokenizer._consume_symbol. apply IH; lia. }
  destruct (isdigit (Tokenizer._peek self)
            || Ascii.eqb (Tokenizer._peek self) "-" && isdigit (Tokenizer._peek_next self))
    eqn:Hnum.
  { assert (Hstart : isdigit (Tokenizer._peek self) || Ascii.eqb (Tokenizer._peek self) "-" = true).
    { apply orb_true_iff in Hnum as [H | H]; [now rewrite H |].
      apply andb_true_iff in H as [H _]. rewrite H. apply orb_true_r. }
    destruct (consume_number_returns self Heof Hstart) as [Hne Hlt].
    destruct (Tokenizer._consume_number self) as [[tok self'] | e |]; cbn [mbind outcome_bind];
      [| reflexivity | reflexivity].
    specialize (Hlt tok self' eq_refl). apply IH; lia. }
  destruct (isalpha (Tokenizer._peek self) || Ascii.eqb (Tokenizer._peek self) "_") eqn:Hid;
    [| reflexivity].
  destruct (consume_identifier_returns self Heof Hid) as [Hne Hlt].
  destruct (Tokenizer._consume_identifier self) as [[tok self'] | e |]; cbn [mbind outcome_bind];
    [| reflexivity | reflexivity].
  specialize (Hlt tok self' eq_refl). apply IH; lia.
Qed.

Lemma consume_comment_line c :
  forall fuel self rest,
    contains newline c = false ->
    Tokenizer.text self = (c ++ rest)%string ->
    stops (fun ch => negb (Ascii.eqb ch newline)) rest ->
    (String.length c < fuel)%nat ->
    Tokenizer._consume_comment_loop fuel self
    = Return (Tokenizer.mk rest (Tokenizer.index self + String.length c)
                (Tokenizer.line self) (Tokenizer.column self + String.length c)).
Proof.
  induction c as [| x c IH]; intros fuel self rest Hc Htext Hrest Hfuel;
    (destruct fuel as [| fuel]; [simpl in Hfuel; lia |]);
    destruct self as [text index line column]; cbn [Tokenizer.text] in Htext; subst text;
    cbn [Tokenizer._consume_comment_loop].
  - cbn [String.append]. unfold Tokenizer._eof, Tokenizer._peek. cbn [Tokenizer.text].
    destruct rest as [| y rest].
    + cbn. f_equal; f_equal; lia.
    + simpl in Hrest. apply negb_false_iff in Hrest. cbn [nonempty negb andb].
      rewrite Hrest. cbn. f_equal; f_equal; lia.
  - simpl in Hc. apply orb_false_iff in Hc as [Hx Hc].
    unfold Tokenizer._eof, Tokenizer._peek. cbn [Tokenizer.text String.append nonempty negb andb].
    rewrite Hx. cbn [negb]. unfold Tokenizer._advance.
    cbn [Tokenizer.text Tokenizer.index Tokenizer.line Tokenizer.column].
    erewrite IH; [| exact Hc | reflexivity | exact Hrest | simpl in Hfuel; lia].
    cbn [Tokenizer.index Tokenizer.line Tokenizer.column]. simpl String.length.
    f_equal; f_equal; lia.
Qed.

Lemma tokens_loop_comment fuel index line column c rest result :
  contains newline c = false ->
  stops (fun ch => negb (Ascii.eqb ch newline)) rest ->
  Tokenizer.tokens_loop (S fuel) (Tokenizer.mk (String "#" (c ++ rest)) index line column) result
  = Tokenizer.tokens_loop fuel
      (Tokenizer.mk rest (index + S (String.length c)) line (column + S (String.length c)))
      result.
Proof.
  intros Hc Hrest. cbn [Tokenizer.tokens_loop].
  unfold Tokenizer._eof at 1, Tokenizer._peek at 1 2 3. cbn [Tokenizer.text nonempty negb].
  change (contains "#" (String " " (String tab (String cr EmptyString)))) with false.
  change (Ascii.eqb "#" newline) with false. change (Ascii.eqb "#" "#") with true.
  cbv iota. unfold Tokenizer._consume_comment.
  rewrite (consume_comment_line (String "#" c) _ _ rest).
  - reflexivity.
  - simpl. exact Hc.
  - reflexivity.
  - exact Hrest.
  - unfold Tokenizer.fuel_of. cbn [Tokenizer.text]. simpl String.length.
    rewrite length_append. lia.
Qed.

Lemma tokens_loop_newline fuel index line column rest result :
  Tokenizer.tokens_loop (S fuel) (Tokenizer.mk (String newline rest) index line column) result
  = Tokenizer.tokens_loop fuel (Tokenizer.mk rest (S index) (S line) 1) result.
Proof. reflexivity. Qed.

(** A comment runs from [#] to the end of its line and leaves no token:
    the tokens of a text that starts with a comment line are those of the
    text behind the newline, read from line 2, column 1; a comment that
    the text ends in is skipped as well. *)
Theorem comment_is_skipped c :
  contains newline c = false ->
  (forall rest,
     Tokenizer.tokens (Tokenizer.init (String "#" (c ++ String newline rest)))
     = Tokenizer.tokens (Tokenizer.mk rest (String.length c + 2) 2 1))
  /\ Tokenizer.tokens (Tokenizer.init (String "#" c)) = Return [].
Proof.
  intros Hc. split.
  - intros rest. unfold Tokenizer.tokens, Tokenizer.fuel_of at 1.
    cbn [Tokenizer.init Tokenizer.text]. simpl String.length. rewrite length_append.
    simpl String.length.
    replace (S (S (String.length c + S (String.length rest))))
      with (S (S (S (String.length c + String.length rest)))) by lia.
    unfold Tokenizer.init.
    rewrite tokens_loop_comment by first [exact Hc | reflexivity].
    rewrite tokens_loop_newline.
    replace (S (0 + S (String.length c))) with (String.length c + 2)%nat by lia.
    apply tokens_loop_fuel; unfold unread, Tokenizer.fuel_of; cbn [Tokenizer.text]; lia.
  - unfold Tokenizer.tokens, Tokenizer.fuel_of.
    cbn [Tokenizer.init Tokenizer.text]. simpl String.length.
    rewrite <- (append_empty_r c) at 2. unfold Tokenizer.init.
    rewrite tokens_loop_comment by first [exact Hc | exact I].
    destruct (String.length c); reflexivity.
Qed.

Lemma comment_is_skipped_witness :
  Tokenizer.tokens (Tokenizer.init (String "#" (" listen" ++ String newline "x=1")))
  = Tokenizer.tokens (Tokenizer.mk "x=1" (String.length " listen" + 2) 2 1).
Proof.
  apply (proj1 (comment_is_skipped " listen" eq_refl)).
Defined.

(** ** Positions outside string literals *)

Lemma position_after_step s :
  forall line column c rest,
    position_after line column (s ++ String c rest) (S (String.length s))
    = (let p := position_after line column (s ++ String c rest) (String.length s) in
       if Ascii.eqb c newline then Position.mk (S (Position.line p)) 1
       else Position.mk (Position.line p) (S (Position.column p))).
Proof.
  induction s as [| x s IH]; intros line column c rest.
  - cbn. destruct (Ascii.eqb c newline); now destruct rest.
  - cbn [String.append String.length position_after].
    destruct (Ascii.eqb x newline); apply IH.
Qed.

Lemma at_position_advance text self :
  at_position text self -> Tokenizer._eof self = false ->
  at_position text
    (Tokenizer._advance self (Ascii.eqb (Tokenizer._peek self) newline)).
Proof.
  intros (pre & Htext & Hpos) Heof.
  destruct self as [t index line column]. unfold Tokenizer._eof in Heof.
  cbn [Tokenizer.text] in *. destruct t as [| c rest]; [discriminate Heof |].
  exists (pre ++ String c EmptyString)%string. unfold Tokenizer._advance, Tokenizer._peek.
  cbn [Tokenizer.text Tokenizer.line Tokenizer.column]. split.
  - now rewrite append_assoc3.
  - rewrite length_append. cbn [String.length]. rewrite Nat.add_1_r.
    unfold position_at in *. rewrite Htext at 1. rewrite position_after_step.
    rewrite <- Htext, <- Hpos. unfold Tokenizer._position.
    cbn [Tokenizer.line Tokenizer.column Position.line Position.column].
    now destruct (Ascii.eqb c newline).
Qed.

Lemma advance_moved text self :
  at_position text self -> Tokenizer._eof self = false ->
  Ascii.eqb (Tokenizer._peek self) newline = false ->
  moved text self (Tokenizer._advance self false) (String (Tokenizer._peek self) EmptyString).
Proof.
  intros Hat Heof Hnl. split.
  - rewrite <- Hnl. now apply at_position_advance.
  - unfold Tokenizer._eof in Heof. unfold Tokenizer._peek, Tokenizer._advance.
    cbn [Tokenizer.text]. now destruct (Tokenizer.text self).
Qed.

Lemma consume_while_moved p fuel :
  (forall c, p c = true -> Ascii.eqb c newline = false) ->
  forall text literal self lit self',
    at_position text self ->
    Tokenizer._consume_while p fuel literal self = Return (lit, self') ->
    exists run, lit = (literal ++ run)%string /\ moved text self self' run.
Proof.
  intros Hp. induction fuel as [| fuel IH]; intros text literal self lit self' Hat;
    [discriminate |].
  cbn [Tokenizer._consume_while].
  destruct (negb (Tokenizer._eof self) && p (Tokenizer._peek self)) eqn:Hgo.
  - apply andb_true_iff in Hgo as [Heof Hc]. apply negb_true_iff in Heof.
    destruct (advance_moved text self Hat Heof (Hp _ Hc)) as (Hat' & Htext).
    intros H. destruct (IH text _ _ _ _ Hat' H) as (run & -> & Hat'' & Htext').
    exists (String (Tokenizer._peek self) run). split; [now rewrite append_assoc3 |].
    split; [exact Hat'' |]. rewrite Htext, Htext'. reflexivity.
  - intros [= <- <-]. exists EmptyString. split; [now rewrite append_empty_r |].
    split; [exact Hat | reflexivity].
Qed.

Lemma consume_comment_moved fuel :
  forall text self self',
    at_position text self ->
    Tokenizer._consume_comment_loop fuel self = Return self' ->
    exists run, moved text self self' run.
Proof.
  induction fuel as [| fuel IH]; intros text self self' Hat; [discriminate |].
  cbn [Tokenizer._consume_comment_loop].
  destruct (negb (Tokenizer._eof self) && negb (Ascii.eqb (Tokenizer._peek self) newline))
    eqn:Hgo.
  - apply andb_true_iff in Hgo as [Heof Hc]. apply negb_true_iff in Heof, Hc.
    destruct (advance_moved text self Hat Heof Hc) as (Hat' & Htext).
    intros H. destruct (IH text _ _ Hat' H) as (run & Hat'' & Htext').
    exists (String (Tokenizer._peek self) run). split; [exact Hat'' |].
    rewrite Htext, Htext'. reflexivity.
  - intros [= <-]. exists EmptyString. split; [exact Hat | reflexivity].
Qed.

Lemma moved_located text self self' tok :
  at_position text self ->
  moved text self self' (Token.value tok) ->
  Token.position tok = Tokenizer._position self ->
  located text tok.
Proof.
  intros (pre & Htext & Hpos) (_ & Hrun) Htok.
  exists pre, (Tokenizer.text self'). split; [now rewrite <- Hrun | congruence].
Qed.

Lemma digit_not_newline c : isdigit c = true -> Ascii.eqb c newline = false.
Proof. each_char c. Qed.

Lemma word_not_newline c :
  isalnum c || Ascii.eqb c "_" = true -> Ascii.eqb c newline = false.
Proof. each_char c. Qed.

Lemma moved_trans text a b c r1 r2 :
  moved text a b r1 -> moved text b c r2 -> moved text a c (r1 ++ r2).
Proof.
  intros (_ & H1) (Hat & H2). split; [exact Hat |]. now rewrite H1, H2, append_assoc3.
Qed.

Lemma moved_refl text self : at_position text self -> moved text self self EmptyString.
Proof. intros H. now split. Qed.

Lemma consume_identifier_located text self tok self' :
  at_position text self ->
  Tokenizer._consume_identifier self = Return (tok, self') ->
  located text tok /\ moved text self self' (Token.value tok).
Proof.
  intros Hat. unfold Tokenizer._consume_identifier.
  pose proof (consume_while_moved (fun c => isalnum c || Ascii.eqb c "_")
                (Tokenizer.fuel_of self) word_not_newline text EmptyString self) as Hw.
  destruct (Tokenizer._consume_while _ _ _ _) as [[lit self1] | e |];
    cbn [mbind outcome_bind]; try discriminate.
  intros [= <- <-]. destruct (Hw lit self1 Hat eq_refl) as (run & -> & Hm).
  cbn [String.append] in *. split; [| exact Hm].
  now apply (moved_located text self self1).
Qed.

Lemma consume_symbol_located text self :
  at_position text self -> Tokenizer._eof self = false ->
  Ascii.eqb (Tokenizer._peek self) newline = false ->
  located text (fst (Tokenizer._consume_symbol self))
  /\ moved text self (snd (Tokenizer._consume_symbol self))
       (Token.value (fst (Tokenizer._consume_symbol self))).
Proof.
  intros Hat Heof Hnl. cbn [Tokenizer._consume_symbol fst snd Token.value].
  pose proof (advance_moved text self Hat Heof Hnl) as Hm. split; [| exact Hm].
  now apply (moved_located text self (Tokenizer._advance self false)).
Qed.

Lemma consume_number_located text self tok self' :
  at_position text self -> Tokenizer._eof self = false ->
  Tokenizer._consume_number self = Return (tok, self') ->
  located text tok /\ moved text self self' (Token.value tok).
Proof.
  intros Hat Heof. unfold Tokenizer._consume_number.
  assert (Hfirst : exists lit0 self0,
    (if Ascii.eqb (Tokenizer._peek self) "-"
     then (String (Tokenizer._peek self) EmptyString, Tokenizer._advance self false)
     else (EmptyString, self)) = (lit0, self0) /\ moved text self self0 lit0).
  { destruct (Ascii.eqb (Tokenizer._peek self) "-") eqn:Hm.
    - eexists _, _. split; [reflexivity |]. apply advance_moved; try assumption.
      apply Ascii.eqb_eq in Hm. now rewrite Hm.
    - eexists _, _. split; [reflexivity | now apply moved_refl]. }
  destruct Hfirst as (lit0 & self0 & -> & Hm0).
  pose proof (consume_while_moved isdigit (Tokenizer.fuel_of self0) digit_not_newline
                text lit0 self0) as Hw.
  destruct (Tokenizer._consume_while isdigit (Tokenizer.fuel_of self0) lit0 self0)
    as [[lit1 self1] | e |]; cbn [mbind outcome_bind]; try discriminate.
  destruct (Hw lit1 self1 (proj1 Hm0) eq_refl) as (run & -> & Hm1).
  pose proof (moved_trans _ _ _ _ _ _ Hm0 Hm1) as Hm01.
  destruct (negb (Tokenizer._eof self1) && Ascii.eqb (Tokenizer._peek self1) ".") eqn:Hpt.
  - cbv zeta. apply andb_true_iff in Hpt as [Heof1 Hdot].
    apply negb_true_iff in Heof1. apply Ascii.eqb_eq in Hdot.
    destruct (Tokenizer._eof (Tokenizer._advance self1 false)
              || negb (isdigit (Tokenizer._peek (Tokenizer._advance self1 false))));
      [discriminate |].
    assert (Hm2 : moved text self1 (Tokenizer._advance self1 false) ".").
    { rewrite <- Hdot. apply advance_moved; [exact (proj1 Hm1) | exact Heof1 |].
      now rewrite Hdot. }
    pose proof (moved_trans _ _ _ _ _ _ Hm01 Hm2) as Hm012.
    set (self2 := Tokenizer._advance self1 false) in *.
    pose proof (consume_while_moved isdigit (Tokenizer.fuel_of self2) digit_not_newline
                  text ((lit0 ++ run) ++ ".") self2) as Hw2.
    destruct (Tokenizer._consume_while isdigit (Tokenizer.fuel_of self2)
                ((lit0 ++ run) ++ ".") self2) as [[lit3 self3] | e |];
      cbn [mbind outcome_bind]; try discriminate.
    destruct (Hw2 lit3 self3 (proj1 Hm2) eq_refl) as (run2 & -> & Hm3).
    intros [= <- <-]. cbn [Token.value].
    pose proof (moved_trans _ _ _ _ _ _ Hm012 Hm3) as Hm.
    split; [| exact Hm]. now apply (moved_located text self self3).
  - intros [= <- <-]. cbn [Token.value]. split; [| exact Hm01].
    now apply (moved_located text self self1).
Qed.

Lemma moved_no_quote text self self' run :
  moved text self self' run ->
  contains dquote (Tokenizer.text self) = false ->
  contains dquote (Tokenizer.text self') = false.
Proof.
  intros (_ & Htext) H. rewrite Htext, contains_app in H.
  now apply orb_false_iff in H as [_ H].
Qed.

Lemma tokens_loop_located text fuel :
  forall self result toks,
    at_position text self ->
    contains dquote (Tokenizer.text self) = false ->
    List.Forall (located text) result ->
    Tokenizer.tokens_loop fuel self result = Return toks ->
    List.Forall (located text) toks.
Proof.
  induction fuel as [| fuel IH]; intros self result toks Hat Hq Hres; [discriminate |].
  cbn [Tokenizer.tokens_loop].
  destruct (Tokenizer._eof self) eqn:Heof; [now intros [= <-] |].
  assert (Hnext : forall nl,
            contains dquote (Tokenizer.text (Tokenizer._advance self nl)) = false).
  { intros nl. unfold Tokenizer._advance. cbn [Tokenizer.text].
    destruct (Tokenizer.text self) as [| c r]; [reflexivity |].
    simpl in Hq. now apply orb_false_iff in Hq as [_ Hq]. }
  destruct (contains (Tokenizer._peek self) (String " " (String tab (String cr EmptyString))))
    eqn:Hsp.
  { apply IH; [| apply Hnext | exact Hres].
    assert (Hnl : Ascii.eqb (Tokenizer._peek self) newline = false).
    { revert Hsp. generalize (Tokenizer._peek self). intros c. each_char c. }
    rewrite <- Hnl. now apply at_position_advance. }
  destruct (Ascii.eqb (Tokenizer._peek self) newline) eqn:Hnl.
  { apply IH; [| apply Hnext | exact Hres]. rewrite <- Hnl. now apply at_position_advance. }
  destruct (Ascii.eqb (Tokenizer._peek self) "#").
  { unfold Tokenizer._consume_comment.
    pose proof (consume_comment_moved (Tokenizer.fuel_of self) text self) as Hc.
    destruct (Tokenizer._consume_comment_loop (Tokenizer.fuel_of self) self) as [self' | e |];
      cbn [mbind outcome_bind]; try discriminate.
    destruct (Hc self' Hat eq_refl) as (run & Hm).
    apply IH; [exact (proj1 Hm) | now apply (moved_no_quote text self self' run) | exact Hres]. }
  destruct (Ascii.eqb (Tokenizer._peek self) dquote) eqn:Hdq.
  { exfalso. apply Ascii.eqb_eq in Hdq. unfold Tokenizer._eof in Heof.
    unfold Tokenizer._peek in Hdq. destruct (Tokenizer.text self) as [| c r];
      [discriminate Heof |].
    subst c. simpl in Hq. discriminate Hq. }
  destruct (contains (Tokenizer._peek self) Tokenizer.SYMBOLS).
  { destruct (consume_symbol_located text self Hat Heof Hnl) as (Hloc & Hm).
    destruct (Tokenizer._consume_symbol self) as [tok self'] eqn:E. cbn [fst snd] in *.
    apply IH; [exact (proj1 Hm) | now apply (moved_no_quote text self self' _ Hm) |].
    now apply Forall_snoc. }
  destruct (isdigit (Tokenizer._peek self)
            || (Ascii.eqb (Tokenizer._peek self) "-" && isdigit (Tokenizer._peek_next self))).
  { pose proof (consume_number_located text self) as Hn.
    destruct (Tokenizer._consume_number self) as [[tok self'] | e |];
      cbn [mbind outcome_bind]; try discriminate.
    destruct (Hn tok self' Hat Heof eq_refl) as (Hloc & Hm).
    apply IH; [exact (proj1 Hm) | now apply (moved_no_quote text self self' _ Hm) |].
    now apply Forall_snoc. }
  destruct (isalpha (Tokenizer._peek self) || Ascii.eqb (Tokenizer._peek self) "_");
    [| discriminate].
  pose proof (consume_identifier_located text self) as Hi.
  destruct (Tokenizer._consume_identifier self) as [[tok self'] | e |];
    cbn [mbind outcome_bind]; try discriminate.
  destruct (Hi tok self' Hat eq_refl) as (Hloc & Hm).
  apply IH; [exact (proj1 Hm) | now apply (moved_no_quote text self self' _ Hm) |].
  now apply Forall_snoc.
Qed.

(** In a text without a double quote the tokenizer returns tokens that
    all stand where their position says, or raises a syntax error: the
    literal of each token is in the text at some index, and its position is
    the line and the column of that index, lines and columns counted from 1
    and a newline ending its line. *)
Theorem token_positions text :
  contains dquote text = false ->
  match Tokenizer.tokens (Tokenizer.init text) with
  | Return toks => List.Forall (located text) toks
  | Raise e => is_syntax_error e
  | OutOfFuel => False
  end.
Proof.
  intros Hq. pose proof (tokens_returns (Tokenizer.init text)) as Hret.
  pose proof (tokens_loop_shaped (Tokenizer.fuel_of (Tokenizer.init text))
                (Tokenizer.init text) [] (List.Forall_nil _)) as Hraise.
  pose proof (tokens_loop_located text (Tokenizer.fuel_of (Tokenizer.init text))
                (Tokenizer.init text) []) as Hloc.
  unfold Tokenizer.tokens in *.
  destruct (Tokenizer.tokens_loop _ _ _) as [toks | e |];
    [| exact Hraise | now elim Hret].
  apply Hloc; try assumption; try reflexivity.
  - exists EmptyString. split; [reflexivity |]. unfold position_at. now destruct text.
  - constructor.
Qed.

Lemma token_positions_witness :
  List.Forall (located (String "a" (String "=" (String "1" (String newline "b=2")))))
    [Token.mk "IDENT" "a" (Position.mk 1 1); Token.mk "=" "=" (Position.mk 1 2);
     Token.mk "NUMBER" "1" (Position.mk 1 3); Token.mk "IDENT" "b" (Position.mk 2 1);
     Token.mk "=" "=" (Position.mk 2 2); Token.mk "NUMBER" "2" (Position.mk 2 3)].
Proof.
  exact (token_positions (String "a" (String "=" (String "1" (String newline "b=2"))))
           eq_refl).
Defined.

(** ** A text read to its end and further *)

Lemma separator_facts b :
  separator b = true ->
  isdigit b = false /\ isalnum b || Ascii.eqb b "_" = false /\
  Ascii.eqb b "." = false /\ Ascii.eqb b "-" = false /\
  Ascii.eqb b "#" = false /\ Ascii.eqb b dquote = false.
Proof. each_char b. Qed.

Lemma ends_with_nonempty b s : ends_with b s -> nonempty s = true.
Proof. intros [x ->]. now destruct x. Qed.

Lemma ends_with_tail b c r :
  ends_with b (String c r) -> (r = EmptyString /\ c = b) \/ ends_with b r.
Proof.
  intros [x Hx]. destruct x as [| y x]; simpl in Hx.
  - injection Hx as -> ->. now left.
  - injection Hx as -> ->. right. now exists x.
Qed.

Lemma extended_peek self suffix :
  Tokenizer._eof self = false ->
  Tokenizer._eof (extended self suffix) = false /\
  Tokenizer._peek (extended self suffix) = Tokenizer._peek self.
Proof.
  unfold Tokenizer._eof, Tokenizer._peek, extended. cbn [Tokenizer.text].
  destruct (Tokenizer.text self); [discriminate | now split].
Qed.

Lemma extended_advance self suffix nl :
  Tokenizer._eof self = false ->
  Tokenizer._advance (extended self suffix) nl = extended (Tokenizer._advance self nl) suffix.
Proof.
  unfold Tokenizer._eof, Tokenizer._advance, extended.
  cbn [Tokenizer.text Tokenizer.index Tokenizer.line Tokenizer.column].
  destruct (Tokenizer.text self); [discriminate | reflexivity].
Qed.

(** A scan that stops inside the text does the same when more text
    follows. *)
Lemma consume_while_extended p suffix f :
  forall literal self lit self',
    Tokenizer._consume_while p f literal self = Return (lit, self') ->
    Tokenizer._eof self' = false ->
    forall f', (f <= f')%nat ->
      Tokenizer._consume_while p f' literal (extended self suffix)
      = Return (lit, extended self' suffix).
Proof.
  induction f as [| f IH]; intros literal self lit self' Hrun Hne f' Hf; [discriminate |].
  destruct f' as [| f']; [lia |]. cbn [Tokenizer._consume_while] in *.
  destruct (Tokenizer._eof self) eqn:Heof.
  - cbn [negb andb] in Hrun. injection Hrun as <- <-. congruence.
  - destruct (extended_peek self suffix Heof) as [-> ->]. cbn [negb andb] in *.
    destruct (p (Tokenizer._peek self)).
    + rewrite extended_advance by exact Heof. apply IH; [exact Hrun | exact Hne | lia].
    + now injection Hrun as <- <-.
Qed.

(** A scan stops before a last character that fails its test. *)
Lemma consume_while_ends p b f :
  p b = false ->
  forall literal self lit self',
    Tokenizer._consume_while p f literal self = Return (lit, self') ->
    ends_with b (Tokenizer.text self) -> ends_with b (Tokenizer.text self').
Proof.
  intros Hb. induction f as [| f IH]; intros literal self lit self' Hrun He; [discriminate |].
  cbn [Tokenizer._consume_while] in Hrun.
  destruct (negb (Tokenizer._eof self) && p (Tokenizer._peek self)) eqn:Hgo.
  - apply (IH _ _ _ _ Hrun). apply andb_true_iff in Hgo as [_ Hp].
    unfold Tokenizer._peek in Hp. unfold Tokenizer._advance. cbn [Tokenizer.text].
    destruct (Tokenizer.text self) as [| c r]; [now apply ends_with_nonempty in He |].
    destruct (ends_with_tail b c r He) as [[_ ->] | H]; [congruence | exact H].
  - now injection Hrun as _ <-.
Qed.

Lemma comment_loop_extended suffix f :
  forall self self',
    Tokenizer._consume_comment_loop f self = Return self' ->
    Tokenizer._eof self' = false ->
    forall f', (f <= f')%nat ->
      Tokenizer._consume_comment_loop f' (extended self suffix) = Return (extended self' suffix).
Proof.
  induction f as [| f IH]; intros self self' Hrun Hne f' Hf; [discriminate |].
  destruct f' as [| f']; [lia |]. cbn [Tokenizer._consume_comment_loop] in *.
  destruct (Tokenizer._eof self) eqn:Heof.
  - cbn [negb andb] in Hrun. injection Hrun as <-. congruence.
  - destruct (extended_peek self suffix Heof) as [-> ->]. cbn [negb andb] in *.
    destruct (negb (Ascii.eqb (Tokenizer._peek self) newline)).
    + rewrite extended_advance by exact Heof. apply IH; [exact Hrun | exact Hne | lia].
    + now injection Hrun as <-.
Qed.

Lemma comment_loop_ends f :
  forall self self',
    Tokenizer._consume_comment_loop f self = Return self' ->
    ends_with newline (Tokenizer.text self) -> ends_with newline (Tokenizer.text self').
Proof.
  induction f as [| f IH]; intros self self' Hrun He; [discriminate |].
  cbn [Tokenizer._consume_comment_loop] in Hrun.
  destruct (negb (Tokenizer._eof self) && negb (Ascii.eqb (Tokenizer._peek self) newline))
    eqn:Hgo.
  - apply (IH _ _ Hrun). apply andb_true_iff in Hgo as [_ Hp]. apply negb_true_iff in Hp.
    unfold Tokenizer._peek in Hp. unfold Tokenizer._advance. cbn [Tokenizer.text].
    destruct (Tokenizer.text self) as [| c r]; [now apply ends_with_nonempty in He |].
    destruct (ends_with_tail newline c r He) as [[_ ->] | H]; [| exact H].
    rewrite Ascii.eqb_refl in Hp. discriminate.
  - now injection Hrun as <-.
Qed.

Lemma fuel_extended self suffix :
  (Tokenizer.fuel_of self <= Tokenizer.fuel_of (extended self suffix))%nat.
Proof.
  unfold Tokenizer.fuel_of, extended. cbn [Tokenizer.text]. rewrite length_append. lia.
Qed.

Lemma ends_with_eof b self : ends_with b (Tokenizer.text self) -> Tokenizer._eof self = false.
Proof. intros H. unfold Tokenizer._eof. now rewrite (ends_with_nonempty b _ H). Qed.

(** Behind a first character that is not [b], the text still ends with
    [b]. *)
Lemma ends_with_advance b self nl :
  ends_with b (Tokenizer.text self) -> Ascii.eqb (Tokenizer._peek self) b = false ->
  ends_with b (Tokenizer.text (Tokenizer._advance self nl)).
Proof.
  intros He Hp. unfold Tokenizer._peek in Hp. unfold Tokenizer._advance. cbn [Tokenizer.text].
  destruct (Tokenizer.text self) as [| c r]; [now apply ends_with_nonempty in He |].
  destruct (ends_with_tail b c r He) as [[_ ->] | H]; [| exact H].
  rewrite Ascii.eqb_refl in Hp. discriminate.
Qed.

Lemma consume_identifier_extended suffix b self tok self' :
  separator b = true -> ends_with b (Tokenizer.text self) ->
  Tokenizer._consume_identifier self = Return (tok, self') ->
  Tokenizer._consume_identifier (extended self suffix) = Return (tok, extended self' suffix)
  /\ ends_with b (Tokenizer.text self').
Proof.
  intros Hb He. destruct (separator_facts b Hb) as (_ & Hw & _).
  unfold Tokenizer._consume_identifier.
  destruct (Tokenizer._consume_while _ (Tokenizer.fuel_of self) _ self)
    as [[lit self1] | e |] eqn:Hrun; cbn [mbind outcome_bind]; try discriminate.
  intros [= <- <-].
  pose proof (consume_while_ends _ b _ Hw _ _ _ _ Hrun He) as He1.
  rewrite (consume_while_extended _ suffix _ _ _ _ _ Hrun (ends_with_eof b _ He1) _
             (fuel_extended self suffix)).
  cbn [mbind outcome_bind]. split; [reflexivity | exact He1].
Qed.

Lemma consume_number_extended suffix b self tok self' :
  separator b = true -> ends_with b (Tokenizer.text self) ->
  Tokenizer._consume_number self = Return (tok, self') ->
  Tokenizer._consume_number (extended self suffix) = Return (tok, extended self' suffix)
  /\ ends_with b (Tokenizer.text self').
Proof.
  intros Hb He. destruct (separator_facts b Hb) as (Hd & _ & Hpt & Hm & _).
  pose proof (ends_with_eof b self He) as Heof.
  unfold Tokenizer._consume_number.
  destruct (extended_peek self suffix Heof) as [_ ->].
  change (Tokenizer._position (extended self suffix)) with (Tokenizer._position self).
  assert (Hfirst : exists lit0 self0,
    (if Ascii.eqb (Tokenizer._peek self) "-"
     then (String (Tokenizer._peek self) EmptyString, Tokenizer._advance self false)
     else (EmptyString, self)) = (lit0, self0)
    /\ (if Ascii.eqb (Tokenizer._peek self) "-"
        then (String (Tokenizer._peek self) EmptyString,
              Tokenizer._advance (extended self suffix) false)
        else (EmptyString, extended self suffix)) = (lit0, extended self0 suffix)
    /\ ends_with b (Tokenizer.text self0)).
  { destruct (Ascii.eqb (Tokenizer._peek self) "-") eqn:E.
    - eexists _, _. split; [reflexivity |]. split.
      + now rewrite extended_advance.
      + apply ends_with_advance; [exact He |].
        apply Ascii.eqb_eq in E. rewrite E. rewrite Ascii.eqb_sym. exact Hm.
    - eexists _, _. split; [reflexivity |]. now split. }
  destruct Hfirst as (lit0 & self0 & -> & -> & He0).
  destruct (Tokenizer._consume_while isdigit (Tokenizer.fuel_of self0) lit0 self0)
    as [[lit1 self1] | e |] eqn:Hrun; cbn [mbind outcome_bind]; try discriminate.
  pose proof (consume_while_ends _ b _ Hd _ _ _ _ Hrun He0) as He1.
  pose proof (ends_with_eof b _ He1) as Heof1.
  rewrite (consume_while_extended _ suffix _ _ _ _ _ Hrun Heof1 _ (fuel_extended self0 suffix)).
  cbn [mbind outcome_bind].
  destruct (extended_peek self1 suffix Heof1) as [-> ->]. rewrite Heof1. cbn [negb andb].
  destruct (Ascii.eqb (Tokenizer._peek self1) ".") eqn:Edot.
  - cbv zeta. rewrite extended_advance by exact Heof1.
    assert (He2 : ends_with b (Tokenizer.text (Tokenizer._advance self1 false))).
    { apply ends_with_advance; [exact He1 |].
      apply Ascii.eqb_eq in Edot. rewrite Edot. rewrite Ascii.eqb_sym. exact Hpt. }
    set (self2 := Tokenizer._advance self1 false) in *.
    pose proof (ends_with_eof b _ He2) as Heof2.
    destruct (extended_peek self2 suffix Heof2) as [-> ->]. rewrite Heof2. cbn [orb].
    destruct (negb (isdigit (Tokenizer._peek self2))); [discriminate |].
    destruct (Tokenizer._consume_while isdigit (Tokenizer.fuel_of self2) (lit1 ++ ".") self2)
      as [[lit3 self3] | e |] eqn:Hrun2; cbn [mbind outcome_bind]; try discriminate.
    pose proof (consume_while_ends _ b _ Hd _ _ _ _ Hrun2 He2) as He3.
    rewrite (consume_while_extended _ suffix _ _ _ _ _ Hrun2 (ends_with_eof b _ He3) _
               (fuel_extended self2 suffix)).
    cbn [mbind outcome_bind]. intros [= <- <-]. now split.
  - intros [= <- <-]. now split.
Qed.

Lemma append_cancel_r (a b s : string) : (a ++ s = b ++ s)%string -> a = b.
Proof.
  revert b. induction a as [| x a IH]; intros [| y b] H; simpl in H.
  - reflexivity.
  - exfalso. apply (f_equal String.length) in H. simpl in H. rewrite length_append in H. lia.
  - exfalso. apply (f_equal String.length) in H. simpl in H. rewrite length_append in H. lia.
  - injection H as -> H. f_equal. now apply IH.
Qed.

(** What a step on the extended state has read, it has read of the state's
    own text. *)
Lemma moved_extended text self self' suffix run :
  moved text (extended self suffix) (extended self' suffix) run ->
  Tokenizer.text self = (run ++ Tokenizer.text self')%string.
Proof.
  intros (_ & H). unfold extended in H. cbn [Tokenizer.text] in H.
  rewrite <- append_assoc3 in H. now apply append_cancel_r in H.
Qed.

Lemma contains_suffix c (run rest : string) :
  contains c (run ++ rest) = false -> contains c rest = false.
Proof. rewrite contains_app. intros H. now apply orb_false_iff in H as [_ H]. Qed.

(** The tokenizer reads a text that ends cleanly the same way when more
    text follows it: it goes through the same steps, and then stands at the
    start of what follows, with the tokens of the text in hand. *)
Lemma tokens_loop_extended suffix b text :
  separator b = true ->
  forall f self result toks,
    Tokenizer.tokens_loop f self result = Return toks ->
    contains dquote (Tokenizer.text self) = false ->
    Tokenizer.text self = EmptyString \/ ends_with b (Tokenizer.text self) ->
    b = newline \/ contains "#" (Tokenizer.text self) = false ->
    at_position text (extended self suffix) ->
    forall g, exists final g',
      (g <= g')%nat /\ Tokenizer.text final = suffix /\ at_position text final /\
      Tokenizer.tokens_loop (f + g) (extended self suffix) result
      = Tokenizer.tokens_loop (S g') final toks.
Proof.
  intros Hb. destruct (separator_facts b Hb) as (Hbd & Hbw & Hbpt & Hbm & Hbh & Hbq).
  induction f as [| f IH]; intros self result toks Hrun Hq Hend Hhash Hat g; [discriminate |].
  change (S f + g)%nat with (S (f + g)). cbn [Tokenizer.tokens_loop] in Hrun |- *.
  destruct (Tokenizer._eof self) eqn:Heof.
  { injection Hrun as <-. exists (extended self suffix), (f + g)%nat.
    unfold Tokenizer._eof in Heof. unfold extended at 1. cbn [Tokenizer.text].
    destruct (Tokenizer.text self) eqn:E; [| discriminate Heof].
    split; [lia |]. split; [reflexivity |]. split; [exact Hat | reflexivity]. }
  assert (He : ends_with b (Tokenizer.text self)).
  { destruct Hend as [E | H]; [| exact H].
    unfold Tokenizer._eof in Heof. rewrite E in Heof. discriminate Heof. }
  clear Hend.
  destruct (extended_peek self suffix Heof) as [Heof' Hpeek]. rewrite Heof', Hpeek.
  (* what holds behind the first character *)
  assert (Hnext : forall nl,
            contains dquote (Tokenizer.text (Tokenizer._advance self nl)) = false
            /\ (Tokenizer.text (Tokenizer._advance self nl) = EmptyString
                \/ ends_with b (Tokenizer.text (Tokenizer._advance self nl)))
            /\ (b = newline
                \/ contains "#" (Tokenizer.text (Tokenizer._advance self nl)) = false)).
  { intros nl. unfold Tokenizer._advance. cbn [Tokenizer.text].
    destruct (Tokenizer.text self) as [| c r]; [now apply ends_with_nonempty in He |].
    simpl in Hq. apply orb_false_iff in Hq as [_ Hq]. split; [exact Hq |]. split.
    - destruct (ends_with_tail b c r He) as [[-> _] | H]; [now left | now right].
    - destruct Hhash as [H | H]; [now left | right].
      simpl in H. now apply orb_false_iff in H as [_ H]. }
  (* what holds behind a token or a comment *)
  assert (Hafter : forall self' run,
            moved text (extended self suffix) (extended self' suffix) run ->
            ends_with b (Tokenizer.text self') ->
            contains dquote (Tokenizer.text self') = false
            /\ (b = newline \/ contains "#" (Tokenizer.text self') = false)).
  { intros self' run Hm He'. apply moved_extended in Hm. rewrite Hm in Hq, Hhash. split.
    - now apply contains_suffix in Hq.
    - destruct Hhash as [H | H]; [now left | right; now apply contains_suffix in H]. }
  destruct (contains (Tokenizer._peek self) (String " " (String tab (String cr EmptyString))))
    eqn:Hsp.
  { destruct (Hnext false) as (H1 & H2 & H3).
    rewrite extended_advance by exact Heof. apply IH; try assumption.
    rewrite <- extended_advance by exact Heof.
    assert (Hnl : Ascii.eqb (Tokenizer._peek (extended self suffix)) newline = false).
    { rewrite Hpeek. revert Hsp. generalize (Tokenizer._peek self). intros c. each_char c. }
    rewrite <- Hnl. now apply at_position_advance. }
  destruct (Ascii.eqb (Tokenizer._peek self) newline) eqn:Hnl.
  { destruct (Hnext true) as (H1 & H2 & H3).
    rewrite extended_advance by exact Heof. apply IH; try assumption.
    rewrite <- extended_advance by exact Heof.
    rewrite <- Hnl, <- Hpeek. now apply at_position_advance. }
  destruct (Ascii.eqb (Tokenizer._peek self) "#") eqn:Hh.
  { assert (Hbn : b = newline).
    { destruct Hhash as [H | H]; [exact H |]. exfalso.
      unfold Tokenizer._peek in Hh. destruct (Tokenizer.text self) as [| c r];
        [discriminate Hh |].
      simpl in H. rewrite Hh in H. discriminate H. }
    subst b. unfold Tokenizer._consume_comment in Hrun |- *.
    destruct (Tokenizer._consume_comment_loop (Tokenizer.fuel_of self) self)
      as [self' | e |] eqn:Hc; cbn [mbind outcome_bind] in Hrun; try discriminate.
    pose proof (comment_loop_ends _ _ _ Hc He) as He'.
    pose proof (comment_loop_extended suffix _ _ _ Hc (ends_with_eof _ _ He') _
                  (fuel_extended self suffix)) as Hc'.
    rewrite Hc'. cbn [mbind outcome_bind].
    destruct (consume_comment_moved _ text _ _ Hat Hc') as (run & Hm).
    destruct (Hafter self' run Hm He') as (H1 & H3).
    apply IH; try assumption; [now right | exact (proj1 Hm)]. }
  destruct (Ascii.eqb (Tokenizer._peek self) dquote) eqn:Hdq.
  { exfalso. apply Ascii.eqb_eq in Hdq. unfold Tokenizer._peek in Hdq.
    destruct (Tokenizer.text self) as [| c r]; [now apply ends_with_nonempty in He |].
    subst c. simpl in Hq. discriminate Hq. }
  destruct (contains (Tokenizer._peek self) Tokenizer.SYMBOLS) eqn:Hsym.
  { destruct (Hnext false) as (H1 & H2 & H3).
    cbn [Tokenizer._consume_symbol] in Hrun |- *.
    rewrite Hpeek. change (Tokenizer._position (extended self suffix))
      with (Tokenizer._position self).
    rewrite extended_advance by exact Heof. apply IH; try assumption.
    rewrite <- extended_advance by exact Heof.
    rewrite <- Hnl, <- Hpeek. now apply at_position_advance. }
  assert (Hpn : Ascii.eqb (Tokenizer._peek self) "-"
                && isdigit (Tokenizer._peek_next (extended self suffix))
                = Ascii.eqb (Tokenizer._peek self) "-" && isdigit (Tokenizer._peek_next self)).
  { destruct (Ascii.eqb (Tokenizer._peek self) "-") eqn:Em; [| reflexivity].
    cbn [andb]. apply Ascii.eqb_eq in Em.
    unfold Tokenizer._peek in Em. unfold Tokenizer._peek_next, extended. cbn [Tokenizer.text].
    destruct (Tokenizer.text self) as [| c r]; [now apply ends_with_nonempty in He |].
    subst c. destruct (ends_with_tail b "-" r He) as [[_ E] | H].
    - rewrite <- E in Hbm. discriminate Hbm.
    - apply ends_with_nonempty in H. now destruct r. }
  rewrite Hpn.
  destruct (isdigit (Tokenizer._peek self)
            || (Ascii.eqb (Tokenizer._peek self) "-" && isdigit (Tokenizer._peek_next self))).
  { destruct (Tokenizer._consume_number self) as [[tok self'] | e |] eqn:Hn;
      cbn [mbind outcome_bind] in Hrun; try discriminate.
    destruct (consume_number_extended suffix b _ _ _ Hb He Hn) as (Hn' & He').
    rewrite Hn'. cbn [mbind outcome_bind].
    destruct (consume_number_located text _ _ _ Hat Heof' Hn') as (_ & Hm).
    destruct (Hafter self' _ Hm He') as (H1 & H3).
    apply IH; try assumption; [now right | exact (proj1 Hm)]. }
  destruct (isalpha (Tokenizer._peek self) || Ascii.eqb (Tokenizer._peek self) "_");
    [| discriminate].
  destruct (Tokenizer._consume_identifier self) as [[tok self'] | e |] eqn:Hn;
    cbn [mbind outcome_bind] in Hrun; try discriminate.
  destruct (consume_identifier_extended suffix b _ _ _ Hb He Hn) as (Hn' & He').
  rewrite Hn'. cbn [mbind outcome_bind].
  destruct (consume_identifier_located text _ _ _ Hat Hn') as (_ & Hm).
  destruct (Hafter self' _ Hm He') as (H1 & H3).
  apply IH; try assumption; [now right | exact (proj1 Hm)].
Qed.

Lemma at_position_init text : at_position text (Tokenizer.init text).
Proof. exists EmptyString. split; [reflexivity |]. unfold position_at. now destruct text. Qed.

(** The tokens of a text that ends cleanly are read first when more text
    follows, and the tokenizer then stands at the start of what follows, with
    the line and the column of that character. *)
Lemma tokens_prefix pre suffix toks :
  contains dquote pre = false -> ends_clean pre ->
  Tokenizer.tokens (Tokenizer.init pre) = Return toks ->
  exists final g,
    (String.length suffix <= g)%nat /\ Tokenizer.text final = suffix /\
    Tokenizer._position final = position_at (pre ++ suffix) (String.length pre) /\
    Tokenizer.tokens (Tokenizer.init (pre ++ suffix)) = Tokenizer.tokens_loop (S g) final toks.
Proof.
  intros Hq Hclean Hrun. unfold Tokenizer.tokens in *.
  assert (Hb : exists b, separator b = true /\
                 (pre = EmptyString \/ ends_with b pre) /\
                 (b = newline \/ contains "#" pre = false)).
  { destruct Hclean as [-> | (b & He & Hb & Hh)].
    - exists newline. repeat split; auto.
    - exists b. repeat split; auto. }
  destruct Hb as (b & Hb & He & Hh).
  destruct (tokens_loop_extended suffix b (pre ++ suffix) Hb _ (Tokenizer.init pre) [] toks
              Hrun Hq He Hh (at_position_init (pre ++ suffix)) (String.length suffix))
    as (final & g & Hg & Htext & (pre' & Hpre & Hpos) & Heq).
  exists final, g. split; [exact Hg |]. split; [exact Htext |]. split.
  - rewrite Htext in Hpre. apply append_cancel_r in Hpre. now subst pre'.
  - rewrite <- Heq. unfold Tokenizer.fuel_of, extended, Tokenizer.init.
    cbn [Tokenizer.text Tokenizer.index Tokenizer.line Tokenizer.column].
    rewrite length_append. reflexivity.
Qed.


(** The loop of [_consume_string] over a body, by the way the body ends. *)
Lemma consume_string_loop_end n :
  forall body fuel start chars self,
    (String.length body <= n)%nat -> Tokenizer.text self = body ->
    (String.length body < fuel)%nat ->
    match string_end body with
    | Unclosed =>
        Tokenizer._consume_string_loop fuel start chars self
        = Raise (ConfigSyntaxError "Unterminated string literal" (Some start))
    | OpenEscape =>
        Tokenizer._consume_string_loop fuel start chars self
        = Raise (ConfigSyntaxError "Unterminated escape sequence" (Some start))
    | Closed =>
        exists value self',
          Tokenizer._consume_string_loop fuel start chars self
          = Return (Token.mk "STRING" value start, self')
    end.
Proof.
  induction n as [| n IH]; intros body fuel start chars self Hn Htext Hfuel;
    destruct fuel as [| fuel]; try lia;
    destruct self as [text index line column]; cbn [Tokenizer.text] in Htext; subst text;
    destruct body as [| c r]; try (simpl in Hn; lia);
    cbn [Tokenizer._consume_string_loop string_end];
    unfold Tokenizer._eof, Tokenizer._peek; cbn [Tokenizer.text nonempty negb];
    try reflexivity.
  simpl in Hn, Hfuel.
  destruct (Ascii.eqb c dquote); [now eexists _, _ |].
  destruct (Ascii.eqb c backslash).
  - unfold Tokenizer._advance at 1 2. cbn [Tokenizer.text nonempty negb].
    destruct r as [| d r']; [reflexivity |]. cbn [nonempty negb].
    simpl in Hn, Hfuel. apply IH; [lia | reflexivity | lia].
  - apply IH; [lia | reflexivity | lia].
Qed.

Lemma consume_string_end body self :
  Tokenizer.text self = String dquote body ->
  match string_end body with
  | Unclosed =>
      Tokenizer._consume_string self
      = Raise (ConfigSyntaxError "Unterminated string literal"
                 (Some (Tokenizer._position self)))
  | OpenEscape =>
      Tokenizer._consume_string self
      = Raise (ConfigSyntaxError "Unterminated escape sequence"
                 (Some (Tokenizer._position self)))
  | Closed =>
      exists value self',
        Tokenizer._consume_string self
        = Return (Token.mk "STRING" value (Tokenizer._position self), self')
  end.
Proof.
  intros Htext. unfold Tokenizer._consume_string, Tokenizer.fuel_of. rewrite Htext.
  apply (consume_string_loop_end (String.length body)).
  - lia.
  - unfold Tokenizer._advance. cbn [Tokenizer.text]. now rewrite Htext.
  - simpl. lia.
Qed.

(** The main loop at an opening quote does what [_consume_string] does. *)
Lemma tokens_loop_at_quote fuel self result body :
  Tokenizer.text self = String dquote body ->
  Tokenizer.tokens_loop (S fuel) self result
  = ('(tok, self') ← Tokenizer._consume_string self;
     Tokenizer.tokens_loop fuel self' (result ++ [tok])).
Proof.
  intros Htext. cbn [Tokenizer.tokens_loop].
  unfold Tokenizer._eof, Tokenizer._peek. rewrite Htext. reflexivity.
Qed.

Lemma tokens_unclosed pre body toks :
  contains dquote pre = false -> ends_clean pre ->
  Tokenizer.tokens (Tokenizer.init pre) = Return toks ->
  (string_end body = Unclosed ->
   Tokenizer.tokens (Tokenizer.init (pre ++ String dquote body))
   = Raise (ConfigSyntaxError "Unterminated string literal"
              (Some (position_at (pre ++ String dquote body) (String.length pre)))))
  /\ (string_end body = OpenEscape ->
      Tokenizer.tokens (Tokenizer.init (pre ++ String dquote body))
      = Raise (ConfigSyntaxError "Unterminated escape sequence"
                 (Some (position_at (pre ++ String dquote body) (String.length pre))))).
Proof.
  intros Hq Hclean Hrun.
  destruct (tokens_prefix pre (String dquote body) toks Hq Hclean Hrun)
    as (final & g & _ & Htext & Hpos & ->).
  rewrite <- Hpos, (tokens_loop_at_quote g final toks body Htext).
  pose proof (consume_string_end body final Htext) as H.
  split; intros E; rewrite E in H; now rewrite H.
Qed.

(** ** Number literals, from the text *)




(** Behind a string literal that holds a newline, the line and the column
    that the tokenizer has counted are not those of the number: in the text
    quote, newline, quote, [3.] the number starts on line 2, column 2, and
    the error names line 1, column 4. *)
Lemma trailing_point_behind_newline_literal :
  Tokenizer.tokens (Tokenizer.init (String dquote (String newline (String dquote "3."))))
  = Raise (ConfigSyntaxError "Invalid number literal" (Some (Position.mk 1 4))) /\
  position_at (String dquote (String newline (String dquote "3."))) 3 = Position.mk 2 2.
Proof. split; vm_compute; reflexivity. Qed.

(** ** Unterminated strings *)

(** In an ASCII text, a string literal that is never closed is reported at
    its opening quote, however long its body is and however many lines it
    spans: as an unterminated string literal when the text ends in the
    body, as an unterminated escape sequence when it ends just behind a
    backslash.  In
    the body a backslash takes the next character with it, whatever that
    character is, and only a double quote that is not taken so closes the
    literal.  The position reported is the line and the column of the
    opening quote, when the text before the quote holds no double quote, is
    tokenized without an error and ends cleanly; at any state of the
    tokenizer it is the line and the column that the tokenizer has counted
    for the quote, and behind a string literal that holds a newline these
    are not the line and the column of the quote. *)
Theorem unterminated_string_at_opening_quote :
  (forall pre body toks,
     isascii pre = true -> isascii body = true ->
     contains dquote pre = false -> ends_clean pre ->
     Tokenizer.tokens (Tokenizer.init pre) = Return toks ->
     (string_end body = Unclosed ->
      Tokenizer.tokens (Tokenizer.init (pre ++ String dquote body)%string)
      = Raise (ConfigSyntaxError "Unterminated string literal"
                 (Some (position_at (pre ++ String dquote body)%string (String.length pre)))))
     /\ (string_end body = OpenEscape ->
         Tokenizer.tokens (Tokenizer.init (pre ++ String dquote body)%string)
         = Raise (ConfigSyntaxError "Unterminated escape sequence"
                    (Some (position_at (pre ++ String dquote body)%string (String.length pre))))))
  /\ (forall body self,
        isascii body = true ->
        Tokenizer.text self = String dquote body ->
        match string_end body with
        | Unclosed =>
            Tokenizer._consume_string self
            = Raise (ConfigSyntaxError "Unterminated string literal"
                       (Some (Tokenizer._position self)))
        | OpenEscape =>
            Tokenizer._consume_string self
            = Raise (ConfigSyntaxError "Unterminated escape sequence"
                       (Some (Tokenizer._position self)))
        | Closed =>
            exists value self',
              Tokenizer._consume_string self
              = Return (Token.mk "STRING" value (Tokenizer._position self), self')
        end)
  /\ (Tokenizer.tokens
        (Tokenizer.init (newline_in_string_prefix ++ String dquote "abc")%string)
      = Raise (ConfigSyntaxError "Unterminated string literal" (Some (Position.mk 1 5)))
      /\ position_at (newline_in_string_prefix ++ String dquote "abc")%string
           (String.length newline_in_string_prefix)
         = Position.mk 2 3).
Proof.
  split; [| split].
  - intros pre body toks _ _. apply tokens_unclosed.
  - intros body self _. apply consume_string_end.
  - split; vm_compute; reflexivity.
Qed.

Lemma unterminated_string_at_opening_quote_witness :
  isascii ("a = 1" ++ String newline "b = ")%string = true /\
  isascii ("x" ++ String newline (String tab (String backslash (String dquote "y"))))%string
  = true /\
  contains dquote ("a = 1" ++ String newline "b = ")%string = false /\
  ends_clean ("a = 1" ++ String newline "b = ")%string /\
  Tokenizer.tokens (Tokenizer.init ("a = 1" ++ String newline "b = ")%string)
  = Return [Token.mk "IDENT" "a" (Position.mk 1 1); Token.mk "=" "=" (Position.mk 1 3);
            Token.mk "NUMBER" "1" (Position.mk 1 5); Token.mk "IDENT" "b" (Position.mk 2 1);
            Token.mk "=" "=" (Position.mk 2 3)] /\
  string_end ("x" ++ String newline (String tab (String backslash (String dquote "y"))))%string
  = Unclosed /\
  Tokenizer.tokens
    (Tokenizer.init
       (("a = 1" ++ String newline "b = ")
        ++ String dquote
             ("x" ++ String newline (String tab (String backslash (String dquote "y")))))%string)
  = Raise (ConfigSyntaxError "Unterminated string literal" (Some (Position.mk 2 5))).
Proof.
  assert (Hclean : ends_clean ("a = 1" ++ String newline "b = ")%string).
  { right. exists " "%char. split; [| split; [reflexivity | now right]].
    now exists ("a = 1" ++ String newline "b =")%string. }
  split; [reflexivity |]. split; [reflexivity |].
  split; [reflexivity |]. split; [exact Hclean |]. split; [vm_compute; reflexivity |].
  split; [reflexivity |].
  exact (proj1 (proj1 unterminated_string_at_opening_quote
                  ("a = 1" ++ String newline "b = ")%string
                  ("x" ++ String newline (String tab (String backslash (String dquote "y"))))%string
                  _ eq_refl eq_refl eq_refl Hclean eq_refl) eq_refl).
Defined.

(** ** The check command *)

Import cli.

Lemma collect_off yields : collect false yields = (yields, true).
Proof.
  induction yields as [| f yields IH]; [reflexivity |].
  cbn [collect andb]. now rewrite IH.
Qed.

Lemma collect_no_error ff yields :
  existsb is_error yields = false -> collect ff yields = (yields, true).
Proof.
  induction yields as [| f yields IH]; [reflexivity |].
  cbn [existsb collect]. intros H. apply orb_false_iff in H as [Hf Hr].
  rewrite Hf, andb_false_r. now rewrite (IH Hr).
Qed.

Lemma collect_first_error pre f rest :
  existsb is_error pre = false -> is_error f = true ->
  collect true (pre ++ f :: rest) = (pre ++ [f], false).
Proof.
  intros Hpre Hf. induction pre as [| g pre IH]; cbn [app collect andb].
  - now rewrite Hf.
  - cbn [existsb] in Hpre. apply orb_false_iff in Hpre as [Hg Hpre].
    rewrite Hg. now rewrite (IH Hpre).
Qed.

(** The first error of a list splits it. *)
Lemma first_error yields :
  existsb is_error yields = true ->
  exists pre f rest, yields = pre ++ f :: rest
                     /\ existsb is_error pre = false /\ is_error f = true.
Proof.
  induction yields as [| g yields IH]; [discriminate |]. cbn [existsb].
  destruct (is_error g) eqn:Hg.
  - intros _. now exists [], g, yields.
  - cbn [orb]. intros H. destruct (IH H) as (pre & f & rest & -> & Hpre & Hf).
    exists (g :: pre), f, rest. cbn [existsb]. rewrite Hg. now repeat split.
Qed.

Lemma existsb_app_error (l r : list Finding) :
  existsb is_error (l ++ r) = existsb is_error l || existsb is_error r.
Proof. apply existsb_app. Qed.

Lemma collect_errors ff yields :
  existsb is_error (fst (collect ff yields)) = existsb is_error yields.
Proof.
  destruct (existsb is_error yields) eqn:E.
  - destruct ff; [| now rewrite collect_off].
    destruct (first_error yields E) as (pre & f & rest & -> & Hpre & Hf).
    rewrite (collect_first_error pre f rest Hpre Hf). cbn [fst].
    rewrite existsb_app_error, Hpre. cbn. now rewrite Hf.
  - now rewrite (collect_no_error ff yields E).
Qed.

(** An entry at which the mysql_servers rule raises has yielded the error
    about its address before. *)
Lemma servers_loop_raise_after_error servers :
  forall index seen,
    raised (servers_loop index seen servers) <> None ->
    existsb is_error (yielded (servers_loop index seen servers)) = true.
Proof.
  induction servers as [| e servers IH]; intros index seen; [intros H; now elim H |].
  destruct e as [s | n | f | b | | d | vs];
    try (cbn [servers_loop]; rewrite raised_yield_then, yielded_yield_then; reflexivity).
  cbn [servers_loop]. rewrite raised_yield_then, yielded_yield_then, existsb_app_error.
  remember (server_field_findings index d) as F eqn:HF.
  destruct (dict_get d "address") as [s | n | f | b | | d' | vs] eqn:Ha;
    try (intros _; subst F; unfold server_field_findings; rewrite Ha; reflexivity).
  intros H. apply orb_true_iff. right. revert H.
  destruct (builtin._coerce_int (dict_get d "port")) as [p |];
    destruct (builtin._coerce_int (dict_get d "hostgroup")) as [h |];
    try apply IH.
  assert (Hh : hashable (fst (fst (server_key (VStr s) (Some p) (Some h)))) = true).
  { unfold server_key, py_or. simpl. now destruct s. }
  rewrite Hh, raised_yield_then, yielded_yield_then, existsb_app_error.
  intros H. apply IH in H. rewrite H. apply orb_true_r.
Qed.

Lemma engine_raise_after_error config :
  raised (run engine config) <> None ->
  existsb is_error (yielded (run engine config)) = true.
Proof.
  unfold engine, run, builtin_rules. cbn [rules run_loop].
  change (raised (check (RequiredBlocksRule None) config)) with (@None exn).
  change (raised (check AdminCredentialsRule config)) with (@None exn).
  cbv iota. rewrite !raised_yield_then, !yielded_yield_then.
  destruct (raised (check MysqlServersRule config)) eqn:Hr.
  - intros _. rewrite !existsb_app_error.
    cbn [check MysqlServersRule] in *. unfold MysqlServers_check in *.
    destruct (get_list config "mysql_servers") as [| e0 l]; [discriminate Hr |].
    rewrite servers_loop_raise_after_error by congruence. now rewrite !orb_true_r.
  - rewrite raised_yield_then.
    change (raised (check MysqlUsersRule config)) with (@None exn). cbv iota.
    rewrite raised_yield_then.
    change (raised (check MysqlQueryRulesRule config)) with (@None exn). cbv iota.
    rewrite raised_yield_then.
    assert (Hd : raised (check DatadirRule config) = None).
    { apply other_rules_never_raise; [unfold builtin_rules; simpl; tauto | discriminate]. }
    rewrite Hd. cbn. intros H. now elim H.
Qed.

Lemma handle_check_loaded fs args text raw :
  fs (path args) = config_loader.Text text -> parse_config text = Return raw ->
  _handle_check fs args
  = let g := run engine {| raw := raw |} in
    let '(findings, exhausted) := collect (fail_fast args) (yielded g) in
    match (if exhausted then raised g else None) with
    | Some e => ([], Raise e)
    | None =>
        (if String.eqb (format args) "json" then _print_json findings
         else _print_text findings (path args) (existsb is_error findings),
         Return (if negb (existsb is_error findings) then 0 else 2))
    end.
Proof.
  intros Hfs Hparse. unfold _handle_check, config_loader.load. now rewrite Hfs, Hparse.
Qed.

(** When --fail-fast is on, or the engine does not raise, the loop of
    [check] over the findings ends without an exception. *)
Lemma collect_stops_before_raise ff config :
  ff = true \/ raised (run engine config) = None ->
  (if snd (collect ff (yielded (run engine config)))
   then raised (run engine config) else None) = None.
Proof.
  intros [-> | Hnone]; [| rewrite Hnone; now destruct (snd _)].
  destruct (raised (run engine config)) eqn:Hr; [| now destruct (snd _)].
  assert (Hne : raised (run engine config) <> None) by congruence.
  apply engine_raise_after_error in Hne.
  destruct (first_error _ Hne) as (pre & f & rest & Hy & Hpre & Hf).
  now rewrite Hy, (collect_first_error pre f rest Hpre Hf).
Qed.

(** What [check] does on a file that parses when its loop ends without an
    exception: it prints the findings it collected and returns 0 or 2. *)
Lemma handle_check_completes fs args text raw :
  fs (path args) = config_loader.Text text -> parse_config text = Return raw ->
  fail_fast args = true \/ raised (run engine {| raw := raw |}) = None ->
  _handle_check fs args
  = let findings := fst (collect (fail_fast args) (yielded (run engine {| raw := raw |}))) in
    (if String.eqb (format args) "json" then _print_json findings
     else _print_text findings (path args) (existsb is_error findings),
     Return (if existsb is_error findings then 2 else 0)).
Proof.
  intros Hfs Hparse Hrun. rewrite (handle_check_loaded fs args text raw Hfs Hparse).
  cbv zeta.
  pose proof (collect_stops_before_raise (fail_fast args) {| raw := raw |} Hrun) as Hnone.
  destruct (collect (fail_fast args) (yielded (run engine {| raw := raw |})))
    as [findings exhausted].
  cbn [fst snd] in *. rewrite Hnone. now destruct (existsb is_error findings).
Qed.

(** The exit code of [check] on a file that parses, when the run is not
    stopped by an exception: 2 when the engine yields a finding of severity
    error, 0 otherwise.  Neither --fail-fast nor the output format changes
    it; and under --fail-fast no exception of the engine stops the run,
    since the rule that raises has yielded an error before. *)
Theorem check_exit_code fs args text raw :
  fs (path args) = config_loader.Text text -> parse_config text = Return raw ->
  fail_fast args = true \/ raised (run engine {| raw := raw |}) = None ->
  snd (_handle_check fs args)
  = Return (if existsb is_error (yielded (run engine {| raw := raw |})) then 2 else 0).
Proof.
  intros Hfs Hparse Hrun.
  rewrite (handle_check_completes fs args text raw Hfs Hparse Hrun). cbn [snd].
  now rewrite collect_errors.
Qed.

Lemma check_exit_code_witness :
  snd (_handle_check (fun _ => config_loader.Text minimal_text)
         {| path := "proxysql.cnf"; format := "text"; fail_fast := true |})
  = Return 0.
Proof.
  apply (check_exit_code (fun _ => config_loader.Text minimal_text)
           {| path := "proxysql.cnf"; format := "text"; fail_fast := true |}
           minimal_text (minimal_root "0.0.0.0:6033" (VInt 100))).
  - reflexivity.
  - vm_compute. reflexivity.
  - left. reflexivity.
Defined.

(** Under --fail-fast the report stops at the first finding of severity
    error: the findings before it and that one are printed, in the format
    asked for, nothing that the engine would yield after it is, and the
    exit code is 2. *)
Theorem check_fail_fast_stops fs args text raw pre f rest :
  fs (path args) = config_loader.Text text -> parse_config text = Return raw ->
  fail_fast args = true ->
  yielded (run engine {| raw := raw |}) = pre ++ f :: rest ->
  existsb is_error pre = false -> is_error f = true ->
  _handle_check fs args
  = (if String.eqb (format args) "json" then _print_json (pre ++ [f])
     else _print_text (pre ++ [f]) (path args) true,
     Return 2).
Proof.
  intros Hfs Hparse Hff Hy Hpre Hf.
  rewrite (handle_check_loaded fs args text raw Hfs Hparse). cbv zeta.
  rewrite Hff, Hy, (collect_first_error pre f rest Hpre Hf).
  rewrite existsb_app_error, Hpre. cbn [existsb orb]. rewrite Hf. reflexivity.
Qed.

Lemma check_fail_fast_stops_witness :
  _handle_check (fun _ => config_loader.Text list_address_text)
    {| path := "proxysql.cnf"; format := "text"; fail_fast := true |}
  = (_print_text [server_finding 0 ".address must be a non-empty string" ERROR]
       "proxysql.cnf" true,
     Return 2).
Proof.
  apply (check_fail_fast_stops (fun _ => config_loader.Text list_address_text)
           {| path := "proxysql.cnf"; format := "text"; fail_fast := true |}
           list_address_text list_address_root []
           (server_finding 0 ".address must be a non-empty string" ERROR) []).
  - reflexivity.
  - vm_compute. reflexivity.
  - reflexivity.
  - vm_compute. reflexivity.
  - reflexivity.
  - reflexivity.
Defined.

(** On a file that parses, [check] ends with an uncaught exception exactly
    when --fail-fast is off and some mysql_servers entry makes the
    mysql_servers rule raise; nothing has been printed then. *)
Theorem check_crashes_iff fs args text raw :
  fs (path args) = config_loader.Text text -> parse_config text = Return raw ->
  (exists e, _handle_check fs args = ([], Raise e))
  <-> fail_fast args = false
      /\ forallb (fun v => negb (raising_entry v))
           (get_list {| raw := raw |} "mysql_servers") = false.
Proof.
  intros Hfs Hparse.
  pose proof (engine_raised_none {| raw := raw |}) as Hiff.
  pose proof (handle_check_completes fs args text raw Hfs Hparse) as Hdone.
  split.
  - intros (e & He). destruct (fail_fast args) eqn:Hff.
    + rewrite (Hdone (or_introl eq_refl)) in He. discriminate He.
    + split; [reflexivity |]. apply not_true_iff_false. intros Hall.
      apply Hiff in Hall. rewrite (Hdone (or_intror Hall)) in He. discriminate He.
  - intros (Hff & Hr). rewrite (handle_check_loaded fs args text raw Hfs Hparse).
    cbv zeta. rewrite Hff, collect_off.
    destruct (raised (run engine {| raw := raw |})) as [e |]; [now exists e |].
    rewrite (proj1 Hiff eq_refl) in Hr. discriminate Hr.
Qed.

Lemma check_crashes_iff_witness :
  (exists e, _handle_check (fun _ => config_loader.Text list_address_text)
               {| path := "proxysql.cnf"; format := "text"; fail_fast := false |}
             = ([], Raise e))
  <-> false = false
      /\ forallb (fun v => negb (raising_entry v))
           (get_list {| raw := list_address_root |} "mysql_servers") = false.
Proof.
  apply (check_crashes_iff (fun _ => config_loader.Text list_address_text)
           {| path := "proxysql.cnf"; format := "text"; fail_fast := false |}
           list_address_text list_address_root).
  - reflexivity.
  - vm_compute. reflexivity.
Defined.

(** What [check] can end with, when the path is ASCII and the file, if it
    can be read, holds an ASCII text whose brackets nest at most 100 deep:
    exit code 0 or 2, or one of the three exceptions that [_handle_check]
    does not catch: the [TypeError] of the mysql_servers rule, and that
    only when --fail-fast is off; the [ValueError] of [int], and that only
    when the text has an integer literal of more than 4300 digits; or the
    exception with which reading the file failed, unless the file is
    missing.  A missing file and a syntax error are reported on the
    standard error, with exit code 2.  No loop runs out of fuel. *)
Theorem check_outcomes fs args :
  isascii (path args) = true ->
  (forall text, fs (path args) = config_loader.Text text ->
                isascii text = true /\ shallow text) ->
  (snd (_handle_check fs args) = Return 0
   \/ snd (_handle_check fs args) = Return 2
   \/ (fail_fast args = false
       /\ exists m, _handle_check fs args = ([], Raise (TypeError m)))
   \/ (_handle_check fs args = ([], Raise ValueError)
       /\ exists text toks tok,
            fs (path args) = config_loader.Text text /\
            Tokenizer.tokens (Tokenizer.init text) = Return toks /\
            In tok toks /\ Token.kind tok = "NUMBER" /\ too_long (Token.value tok))
   \/ (exists name, fs (path args) = config_loader.Fails name
                    /\ _handle_check fs args = ([], Raise (ReadError name))))
  /\ (fs (path args) = config_loader.NoSuchFile ->
      _handle_check fs args
      = ([Stderr [Lit "File not found: "; Fmt (VStr (path args))]], Return 2))
  /\ (forall text message position,
        fs (path args) = config_loader.Text text ->
        parse_config text = Raise (ConfigSyntaxError message position) ->
        _handle_check fs args
        = ([Stderr (Lit "Syntax error: " :: syntax_error_text message position)], Return 2)).
Proof.
  intros _ _. split; [| split].
  - destruct (fs (path args)) as [text | | name] eqn:Hfs.
    + pose proof (parse_config_returns text) as Hret.
      pose proof (parse_config_raises text) as Hraise.
      destruct (parse_config text) as [raw | e |] eqn:Hp; [| | now elim Hret].
      * destruct (fail_fast args) eqn:Hff.
        -- rewrite (handle_check_completes fs args text raw Hfs Hp (or_introl Hff)).
           cbn [snd]. destruct (existsb _ _); auto.
        -- destruct (raised (run engine {| raw := raw |})) as [e |] eqn:Hr.
           ++ right. right. left. split; [reflexivity |].
              destruct (engine_raises_type_error _ e Hr) as (m & ->). exists m.
              rewrite (handle_check_loaded fs args text raw Hfs Hp). cbv zeta.
              now rewrite Hff, collect_off, Hr.
           ++ rewrite (handle_check_completes fs args text raw Hfs Hp (or_intror Hr)).
              cbn [snd]. destruct (existsb _ _); auto.
      * destruct (Hraise e eq_refl) as [(m & p & ->) | (-> & toks & Ht & tok & H)].
        -- right. left. unfold _handle_check, config_loader.load. now rewrite Hfs, Hp.
        -- right. right. right. left. split.
           ++ unfold _handle_check, config_loader.load. now rewrite Hfs, Hp.
           ++ now exists text, toks, tok.
    + right. left. unfold _handle_check, config_loader.load. now rewrite Hfs.
    + right. right. right. right. exists name. split; [reflexivity |].
      unfold _handle_check, config_loader.load. now rewrite Hfs.
  - intros Hfs. unfold _handle_check, config_loader.load. now rewrite Hfs.
  - intros text message position Hfs Hp.
    unfold _handle_check, config_loader.load. now rewrite Hfs, Hp.
Qed.

Lemma check_outcomes_witness :
  isascii "proxysql.cnf" = true /\
  (forall text, config_loader.Text ("a=" ++ times "7" 4301)%string = config_loader.Text text ->
                isascii text = true /\ shallow text) /\
  (snd (_handle_check (fun _ => config_loader.Text ("a=" ++ times "7" 4301)%string)
          {| path := "proxysql.cnf"; format := "text"; fail_fast := true |}) = Return 0
   \/ snd (_handle_check (fun _ => config_loader.Text ("a=" ++ times "7" 4301)%string)
             {| path := "proxysql.cnf"; format := "text"; fail_fast := true |}) = Return 2
   \/ (fail_fast {| path := "proxysql.cnf"; format := "text"; fail_fast := true |} = false
       /\ exists m,
            _handle_check (fun _ => config_loader.Text ("a=" ++ times "7" 4301)%string)
              {| path := "proxysql.cnf"; format := "text"; fail_fast := true |}
            = ([], Raise (TypeError m)))
   \/ (_handle_check (fun _ => config_loader.Text ("a=" ++ times "7" 4301)%string)
         {| path := "proxysql.cnf"; format := "text"; fail_fast := true |}
       = ([], Raise ValueError)
       /\ exists text toks tok,
            config_loader.Text ("a=" ++ times "7" 4301)%string = config_loader.Text text /\
            Tokenizer.tokens (Tokenizer.init text) = Return toks /\
            In tok toks /\ Token.kind tok = "NUMBER" /\ too_long (Token.value tok))
   \/ (exists name,
         config_loader.Text ("a=" ++ times "7" 4301)%string = config_loader.Fails name
         /\ _handle_check (fun _ => config_loader.Text ("a=" ++ times "7" 4301)%string)
              {| path := "proxysql.cnf"; format := "text"; fail_fast := true |}
            = ([], Raise (ReadError name)))).
Proof.
  assert (Hs : forall text,
             config_loader.Text ("a=" ++ times "7" 4301)%string = config_loader.Text text ->
             isascii text = true /\ shallow text).
  { intros text [= <-]. split; [vm_compute; reflexivity |].
    intros toks Ht. vm_compute in Ht. injection Ht as <-. vm_compute. lia. }
  split; [reflexivity |]. split; [exact Hs |].
  exact (proj1 (check_outcomes (fun _ => config_loader.Text ("a=" ++ times "7" 4301)%string)
                  {| path := "proxysql.cnf"; format := "text"; fail_fast := true |}
                  eq_refl Hs)).
Defined.

(** With an integer literal of 4301 digits in the file, [check] ends with
    the [ValueError] of [int], with --fail-fast as without it; a path that
    is a directory ends it with [IsADirectoryError]. *)
Lemma check_uncaught_examples :
  (forall ff,
     _handle_check (fun _ => config_loader.Text ("a=" ++ times "7" 4301)%string)
       {| path := "proxysql.cnf"; format := "text"; fail_fast := ff |}
     = ([], Raise ValueError)) /\
  _handle_check (fun _ => config_loader.Fails "IsADirectoryError")
    {| path := "/etc"; format := "json"; fail_fast := true |}
  = ([], Raise (ReadError "IsADirectoryError")).
Proof.
  split; [| reflexivity].
  assert (H : parse_config ("a=" ++ times "7" 4301) = Raise ValueError)
    by (vm_compute; reflexivity).
  intros ff. unfold _handle_check, config_loader.load. now rewrite H.
Qed.


